(** * authentik.lib.config — the layered configuration loader

    A shallow embedding of [authentik/lib/config.py]: the path accessors
    [get_path_from_dict] / [set_path_in_dict], the value cell [Attr], and the
    [ConfigLoader] methods ([update], [parse_uri], [refresh],
    [update_from_file], [update_from_env], [check_deprecations], [get],
    [get_int], [get_bool], [set], [patch]).

    Python objects are dynamically typed, so the loader is modelled over one
    universal value type [pyval]; every operation that Python may refuse
    returns a [result] carrying the exception class.  Mutable dictionaries are
    association lists in insertion order; a method that mutates an object in
    place returns the object after the mutation, and the caller writes it back
    at the place the alias came from.  Floating-point values and non-string
    dictionary keys are outside the model. *)

From Stdlib Require Import String Ascii List ZArith Bool Lia DecimalString.
Import ListNotations.
Open Scope list_scope.
Open Scope string_scope.

(* ------------------------------------------------------------------ *)
(** ** Exceptions and results *)

Inductive exn : Type :=
| TypeError
| AttributeError
| ValueError
| KeyError
| IndexError
| RuntimeError
| OSError
| ImproperlyConfigured
| UnicodeDecodeError
| RecursionError.

Inductive result (A : Type) : Type :=
| Ok (a : A)
| Raise (e : exn).

Arguments Ok {A} a.
Arguments Raise {A} e.

Definition rbind {A B : Type} (r : result A) (k : A -> result B) : result B :=
  match r with
  | Ok a => k a
  | Raise e => Raise e
  end.

Declare Scope result_scope.
Delimit Scope result_scope with res.
Notation "x <- r ;; k" := (rbind r (fun x => k))
  (at level 61, r at next level, right associativity) : result_scope.

(* ------------------------------------------------------------------ *)
(** ** Python values *)

(** [Attr.Source] *)
Inductive Source : Type :=
| UNSPECIFIED
| ENV
| CONFIG_FILE
| URI.

Definition Source_eqb (a b : Source) : bool :=
  match a, b with
  | UNSPECIFIED, UNSPECIFIED | ENV, ENV | CONFIG_FILE, CONFIG_FILE | URI, URI => true
  | _, _ => false
  end.

(** The objects the loader handles.  [VAttr] is an instance of the dataclass
    [Attr]; [VPath] a [pathlib.Path]; [VUnset] the class object [UNSET]. *)
#[warnings="-register-all"]
Inductive pyval : Type :=
| VNone
| VBool (b : bool)
| VInt (z : Z)
| VStr (s : string)
| VList (l : list pyval)
| VDict (d : list (string * pyval))
| VAttr (value : pyval) (source_type : Source) (source : option string)
| VPath (p : string)
| VUnset.

Definition is_attr (v : pyval) : bool :=
  match v with VAttr _ _ _ => true | _ => false end.

Definition is_dict (v : pyval) : bool :=
  match v with VDict _ => true | _ => false end.

Definition is_str (v : pyval) : bool :=
  match v with VStr _ => true | _ => false end.

Definition is_unset (v : pyval) : bool :=
  match v with VUnset => true | _ => false end.

(** Truth value of an object ([bool(x)]); an [Attr] defines neither
    [__bool__] nor [__len__], so it is always true. *)
Definition truthy (v : pyval) : bool :=
  match v with
  | VNone => false
  | VBool b => b
  | VInt z => negb (Z.eqb z 0)
  | VStr s => negb (String.eqb s "")
  | VList l => match l with [] => false | _ => true end
  | VDict d => match d with [] => false | _ => true end
  | VAttr _ _ _ => true
  | VPath _ => true
  | VUnset => true
  end.

(* ------------------------------------------------------------------ *)
(** ** Dictionaries: association lists in insertion order *)

Definition dict := list (string * pyval).

Fixpoint dict_get (k : string) (d : dict) : option pyval :=
  match d with
  | [] => None
  | (k', v) :: d' => if String.eqb k k' then Some v else dict_get k d'
  end.

Definition dict_mem (k : string) (d : dict) : bool :=
  match dict_get k d with Some _ => true | None => false end.

(** [d[k] = v]: an existing key keeps its position, a new one goes last. *)
Fixpoint dict_set (k : string) (v : pyval) (d : dict) : dict :=
  match d with
  | [] => [(k, v)]
  | (k', v') :: d' =>
      if String.eqb k k' then (k', v) :: d' else (k', v') :: dict_set k v d'
  end.

(** [del d[k]].  A Python dict holds a key once; the removal is written so
    that the key is absent afterwards whatever the list. *)
Fixpoint dict_remove (k : string) (d : dict) : dict :=
  match d with
  | [] => []
  | (k', v') :: d' =>
      if String.eqb k k' then dict_remove k d' else (k', v') :: dict_remove k d'
  end.

(** [comp in root] *)
Fixpoint is_substring (sub s : string) : bool :=
  String.prefix sub s ||
  match s with
  | EmptyString => false
  | String _ s' => is_substring sub s'
  end.

Definition contains (root : pyval) (comp : string) : result bool :=
  match root with
  | VDict d => Ok (dict_mem comp d)
  | VStr s => Ok (is_substring comp s)
  | VList l =>
      Ok (existsb (fun x => match x with VStr s => String.eqb s comp | _ => false end) l)
  | _ => Raise TypeError
  end.

(** [root.get(comp, default)]: only a dict has the method. *)
Definition py_get (root : pyval) (comp : string) (default : pyval) : result pyval :=
  match root with
  | VDict d => Ok (match dict_get comp d with Some v => v | None => default end)
  | _ => Raise AttributeError
  end.

(** [root[comp]] with a string subscript. *)
Definition py_getitem (root : pyval) (comp : string) : result pyval :=
  match root with
  | VDict d => match dict_get comp d with Some v => Ok v | None => Raise KeyError end
  | _ => Raise TypeError
  end.

(** [root[comp] = value] with a string subscript. *)
Definition py_setitem (root : pyval) (comp : string) (value : pyval) : result pyval :=
  match root with
  | VDict d => Ok (VDict (dict_set comp value d))
  | _ => Raise TypeError
  end.

(** [root.pop(comp)]: the popped value and the object afterwards. *)
Definition py_pop (root : pyval) (comp : string) : result (pyval * pyval) :=
  match root with
  | VDict d =>
      match dict_get comp d with
      | Some v => Ok (v, VDict (dict_remove comp d))
      | None => Raise KeyError
      end
  | VList _ => Raise TypeError
  | _ => Raise AttributeError
  end.

(** [x.value] *)
Definition attr_value (x : pyval) : result pyval :=
  match x with
  | VAttr v _ _ => Ok v
  | _ => Raise AttributeError
  end.

(** [Attr(value, source_type, source)], with the [__post_init__] guard. *)
Definition mkAttr (value : pyval) (source_type : Source) (source : option string)
  : result pyval :=
  if is_attr value then Raise RuntimeError else Ok (VAttr value source_type source).

(* ------------------------------------------------------------------ *)
(** ** Strings

    A [str] is held as the bytes of its UTF-8 encoding.  Searching, splitting
    and replacing with ASCII patterns act on the bytes as they act on the
    characters. *)

Definition char_lower (c : ascii) : ascii :=
  let n := nat_of_ascii c in
  if (65 <=? n)%nat && (n <=? 90)%nat then ascii_of_nat (n + 32) else c.

Definition is_ascii (c : ascii) : bool := (nat_of_ascii c <? 128)%nat.

Fixpoint all_ascii (s : string) : bool :=
  match s with
  | EmptyString => true
  | String c s' => is_ascii c && all_ascii s'
  end.

(** [s.lower()] on the ASCII range.  No character outside it lowers to an
    ASCII letter of ["true"], so comparisons with that literal agree. *)
Fixpoint py_lower (s : string) : string :=
  match s with
  | EmptyString => EmptyString
  | String c s' => String (char_lower c) (py_lower s')
  end.

(** [s.split(sep)] for a non-empty separator; [skip] counts the characters
    of a separator that are still to be passed over. *)
Fixpoint split_from (sep : string) (skip : nat) (s : string) : list string :=
  match s with
  | EmptyString => [""]
  | String c s' =>
      match skip with
      | S k => split_from sep k s'
      | O =>
          if String.prefix sep s then "" :: split_from sep (String.length sep - 1) s'
          else match split_from sep 0 s' with
               | piece :: rest => String c piece :: rest
               | [] => [String c ""]
               end
      end
  end.

Definition py_split (s sep : string) : result (list string) :=
  if String.eqb sep "" then Raise ValueError else Ok (split_from sep 0 s).

(** [s.replace(old, new[, count])] for a non-empty [old]. *)
Fixpoint replace_from (old new : string) (count : option nat) (skip : nat) (s : string)
  : string :=
  match s with
  | EmptyString => EmptyString
  | String c s' =>
      match skip with
      | S k => replace_from old new count k s'
      | O =>
          let allowed := match count with Some O => false | _ => true end in
          if allowed && String.prefix old s
          then new ++ replace_from old new (option_map Nat.pred count)
                        (String.length old - 1) s'
          else String c (replace_from old new count 0 s')
      end
  end.

Definition py_replace (s old new : string) (count : option nat) : string :=
  replace_from old new count 0 s.

(** The characters [str.isspace] accepts.  In ASCII: U+0009..U+000D,
    U+001C..U+0020. *)
Definition is_space (c : ascii) : bool :=
  let n := nat_of_ascii c in
  ((9 <=? n)%nat && (n <=? 13)%nat) || ((28 <=? n)%nat && (n <=? 32)%nat).

(** On two bytes: U+0085 and U+00A0. *)
Definition is_space2 (a b : ascii) : bool :=
  let x := nat_of_ascii a in
  let y := nat_of_ascii b in
  (x =? 194)%nat && ((y =? 133)%nat || (y =? 160)%nat).

(** On three bytes: U+1680, U+2000..U+200A, U+2028, U+2029, U+202F, U+205F
    and U+3000. *)
Definition is_space3 (a b c : ascii) : bool :=
  let x := nat_of_ascii a in
  let y := nat_of_ascii b in
  let z := nat_of_ascii c in
  ((x =? 225)%nat && (y =? 154)%nat && (z =? 128)%nat) ||
  ((x =? 226)%nat && (y =? 128)%nat &&
   (((128 <=? z)%nat && (z <=? 138)%nat) || (z =? 168)%nat || (z =? 169)%nat
    || (z =? 175)%nat)) ||
  ((x =? 226)%nat && (y =? 129)%nat && (z =? 159)%nat) ||
  ((x =? 227)%nat && (y =? 128)%nat && (z =? 128)%nat).

(** [s.lstrip()] *)
Fixpoint py_lstrip (s : string) : string :=
  match s with
  | EmptyString => EmptyString
  | String a s1 =>
      if is_space a then py_lstrip s1
      else
        match s1 with
        | EmptyString => s
        | String b s2 =>
            if is_space2 a b then py_lstrip s2
            else
              match s2 with
              | EmptyString => s
              | String c s3 => if is_space3 a b c then py_lstrip s3 else s
              end
        end
  end.

(** [s.rstrip()]: the text up to the place from which only whitespace
    follows. *)
Fixpoint py_rstrip (s : string) : string :=
  match s with
  | EmptyString => EmptyString
  | String c s' =>
      if String.eqb (py_lstrip s) "" then EmptyString else String c (py_rstrip s')
  end.

Definition py_strip (s : string) : string := py_rstrip (py_lstrip s).

Fixpoint join (sep : string) (l : list string) : string :=
  match l with
  | [] => ""
  | [x] => x
  | x :: rest => x ++ sep ++ join sep rest
  end.

Definition str_of_Z (z : Z) : string := NilZero.string_of_int (Z.to_int z).

(* ------------------------------------------------------------------ *)
(** ** The world outside the loader

    Library calls and the operating system are inputs of the model:
    [urlparse], [json.loads], [yaml.safe_load], [int], [repr] and [lower] on
    strings, the process environment, the file system, and the attempt to
    record an audit event ([authentik.events.models], imported inside
    [check_deprecations]).  Each answers with a value or with the exception
    the call raises for that input.  What the interpreter itself may refuse
    the loader's own calls (memory, depth of its own recursion) is outside
    the model. *)

Record Url : Type := mkUrl {
  scheme : string;
  netloc : string;
  url_path : string;
  query : string
}.

(** Outcome of [open(path, encoding="utf8")] followed by reading the file. *)
Inductive open_result : Type :=
| Opened (contents : string)
| PermissionDenied (msg : string)      (* PermissionError *)
| OpenFailed (msg : string)            (* any other OSError *)
| Undecodable                          (* the bytes are not UTF-8: UnicodeDecodeError *)
| InvalidName.                         (* a null character in the name: ValueError *)

(** Outcome of [yaml.safe_load] and of [json.loads] on a text. *)
Inductive load_result : Type :=
| Loaded (document : pyval)
| Malformed                            (* yaml.YAMLError, JSONDecodeError *)
| TooDeep.                             (* nesting beyond the recursion limit: RecursionError *)

(** Outcome of importing the event model and saving an event. *)
Inductive event_result : Type :=
| EventSaved
| EventImportError
| EventFailed (e : exn).

Inductive path_kind : Type := IsFile | IsDir | Missing.

Record World : Type := mkWorld {
  environ : list (string * string);            (* os.environ.items() *)
  urlparse : option string -> option Url;      (* None: ValueError *)
  open_file : string -> open_result;
  yaml_safe_load : string -> load_result;
  json_loads : string -> load_result;
  int_of_str : string -> option Z;             (* None: ValueError *)
  int_error : string -> string;                (* str(exc) of that ValueError *)
  lower_wide : string -> string;               (* s.lower() when s is not all ASCII *)
  repr_str : string -> string;                 (* repr of a str *)
  event_save : string -> event_result;
  config_d : list string;                      (* glob("/etc/authentik/config.d/*.yml") *)
  absolute : string -> string;                 (* base_dir / path when relative *)
  path_join : string -> string -> string;      (* path / Path(name) *)
  kind_of : string -> path_kind
}.

(** One line printed by [ConfigLoader.log]; the timestamp is left out. *)
Record LogRecord : Type := mkLog {
  level : string;
  event : string;
  kwargs : list (string * pyval)
}.

(** The loader object: [self.__config] and what it has printed to stderr. *)
Record State : Type := mkState {
  config : pyval;
  logs : list LogRecord
}.

Definition M (A : Type) : Type := State -> result A * State.

Definition ret {A : Type} (a : A) : M A := fun st => (Ok a, st).

Definition bind {A B : Type} (m : M A) (k : A -> M B) : M B :=
  fun st =>
    match m st with
    | (Ok a, st') => k a st'
    | (Raise e, st') => (Raise e, st')
    end.

Declare Scope loader_scope.
Delimit Scope loader_scope with M.
Notation "x <- m ;; k" := (bind m (fun x => k))
  (at level 61, m at next level, right associativity) : loader_scope.
Notation "m ;; k" := (bind m (fun _ => k))
  (at level 61, right associativity) : loader_scope.

Definition SEARCH_PATHS (W : World) : list string :=
  ["authentik/lib/default.yml"; "/etc/authentik/config.yml"; ""] ++ config_d W.

Definition ENV_PREFIX : string := "AUTHENTIK".

Definition DEPRECATIONS : list (string * string) :=
  [ ("geoip", "events.context_processors.geoip");
    ("redis.broker_url", "broker.url");
    ("redis.broker_transport_options", "broker.transport_options");
    ("redis.cache_timeout", "cache.timeout");
    ("redis.cache_timeout_flows", "cache.timeout_flows");
    ("redis.cache_timeout_policies", "cache.timeout_policies");
    ("redis.cache_timeout_reputation", "cache.timeout_reputation") ].

(* ------------------------------------------------------------------ *)
(** ** Path accessors *)

(** The loop of [get_path_from_dict] over the components of the path. *)
Fixpoint get_path_walk (root : pyval) (comps : list string) (default : pyval)
  : result pyval :=
  match comps with
  | [] => Ok root
  | comp :: rest =>
      if truthy root then
        (b <- contains root comp ;;
         if b then (child <- py_get root comp VNone ;;
                    get_path_walk child rest default)
         else Ok default)%res
      else Ok default
  end.

Definition get_path_from_dict (root : pyval) (path sep : string) (default : pyval)
  : result pyval :=
  (comps <- py_split path sep ;; get_path_walk root comps default)%res.

(** The loop of [set_path_in_dict] over [path_parts[:-1]], then the final
    assignment to [path_parts[-1]].  [root.get(comp, {})] is an alias of the
    object stored under [comp], so what the rest of the walk does to it is
    written back there. *)
Fixpoint set_path_walk (root : pyval) (init : list string) (last : string)
    (value : pyval) : result pyval :=
  match init with
  | [] => py_setitem root last value
  | comp :: rest =>
      (b <- contains root comp ;;
       root1 <- (if b then Ok root else py_setitem root comp (VDict [])) ;;
       child <- py_get root1 comp (VDict []) ;;
       child' <- set_path_walk child rest last value ;;
       py_setitem root1 comp child')%res
  end.

Definition set_path_in_dict (root : pyval) (path : string) (value : pyval) (sep : string)
  : result pyval :=
  (path_parts <- py_split path sep ;;
   set_path_walk root (removelast path_parts) (List.last path_parts "") value)%res.

(** What [json.dumps] accepts with the default encoder. *)
Fixpoint json_serializable (v : pyval) : bool :=
  match v with
  | VNone | VBool _ | VInt _ | VStr _ => true
  | VList l => forallb json_serializable l
  | VDict d => forallb (fun kv => json_serializable (snd kv)) d
  | VAttr _ _ _ | VPath _ | VUnset => false
  end.

Definition emit (lg : list LogRecord) (lvl message : string) : list LogRecord :=
  (lg ++ [mkLog lvl message []])%list.

(** [ConfigLoader.log]: the record is built, serialised with [dumps] (which
    raises [TypeError] on an object it cannot encode) and only then printed. *)
Definition log (lvl message : string) (kw : list (string * pyval)) : M unit :=
  fun st =>
    if forallb (fun kv => json_serializable (snd kv)) kw
    then (Ok tt, mkState (config st) (logs st ++ [mkLog lvl message kw])%list)
    else (Raise TypeError, st).

Definition str_or_none (o : option string) : pyval :=
  match o with Some s => VStr s | None => VNone end.

Definition repr_Source (s : Source) : string :=
  match s with
  | UNSPECIFIED => "<Source.UNSPECIFIED: 'unspecified'>"
  | ENV => "<Source.ENV: 'env'>"
  | CONFIG_FILE => "<Source.CONFIG_FILE: 'config_file'>"
  | URI => "<Source.URI: 'uri'>"
  end.

(** Object written back at the key an alias was taken from. *)
Definition store_back (root : pyval) (key : string) (child : pyval) : pyval :=
  match root with
  | VDict d => if dict_mem key d then VDict (dict_set key child d) else root
  | _ => root
  end.

(** The node at [comps] replaced, along a chain of dicts. *)
Fixpoint write_back (root : pyval) (comps : list string) (node : pyval) : pyval :=
  match comps with
  | [] => node
  | c :: rest =>
      match root with
      | VDict d =>
          match dict_get c d with
          | Some child => VDict (dict_set c (write_back child rest node) d)
          | None => root
          end
      | _ => root
      end
  end.

(** [_pop_deprecated_key(current_obj, dot_parts, index)] on the suffix
    [dot_parts[index:]]: the popped value and [current_obj] afterwards. *)
Fixpoint pop_deprecated_key (current_obj : pyval) (dot_parts : list string)
  : result (pyval * pyval) :=
  match dot_parts with
  | [] => Raise IndexError
  | dot_part :: rest =>
      match rest with
      | [] => py_pop current_obj dot_part
      | _ :: _ =>
          (child <- py_getitem current_obj dot_part ;;
           popped <- pop_deprecated_key child rest ;;
           let current1 := store_back current_obj dot_part (snd popped) in
           probe <- py_getitem current1 dot_part ;;
           if negb (truthy probe)
           then (gone <- py_pop current1 dot_part ;; Ok (fst popped, snd gone))
           else Ok (fst popped, current1))%res
      end
  end.

Definition deprecation_message (deprecation replacement : string) : string :=
  "'" ++ deprecation ++ "' has been deprecated in favor of '" ++ replacement
  ++ "'! " ++ "Please update your configuration.".

(** [s.lower()].  Letters outside ASCII are lowered by the interpreter's
    character tables. *)
Definition str_lower (W : World) (s : string) : string :=
  if all_ascii s then py_lower s else lower_wide W s.

Definition relative_key_of (W : World) (key : string) : string :=
  str_lower W (py_replace (py_replace key (ENV_PREFIX ++ "_") "" (Some 1)) "__" "." None).

Definition fspath (path : pyval) : result string :=
  match path with
  | VStr s | VPath s => Ok s
  | _ => Raise TypeError
  end.

Section Loader.

Variable W : World.

(** [repr(v)] and [str(v)] *)
Fixpoint py_repr (v : pyval) : string :=
  match v with
  | VNone => "None"
  | VBool b => if b then "True" else "False"
  | VInt z => str_of_Z z
  | VStr s => repr_str W s
  | VList l => "[" ++ join ", " (map py_repr l) ++ "]"
  | VDict d =>
      "{" ++ join ", " (map (fun kv => repr_str W (fst kv) ++ ": " ++ py_repr (snd kv)) d)
      ++ "}"
  | VAttr x st src =>
      "Attr(value=" ++ py_repr x ++ ", source_type=" ++ repr_Source st ++ ", source="
      ++ match src with Some s => repr_str W s | None => "None" end ++ ")"
  | VPath p => "PosixPath(" ++ repr_str W p ++ ")"
  | VUnset => "<class 'authentik.lib.config.UNSET'>"
  end.

Definition py_str (v : pyval) : string :=
  match v with
  | VStr s => s
  | VPath p => p
  | _ => py_repr v
  end.

(** [int(v)] *)
Definition py_int (v : pyval) : result Z :=
  match v with
  | VInt z => Ok z
  | VBool b => Ok (if b then 1%Z else 0%Z)
  | VStr s => match int_of_str W s with Some z => Ok z | None => Raise ValueError end
  | _ => Raise TypeError
  end.

(** [str(exc)] of the [ValueError] raised by [int(v)]; only a string makes
    [int] raise it. *)
Definition int_error_message (v : pyval) : string :=
  match v with
  | VStr s => int_error W s
  | _ => ""
  end.

(** [os.getenv(name, default)] *)
Fixpoint lookup_env (name : string) (env : list (string * string)) : option string :=
  match env with
  | [] => None
  | (k, v) :: env' => if String.eqb name k then Some v else lookup_env name env'
  end.

Definition getenv (name default : string) : string :=
  match lookup_env name (environ W) with Some v => v | None => default end.

(** [ConfigLoader.parse_uri]; the log lines it prints are appended to [lg]. *)
Definition parse_uri (value : option string) (lg : list LogRecord)
  : result pyval * list LogRecord :=
  match urlparse W value with
  | None => (Raise ValueError, lg)
  | Some url =>
      let parsed_value := str_or_none value in
      let parsed_value :=
        if String.eqb (scheme url) "env" then VStr (getenv (netloc url) (query url))
        else parsed_value in
      if String.eqb (scheme url) "file" then
        match open_file W (url_path url) with
        | Opened contents => (Ok (VAttr (VStr (py_strip contents)) URI value), lg)
        | PermissionDenied msg | OpenFailed msg =>
            (Ok (VAttr (VStr (query url)) URI value),
             emit lg "error"
               ("Failed to read config value from " ++ url_path url ++ ": " ++ msg))
        | Undecodable => (Raise UnicodeDecodeError, lg)
        | InvalidName => (Raise ValueError, lg)
        end
      else (Ok (VAttr parsed_value URI value), lg)
  end.

(** The non-mapping branch of [update]: the cell stored for [value]. *)
Definition resolve (value : pyval) (lg : list LogRecord)
  : result pyval * list LogRecord :=
  match value with
  | VStr s => parse_uri (Some s) lg
  | VAttr (VStr s) _ _ => parse_uri (Some s) lg
  | VAttr _ _ _ => (Ok value, lg)
  | _ => (Ok (VAttr value UNSPECIFIED None), lg)
  end.

(** [ConfigLoader.update(root, updatee)].  [root] is mutated in place, so the
    object as it is when the call ends is returned also when it raises. *)
Fixpoint update (root updatee : pyval) (lg : list LogRecord) {struct updatee}
  : result unit * pyval * list LogRecord :=
  match updatee with
  | VDict items =>
      (fix loop (items : list (string * pyval)) (root : pyval) (lg : list LogRecord)
         {struct items} : result unit * pyval * list LogRecord :=
         match items with
         | [] => (Ok tt, root, lg)
         | (key, value) :: rest =>
             match value with
             | VDict _ =>
                 match py_get root key (VDict []) with
                 | Raise e => (Raise e, root, lg)
                 | Ok child =>
                     let '(r, child', lg') := update child value lg in
                     match r with
                     | Raise e => (Raise e, store_back root key child', lg')
                     | Ok _ =>
                         match py_setitem root key child' with
                         | Raise e => (Raise e, root, lg')
                         | Ok root' => loop rest root' lg'
                         end
                     end
                 end
             | _ =>
                 match resolve value lg with
                 | (Raise e, lg') => (Raise e, root, lg')
                 | (Ok cell, lg') =>
                     match py_setitem root key cell with
                     | Raise e => (Raise e, root, lg')
                     | Ok root' => loop rest root' lg'
                     end
                 end
             end
         end) items root lg
  | _ => (Raise AttributeError, root, lg)
  end.

(** [self.update(self.__config, updatee)] *)
Definition update_config (updatee : pyval) : M unit :=
  fun st =>
    let '(r, root', lg') := update (config st) updatee (logs st) in
    (r, mkState root' lg').

(** [ConfigLoader.get] *)
Definition get (path : string) (default : pyval) (sep : string) (st : State)
  : result pyval :=
  (dflt <- mkAttr default UNSPECIFIED None ;;
   attr <- get_path_from_dict (config st) path sep dflt ;;
   attr_value attr)%res.

(** [ConfigLoader.set].  [set_path_in_dict] raises before it has changed
    anything: a key is only created in a dict, and below a created key every
    node is a fresh dict, so the tree is as it was when the call raises. *)
Definition set (path : string) (value : pyval) (sep : string) : M unit :=
  fun st =>
    match (cell <- mkAttr value UNSPECIFIED None ;;
           set_path_in_dict (config st) path cell sep)%res with
    | Ok root' => (Ok tt, mkState root' (logs st))
    | Raise e => (Raise e, st)
    end.

(** [ConfigLoader.get_int] *)
Definition get_int (path : string) (default : pyval) : M pyval :=
  fun st =>
    match get path default "." st with
    | Raise ValueError =>
        (log "warning" "Failed to parse config as int"
           [("path", VStr path); ("exc", VStr "empty separator")] ;; ret default)%M st
    | Raise e => (Raise e, st)
    | Ok v =>
        match py_int v with
        | Ok z => (Ok (VInt z), st)
        | Raise ValueError =>
            (log "warning" "Failed to parse config as int"
               [("path", VStr path); ("exc", VStr (int_error_message v))] ;;
             ret default)%M st
        | Raise e => (Raise e, st)
        end
    end.

(** [ConfigLoader.get_bool] *)
Definition get_bool (path : string) (default : pyval) (st : State) : result bool :=
  (v <- get path default "." st ;;
   Ok (String.eqb (py_lower (py_str v)) "true"))%res.

(** [ConfigLoader.refresh] *)
Definition refresh (key : string) : M unit :=
  fun st =>
    match get_path_from_dict (config st) key "." VNone with
    | Raise e => (Raise e, st)
    | Ok (VAttr v st_ty src) =>
        if negb (Source_eqb st_ty URI) then (Ok tt, st)
        else
          match parse_uri src (logs st) with
          | (Raise e, lg') => (Raise e, mkState (config st) lg')
          | (Ok fresh, lg') =>
              match attr_value fresh, py_split key "." with
              | Ok v', Ok comps =>
                  (Ok tt, mkState (write_back (config st) comps (VAttr v' st_ty src)) lg')
              | Raise e, _ | _, Raise e => (Raise e, mkState (config st) lg')
              end
          end
    | Ok _ => (Raise AttributeError, st)
    end.

(** [ConfigLoader.update_from_file] *)
Definition update_from_file (path : pyval) : M unit :=
  fun st =>
    match fspath path with
    | Raise e => (Raise e, st)
    | Ok name =>
        match open_file W name with
        | Opened contents =>
            match yaml_safe_load W contents with
            | Malformed => (Raise ImproperlyConfigured, st)
            | TooDeep => (Raise RecursionError, st)
            | Loaded document =>
                (update_config document ;;
                 log "debug" "Loaded config" [("file", VStr (py_str path))])%M st
            end
        | PermissionDenied msg =>
            log "warning" "Permission denied while reading file"
              [("path", path); ("error", VStr msg)] st
        | OpenFailed _ => (Raise OSError, st)
        | Undecodable => (Raise UnicodeDecodeError, st)
        | InvalidName => (Raise ValueError, st)
        end
    end.

(** [try: value = loads(value)] with [except JSONDecodeError: pass]. *)
Definition loads_or_keep (value : string) : result pyval :=
  match json_loads W value with
  | Loaded v => Ok v
  | Malformed => Ok (VStr value)
  | TooDeep => Raise RecursionError
  end.

(** The loop of [update_from_env]: the sub-tree [outer] and the count [idx]. *)
Fixpoint ingest_env (env : list (string * string)) (outer : pyval) (idx : Z)
  : result (pyval * Z) :=
  match env with
  | [] => Ok (outer, idx)
  | (key, value) :: rest =>
      if negb (String.prefix ENV_PREFIX key) then ingest_env rest outer idx
      else
        let relative_key := relative_key_of W key in
        (value <- loads_or_keep value ;;
         attr_value <- mkAttr value ENV (Some relative_key) ;;
         outer' <- set_path_in_dict outer relative_key attr_value "." ;;
         ingest_env rest outer' (idx + 1)%Z)%res
  end.

(** [ConfigLoader.update_from_env] *)
Definition update_from_env : M unit :=
  fun st =>
    match ingest_env (environ W) (VDict []) 0%Z with
    | Raise e => (Raise e, st)
    | Ok (outer, idx) =>
        if (0 <? idx)%Z then
          (log "debug" "Loaded environment variables" [("count", VInt idx)] ;;
           update_config outer)%M st
        else (Ok tt, st)
    end.

(** One turn of the loop of [check_deprecations]. *)
Definition check_deprecation (deprecation replacement : string) : M unit :=
  fun st =>
    match get deprecation VUnset "." st with
    | Raise e => (Raise e, st)
    | Ok found =>
        if is_unset found then (Ok tt, st)
        else
          let message := deprecation_message deprecation replacement in
          (log "warning" message [] ;;
           fun st1 =>
             match event_save W message with
             | EventImportError => (Ok tt, st1)               (* continue *)
             | EventFailed e => (Raise e, st1)
             | EventSaved =>
                 match (parts <- py_split deprecation "." ;;
                        pop_deprecated_key (config st1) parts)%res with
                 | Raise e => (Raise e, st1)
                 | Ok (deprecated_attr, root') =>
                     let st2 := mkState root' (logs st1) in
                     match attr_value deprecated_attr with
                     | Raise e => (Raise e, st2)
                     | Ok v => set replacement v "." st2
                     end
                 end
             end)%M st
    end.

Fixpoint check_deprecations_in (table : list (string * string)) : M unit :=
  match table with
  | [] => ret tt
  | (deprecation, replacement) :: rest =>
      (check_deprecation deprecation replacement ;; check_deprecations_in rest)%M
  end.

(** [ConfigLoader.check_deprecations] *)
Definition check_deprecations : M unit := check_deprecations_in DEPRECATIONS.

(** [ConfigLoader.patch] around a [with] body: the generator runs up to the
    [yield], the body runs, and the [finally] clause runs whether the body
    returned or raised; an exception raised by the [finally] clause itself
    replaces the outcome of the body. *)
Definition patch (path : string) (value : pyval) (body : M unit) : M unit :=
  fun st =>
    match get path VNone "." st with
    | Raise e => (Raise e, st)
    | Ok original_value =>
        match set path value "." st with
        | (Raise e, st1) => (Raise e, st1)
        | (Ok _, st1) =>
            let '(outcome, st2) := body st1 in
            match set path original_value "." st2 with
            | (Raise e, st3) => (Raise e, st3)
            | (Ok _, st3) => (outcome, st3)
            end
        end
    end.

(** [ENVIRONMENT] *)
Definition ENVIRONMENT : string := getenv (ENV_PREFIX ++ "_ENV") "local".

Fixpoint load_env_files (files : list string) : M unit :=
  match files with
  | [] => ret tt
  | env_file :: rest =>
      ((match kind_of W env_file with
        | IsFile => update_from_file (VPath env_file)
        | _ => ret tt
        end) ;; load_env_files rest)%M
  end.

Fixpoint load_search_paths (paths : list string) : M unit :=
  match paths with
  | [] => ret tt
  | _path :: rest =>
      let path := absolute W _path in
      ((match kind_of W path with
        | IsFile => update_from_file (VPath path)
        | IsDir =>
            load_env_files
              (map (path_join W path)
                 [ENVIRONMENT ++ ".yml"; ENVIRONMENT ++ ".env.yml";
                  ENVIRONMENT ++ ".yaml"; ENVIRONMENT ++ ".env.yaml"])
        | Missing => ret tt
        end) ;; load_search_paths rest)%M
  end.

(** Everything [ConfigLoader.__init__] merges before the deprecation check. *)
Definition load_sources (kw : pyval) : M unit :=
  (load_search_paths (SEARCH_PATHS W) ;;
   update_from_env ;;
   update_config kw)%M.

(** [ConfigLoader.__init__] with keyword arguments [kw], from the empty tree. *)
Definition ConfigLoader_init (kw : pyval) : result unit * State :=
  (load_sources kw ;; check_deprecations)%M (mkState (VDict []) []).

End Loader.

(* ------------------------------------------------------------------ *)
(** ** Vocabulary of the properties *)

(** Two component lists part ways at some position (neither continues the
    other). *)
Fixpoint diverge (p q : list string) : bool :=
  match p, q with
  | a :: p', b :: q' => if String.eqb a b then diverge p' q' else true
  | _, _ => false
  end.

(** [q] is an initial segment of [p] (possibly all of it). *)
Fixpoint is_prefix (q p : list string) : bool :=
  match q, p with
  | [], _ => true
  | a :: q', b :: p' => String.eqb a b && is_prefix q' p'
  | _ :: _, [] => false
  end.

Definition proper_prefix (q p : list string) : bool :=
  is_prefix q p && (length q <? length p)%nat.

Fixpoint no_dup_keys (ks : list string) : bool :=
  match ks with
  | [] => true
  | k :: ks' => negb (existsb (String.eqb k) ks') && no_dup_keys ks'
  end.

(** Keys within one mapping level are unique, at every level. *)
Fixpoint unique_keys (v : pyval) : bool :=
  match v with
  | VDict d => no_dup_keys (map fst d) && forallb (fun kv => unique_keys (snd kv)) d
  | _ => true
  end.

(** The Config Tree invariant: every leaf is a value cell that does not wrap
    another cell, every other node is a mapping. *)
Fixpoint config_tree (v : pyval) : bool :=
  match v with
  | VDict d => forallb (fun kv => config_tree (snd kv)) d
  | VAttr x _ _ => negb (is_attr x)
  | _ => false
  end.

(** The non-mapping value a source mapping defines at a path, if any. *)
Fixpoint leaf_of (src : pyval) (cs : list string) : option pyval :=
  match cs with
  | [] => if is_dict src then None else Some src
  | c :: rest =>
      match src with
      | VDict d => match dict_get c d with Some v => leaf_of v rest | None => None end
      | _ => None
      end
  end.

(** The path leaves the source mapping at a key the source does not have. *)
Fixpoint untouched (src : pyval) (cs : list string) : bool :=
  match src, cs with
  | VDict d, c :: rest =>
      match dict_get c d with None => true | Some v => untouched v rest end
  | _, _ => false
  end.

(** The node a path addresses, walking mappings only. *)
Inductive addresses : pyval -> list string -> pyval -> Prop :=
| addresses_here : forall root, addresses root [] root
| addresses_step : forall d c child cs node,
    dict_get c d = Some child ->
    addresses child cs node ->
    addresses (VDict d) (c :: cs) node.

(** [set_path_in_dict] can walk [init]: every node it meets is a mapping. *)
Fixpoint settable (root : pyval) (init : list string) : bool :=
  match root with
  | VDict d =>
      match init with
      | [] => true
      | c :: rest =>
          match dict_get c d with
          | None => true
          | Some child => settable child rest
          end
      end
  | _ => false
  end.

(** Equality of strings up to the case of ASCII letters. *)
Fixpoint caseless_eq (a b : string) : bool :=
  match a, b with
  | EmptyString, EmptyString => true
  | String x a', String y b' => Ascii.eqb (char_lower x) (char_lower y) && caseless_eq a' b'
  | _, _ => false
  end.

(** Induction on values through the lists and mappings they contain. *)
Section pyval_induction.

Variable P : pyval -> Prop.
Hypothesis HNone : P VNone.
Hypothesis HBool : forall b, P (VBool b).
Hypothesis HInt : forall z, P (VInt z).
Hypothesis HStr : forall s, P (VStr s).
Hypothesis HList : forall l, Forall P l -> P (VList l).
Hypothesis HDict : forall d, Forall (fun kv => P (snd kv)) d -> P (VDict d).
Hypothesis HAttr : forall x st src, P x -> P (VAttr x st src).
Hypothesis HPath : forall p, P (VPath p).
Hypothesis HUnset : P VUnset.

Fixpoint pyval_nested_ind (v : pyval) : P v :=
  match v with
  | VNone => HNone
  | VBool b => HBool b
  | VInt z => HInt z
  | VStr s => HStr s
  | VList l =>
      HList l ((fix all (l : list pyval) : Forall P l :=
                match l with
                | [] => @Forall_nil _ P
                | x :: l' => @Forall_cons _ P x l' (pyval_nested_ind x) (all l')
                end) l)
  | VDict d =>
      HDict d ((fix all (d : list (string * pyval)) : Forall (fun kv => P (snd kv)) d :=
                match d with
                | [] => @Forall_nil _ _
                | kv :: d' =>
                    @Forall_cons _ (fun kv => P (snd kv)) kv d'
                      (pyval_nested_ind (snd kv)) (all d')
                end) d)
  | VAttr x st src => HAttr x st src (pyval_nested_ind x)
  | VPath p => HPath p
  | VUnset => HUnset
  end.

End pyval_induction.

(** The loop of [update] over [updatee.items()], as a function of its own. *)
Fixpoint update_items (W : World) (items : list (string * pyval)) (root : pyval)
    (lg : list LogRecord) : result unit * pyval * list LogRecord :=
  match items with
  | [] => (Ok tt, root, lg)
  | (key, value) :: rest =>
      match value with
      | VDict _ =>
          match py_get root key (VDict []) with
          | Raise e => (Raise e, root, lg)
          | Ok child =>
              let '(r, child', lg') := update W child value lg in
              match r with
              | Raise e => (Raise e, store_back root key child', lg')
              | Ok _ =>
                  match py_setitem root key child' with
                  | Raise e => (Raise e, root, lg')
                  | Ok root' => update_items W rest root' lg'
                  end
              end
          end
      | _ =>
          match resolve W value lg with
          | (Raise e, lg') => (Raise e, root, lg')
          | (Ok cell, lg') =>
              match py_setitem root key cell with
              | Raise e => (Raise e, root, lg')
              | Ok root' => update_items W rest root' lg'
              end
          end
      end
  end.

(** [path.split(".")] *)
Definition dot_parts (path : string) : list string := split_from "." 0 path.

(** What the migration of one entry of the deprecation table leaves behind,
    [v] being the value [get] returned for the old path before. *)
Definition migrated (st' : State) (old new : string) (v : pyval) : Prop :=
  get old VUnset "." st' = Ok VUnset /\
  (forall q, q <> [] -> proper_prefix q (dot_parts old) = true ->
             get_path_walk (config st') q VUnset <> Ok (VDict [])) /\
  In (mkLog "warning" (deprecation_message old new) []) (logs st') /\
  get new VNone "." st' = Ok v.

(** The deprecation migration as the specification words it: every entry of
    the table whose old path held a value has been migrated. *)
Definition deprecations_migrated (st st' : State) : Prop :=
  forall old new v,
    In (old, new) DEPRECATIONS ->
    get old VUnset "." st = Ok v ->
    v <> VUnset ->
    migrated st' old new v.

Fixpoint proper_inits (p : list string) : list (list string) :=
  match p with
  | [] => []
  | a :: p' => [] :: map (cons a) (proper_inits p')
  end.

(** Migrating the entry [e'] leaves alone what the migration of [e] left. *)
Definition independent (e e' : string * string) : bool :=
  let o := dot_parts (fst e) in
  let n := dot_parts (snd e) in
  let o' := dot_parts (fst e') in
  let n' := dot_parts (snd e') in
  diverge o' o && diverge n' o && diverge o' n && diverge n' n &&
  forallb (fun q => match q with
                    | [] => true
                    | _ => diverge n' q && (diverge o' q || proper_prefix q o')
                    end) (proper_inits o).

(** ** Sample worlds and trees *)

(** [urlparse] of a string without a scheme. *)
Definition literal_url (value : option string) : option Url :=
  Some (mkUrl "" "" (match value with Some s => s | None => "" end) "").

(** The message of [int] on a text that is no number. *)
Definition literal_int_error (s : string) : string :=
  "invalid literal for int() with base 10: '" ++ s ++ "'".

(** A host with no environment, no readable file, and a working event model. *)
Definition bare_world : World :=
  mkWorld [] literal_url (fun _ => OpenFailed "No such file or directory")
    (fun _ => Malformed) (fun _ => Malformed) (fun _ => None)
    literal_int_error (fun s => s)
    (fun s => "'" ++ s ++ "'") (fun _ => EventSaved)
    [] (fun p => p) (fun a b => a ++ "/" ++ b) (fun _ => Missing).

(** The same host while the event model cannot be imported. *)
Definition world_without_events : World :=
  mkWorld [] literal_url (fun _ => OpenFailed "No such file or directory")
    (fun _ => Malformed) (fun _ => Malformed) (fun _ => None)
    literal_int_error (fun s => s)
    (fun s => "'" ++ s ++ "'") (fun _ => EventImportError)
    [] (fun p => p) (fun a b => a ++ "/" ++ b) (fun _ => Missing).

(** A host on which every file is there but may not be read. *)
Definition world_unreadable : World :=
  mkWorld [] literal_url (fun _ => PermissionDenied "[Errno 13] Permission denied")
    (fun _ => Malformed) (fun _ => Malformed) (fun _ => None)
    literal_int_error (fun s => s)
    (fun s => "'" ++ s ++ "'") (fun _ => EventSaved)
    [] (fun p => p) (fun a b => a ++ "/" ++ b) (fun _ => IsFile).

Definition cell (v : pyval) : pyval := VAttr v UNSPECIFIED None.

Definition tree_with_geoip : State :=
  mkState (VDict [("geoip", VAttr (VStr "/geoip/City.mmdb") URI (Some "/geoip/City.mmdb"))]) [].

Definition tree_with_redis : State :=
  mkState
    (VDict [("redis",
             VDict [("host", VAttr (VStr "redis") URI (Some "redis"));
                    ("broker_url", VAttr (VStr "redis://r/1") ENV (Some "redis.broker_url"))]);
            ("debug", cell (VBool true));
            ("workers", cell VNone)])
    [].

(** [get_bool] as the specification words it: true exactly on a string form
    equal to ["true"] up to case, and false on every value that is not a
    string. *)
Definition get_bool_as_specified (W : World) : Prop :=
  forall st path default v,
    get path default "." st = Ok v ->
    (get_bool W path default st = Ok true <-> caseless_eq (py_str W v) "true" = true) /\
    (is_str v = false -> get_bool W path default st = Ok false).

(** Values whose string form starts with a character that no spelling of
    ["true"] starts with. *)
Definition never_reads_true (v : pyval) : bool :=
  match v with
  | VNone | VBool false | VInt _ | VList _ | VDict _ | VAttr _ _ _ | VUnset => true
  | VBool true | VStr _ | VPath _ => false
  end.

(** Types [int] refuses with [TypeError]. *)
Definition int_rejects_type (v : pyval) : bool :=
  match v with
  | VInt _ | VBool _ | VStr _ => false
  | _ => true
  end.

(** Two sources as [yaml.safe_load] returns them. *)
Definition default_yml : pyval :=
  VDict [("log_level", VStr "info");
         ("postgresql", VDict [("host", VStr "localhost"); ("port", VInt 5432)])].

Definition local_yml : pyval :=
  VDict [("postgresql", VDict [("host", VStr "db")]); ("log_level", VStr "debug")].

Definition after_default_yml : pyval * list LogRecord :=
  let '(_, root, lg) := update bare_world (VDict []) default_yml [] in (root, lg).

Definition after_local_yml : pyval * list LogRecord :=
  let '(_, root, lg) :=
    update bare_world (fst after_default_yml) local_yml (snd after_default_yml) in
  (root, lg).

(** A host with two prefixed environment variables; [json.loads] accepts the
    second value only. *)
Definition world_with_env : World :=
  mkWorld [("AUTHENTIK_POSTGRESQL__HOST", "localhost"); ("HOME", "/root");
           ("AUTHENTIK_WEB__WORKERS", "2")]
    literal_url (fun _ => OpenFailed "No such file or directory")
    (fun _ => Malformed)
    (fun s => if String.eqb s "2" then Loaded (VInt 2) else Malformed)
    (fun _ => None)
    literal_int_error (fun s => s)
    (fun s => "'" ++ s ++ "'") (fun _ => EventSaved)
    [] (fun p => p) (fun a b => a ++ "/" ++ b) (fun _ => Missing).

(** Environment provenance as the specification words it: the cell stored
    at the dotted path of every prefixed variable has origin [ENV] and that
    path as detail. *)
Definition env_provenance_kept (W : World) (st' : State) : Prop :=
  forall key raw,
    In (key, raw) (environ W) ->
    String.prefix ENV_PREFIX key = true ->
    exists v,
      get_path_from_dict (config st') (relative_key_of W key) "." VNone
      = Ok (VAttr v ENV (Some (relative_key_of W key))).

(** The value [update_from_env] wraps for a raw environment string. *)
Definition ingested_value (W : World) (raw : string) : pyval :=
  match json_loads W raw with Loaded v => v | _ => VStr raw end.

(** A [with] body that raises, and one that sets another key. *)
Definition failing_body : M unit := fun st => (Raise RuntimeError, st).

Definition busy_body : M unit := set "debug" (VBool false) ".".

(** A [with] body that puts a value where the tree had the mapping [redis]. *)
Definition clobbering_body : M unit := set "redis" (VInt 1) ".".

(** The scoped patch as the specification words it: whatever the value and
    the body, after the block [get] returns what it returned before. *)
Definition patch_restores_as_specified : Prop :=
  forall path value body st x,
    get path VNone "." st = Ok x ->
    get path VNone "." (snd (patch path value body st)) = Ok x.

(** ** The rest of the loader *)

(** [dict.update(other)] for a mapping [other]: key by key, in its order. *)
Fixpoint dict_update (d : dict) (other : list (string * pyval)) : dict :=
  match other with
  | [] => d
  | (k, v) :: rest => dict_update (dict_set k v d) rest
  end.

(** [ConfigLoader.update_from_dict], for the mapping its signature asks for:
    a shallow [dict.update] of [self.__config], nothing is wrapped. *)
Definition update_from_dict (update : list (string * pyval)) : M unit :=
  fun st =>
    match config st with
    | VDict d => (Ok tt, mkState (VDict (dict_update d update)) (logs st))
    | _ => (Raise AttributeError, st)
    end.

(** [AttrEncoder.default] *)
Definition AttrEncoder_default (o : pyval) : result pyval :=
  match o with
  | VAttr v _ _ => Ok v
  | _ => Raise TypeError
  end.

(** The data [dumps(..., cls=AttrEncoder)] writes for an object: what the
    JSON encoder knows is kept, lists and mappings are walked, and any other
    object is replaced by what [AttrEncoder.default] returns for it (the
    value of a cell, encoded in turn; [TypeError] otherwise). *)
Fixpoint json_data (v : pyval) : result pyval :=
  match v with
  | VNone | VBool _ | VInt _ | VStr _ => Ok v
  | VList l =>
      (ys <- (fix each (l : list pyval) : result (list pyval) :=
                match l with
                | [] => Ok []
                | x :: l' => (y <- json_data x ;; ys <- each l' ;; Ok (y :: ys))%res
                end) l ;;
       Ok (VList ys))%res
  | VDict d =>
      (ys <- (fix each (d : list (string * pyval)) : result (list (string * pyval)) :=
                match d with
                | [] => Ok []
                | (k, x) :: d' => (y <- json_data x ;; ys <- each d' ;; Ok ((k, y) :: ys))%res
                end) d ;;
       Ok (VDict ys))%res
  | VAttr x _ _ => json_data x
  | VPath _ | VUnset => Raise TypeError
  end.

(** The loop of [json_data] over the items of a mapping. *)
Fixpoint json_items (d : list (string * pyval)) : result (list (string * pyval)) :=
  match d with
  | [] => Ok []
  | (k, x) :: d' => (y <- json_data x ;; ys <- json_items d' ;; Ok ((k, y) :: ys))%res
  end.

(** What the script prints when run as [__main__]: the whole tree as JSON
    data with no argument, else [str] of [CONFIG.get(argv[1])]. *)
Definition main (W : World) (argv : list string) (st : State) : result (pyval + string) :=
  match argv with
  | _ :: path :: _ => (v <- get path VNone "." st ;; Ok (inr (py_str W v)))%res
  | _ => (data <- json_data (config st) ;; Ok (inl data))%res
  end.

(** [s.lstrip(c)] and [s.rstrip(c)] for one character [c]. *)
Fixpoint lstrip_char (c : ascii) (s : string) : string :=
  match s with
  | EmptyString => EmptyString
  | String a s' => if Ascii.eqb a c then lstrip_char c s' else s
  end.

Fixpoint rstrip_char (c : ascii) (s : string) : string :=
  match s with
  | EmptyString => EmptyString
  | String a s' =>
      let r := rstrip_char c s' in
      if Ascii.eqb a c && String.eqb r "" then EmptyString else String a r
  end.

(** The text [get_dict_from_b64_json] hands to [json.loads]. *)
Definition brace_wrap (decoded : string) : string :=
  "{" ++ rstrip_char "}" (lstrip_char "{" (py_strip decoded)) ++ "}".

(** Library calls of [get_dict_from_b64_json]:
    [base64.b64decode(v).decode("utf-8")], which returns the text or raises a
    [TypeError] or a [ValueError] (its message on the right), and the message
    of the [JSONDecodeError] for a text [json.loads] refuses. *)
Record Codec : Type := mkCodec {
  b64decode_utf8 : pyval -> string + string;
  json_error : string -> string
}.

Definition ignored_message (path msg : string) : string :=
  "Ignored invalid configuration for '" ++ path ++ "' due to exception: " ++ msg.

(** [ConfigLoader.get_dict_from_b64_json] *)
Definition get_dict_from_b64_json (W : World) (C : Codec) (path : string) (default : pyval)
  : M pyval :=
  fun st =>
    match get path VNone "." st with
    | Raise e => (Raise e, st)
    | Ok config_value =>
        match config_value with
        | VNone => (Ok (VDict []), st)
        | _ =>
            let fallback := if is_dict default then default else VDict [] in
            match b64decode_utf8 C config_value with
            | inr msg =>
                (log "warning" (ignored_message path msg) [] ;; ret fallback)%M st
            | inl b64decoded_str =>
                let text := brace_wrap b64decoded_str in
                match json_loads W text with
                | Loaded v => (Ok v, st)
                | Malformed =>
                    (log "warning" (ignored_message path (json_error C text)) [] ;;
                     ret fallback)%M st
                | TooDeep => (Raise RecursionError, st)
                end
            end
        end
    end.

(** ** More vocabulary *)

(** The nested mappings [set_path_in_dict] creates for components that are
    not there yet, around the value. *)
Fixpoint chain_of (comps : list string) (value : pyval) : pyval :=
  match comps with
  | [] => value
  | c :: rest => VDict [(c, chain_of rest value)]
  end.

(** A source whose cells do not wrap cells (what [Attr.__post_init__] lets
    through). *)
Fixpoint plain_source (v : pyval) : bool :=
  match v with
  | VDict d => forallb (fun kv => plain_source (snd kv)) d
  | VAttr x _ _ => negb (is_attr x)
  | _ => true
  end.

(** The tree already holds everything the source would merge into it. *)
Fixpoint absorbed (W : World) (src root : pyval) {struct src} : Prop :=
  match src with
  | VDict items =>
      items = [] \/
      match root with
      | VDict d =>
          (fix all (items : list (string * pyval)) : Prop :=
             match items with
             | [] => True
             | (k, v) :: rest =>
                 match v with
                 | VDict _ =>
                     match dict_get k d with
                     | Some child => absorbed W v child
                     | None => False
                     end
                 | _ =>
                     match fst (resolve W v []) with
                     | Ok stored => dict_get k d = Some stored
                     | Raise _ => False
                     end
                 end /\ all rest
             end) items
      | _ => False
      end
  | _ => False
  end.

(** The same, item by item, against the entries [d] of the tree. *)
Fixpoint absorbed_items (W : World) (items : list (string * pyval)) (d : dict) : Prop :=
  match items with
  | [] => True
  | (k, v) :: rest =>
      match v with
      | VDict _ =>
          match dict_get k d with
          | Some child => absorbed W v child
          | None => False
          end
      | _ =>
          match fst (resolve W v []) with
          | Ok stored => dict_get k d = Some stored
          | Raise _ => False
          end
      end /\ absorbed_items W rest d
  end.

Definition prefixed (kv : string * string) : bool := String.prefix ENV_PREFIX (fst kv).

(** A codec that decodes nothing. *)
Definition refusing_codec : Codec :=
  mkCodec (fun _ => inr "Incorrect padding") (fun _ => "Expecting value").

(** A host with three configuration files: one that loads as [default_yml],
    an empty one (YAML gives None), and one that is not YAML. *)
Definition world_with_files : World :=
  mkWorld []
    literal_url
    (fun name =>
       if String.eqb name "/etc/authentik/config.yml" then Opened "log_level: info"
       else if String.eqb name "/etc/authentik/config.d/empty.yml" then Opened ""
       else if String.eqb name "/etc/authentik/config.d/broken.yml" then Opened "{"
       else OpenFailed "No such file or directory")
    (fun contents =>
       if String.eqb contents "" then Loaded VNone
       else if String.eqb contents "{" then Malformed
       else Loaded default_yml)
    (fun _ => Malformed) (fun _ => None)
    literal_int_error (fun s => s)
    (fun s => "'" ++ s ++ "'") (fun _ => EventSaved)
    ["/etc/authentik/config.d/empty.yml"; "/etc/authentik/config.d/broken.yml"]
    (fun p => p) (fun a b => a ++ "/" ++ b)
    (fun name => if String.prefix "/etc/authentik/config" name then IsFile else Missing).

(** A host with two prefixed variables whose dotted paths clash. *)
Definition world_with_clash : World :=
  mkWorld [("AUTHENTIK_LOG", "info"); ("AUTHENTIK_LOG__LEVEL", "debug")]
    literal_url (fun _ => OpenFailed "No such file or directory")
    (fun _ => Malformed) (fun _ => Malformed) (fun _ => None)
    literal_int_error (fun s => s)
    (fun s => "'" ++ s ++ "'") (fun _ => EventSaved)
    [] (fun p => p) (fun a b => a ++ "/" ++ b) (fun _ => Missing).

Definition starts_with (c : ascii) (s : string) : bool :=
  match s with
  | EmptyString => false
  | String a _ => Ascii.eqb a c
  end.

Fixpoint ends_with (c : ascii) (s : string) : bool :=
  match s with
  | EmptyString => false
  | String a s' => match s' with EmptyString => Ascii.eqb a c | _ => ends_with c s' end
  end.

(** A tree in which a deprecated key holds a mapping. *)
Definition tree_with_transport_options : State :=
  mkState
    (VDict [("redis",
             VDict [("broker_transport_options",
                     VDict [("visibility_timeout", cell (VInt 3600))])])])
    [].

(** A host on which only the base directory exists, with no file for the
    environment in it. *)
Definition world_with_base_dir : World :=
  mkWorld [("HOME", "/root")] literal_url (fun _ => OpenFailed "No such file or directory")
    (fun _ => Malformed) (fun _ => Malformed) (fun _ => None)
    literal_int_error (fun s => s)
    (fun s => "'" ++ s ++ "'") (fun _ => EventSaved)
    [] (fun p => if starts_with "/" p then p else "/authentik/" ++ p)
    (fun a b => a ++ b)
    (fun name => if String.eqb name "/authentik/" then IsDir else Missing).

(** [urlparse] for the samples: [file://] and [env://] prefixes are taken
    apart, a detail with an unclosed bracket is refused, anything else has no
    scheme. *)
Definition sample_urlparse (value : option string) : option Url :=
  match value with
  | None => Some (mkUrl "" "" "" "")
  | Some s =>
      if String.prefix "file://" s
      then Some (mkUrl "file" "" (substring 7 (String.length s) s) "")
      else if String.prefix "env://" s
      then Some (mkUrl "env" (substring 6 (String.length s) s) "" "")
      else if String.prefix "http://[" s then None
      else Some (mkUrl "" "" s "")
  end.

(** A host with a secret in a file (a no-break space and a newline after
    it), and a file that is not UTF-8. *)
Definition world_with_secret : World :=
  mkWorld [("AUTHENTIK_SECRET_KEY", "file:///run/secrets/key")]
    sample_urlparse
    (fun name =>
       if String.eqb name "/run/secrets/key"
       then Opened ("s3cr3t" ++ String (ascii_of_nat 194) (String (ascii_of_nat 160) "")
                    ++ String (ascii_of_nat 10) "")
       else if String.eqb name "/run/secrets/blob" then Undecodable
       else OpenFailed "No such file or directory")
    (fun _ => Malformed) (fun _ => Malformed) (fun _ => None)
    literal_int_error (fun s => s)
    (fun s => "'" ++ s ++ "'") (fun _ => EventSaved)
    [] (fun p => p) (fun a b => a ++ "/" ++ b) (fun _ => Missing).

Definition tree_with_secret : State :=
  mkState
    (VDict [("secret_key", VAttr (VStr "old") URI (Some "file:///run/secrets/key"));
            ("blob", VAttr (VStr "") URI (Some "file:///run/secrets/blob"));
            ("callback", VAttr (VStr "") URI (Some "http://[")) ])
    [].

(** A component of a variable name as the naming convention has it: ASCII
    only, no dot, no doubled underscore, no underscore at its end. *)
Definition tidy_component (c : string) : bool :=
  all_ascii c && negb (is_substring "." c) && negb (is_substring "__" c)
  && negb (ends_with "_" c).

(** The loop of [json_data] over the elements of a list. *)
Fixpoint json_list (l : list pyval) : result (list pyval) :=
  match l with
  | [] => Ok []
  | x :: l' => (y <- json_data x ;; ys <- json_list l' ;; Ok (y :: ys))%res
  end.


(* ------------------------------------------------------------------ *)
(** * Properties *)

(** ** Dictionaries *)

Lemma dict_get_set_same : forall k v d, dict_get k (dict_set k v d) = Some v.
Proof.
  induction d as [|[k' v'] d IH]; simpl.
  - now rewrite String.eqb_refl.
  - destruct (String.eqb k k') eqn:E; simpl; rewrite E; auto.
Qed.

Lemma dict_get_set_other : forall k k' v d,
  String.eqb k' k = false -> dict_get k' (dict_set k v d) = dict_get k' d.
Proof.
  induction d as [|[k0 v0] d IH]; simpl; intros Hne.
  - now rewrite Hne.
  - destruct (String.eqb k k0) eqn:E; simpl.
    + apply String.eqb_eq in E. subst k0. now rewrite Hne.
    + destruct (String.eqb k' k0); auto.
Qed.

Lemma dict_get_remove_same : forall k d, dict_get k (dict_remove k d) = None.
Proof.
  induction d as [|[k0 v0] d IH]; simpl; auto.
  destruct (String.eqb k k0) eqn:E; simpl; auto. rewrite E. auto.
Qed.

Lemma dict_get_remove_other : forall k k' d,
  String.eqb k' k = false -> dict_get k' (dict_remove k d) = dict_get k' d.
Proof.
  induction d as [|[k0 v0] d IH]; simpl; intros Hne; auto.
  destruct (String.eqb k k0) eqn:E; simpl.
  - apply String.eqb_eq in E. subst k0. rewrite Hne. auto.
  - destruct (String.eqb k' k0); auto.
Qed.

Lemma dict_set_set : forall k v0 v d,
  dict_set k v (dict_set k v0 d) = dict_set k v d.
Proof.
  induction d as [|[k0 x] d IH]; simpl.
  - now rewrite String.eqb_refl.
  - destruct (String.eqb k k0) eqn:E; simpl; rewrite E; auto. now rewrite IH.
Qed.

Lemma dict_get_nonempty : forall k d v, dict_get k d = Some v -> truthy (VDict d) = true.
Proof. intros k [|kv d] v H; [discriminate | reflexivity]. Qed.

Lemma eqb_sym_false : forall a b, String.eqb a b = false -> String.eqb b a = false.
Proof. intros a b H. rewrite String.eqb_sym. exact H. Qed.

(** ** Reading a path *)

Lemma get_path_walk_dict : forall d c cs dflt,
  get_path_walk (VDict d) (c :: cs) dflt =
  match dict_get c d with
  | Some child => get_path_walk child cs dflt
  | None => Ok dflt
  end.
Proof.
  intros d c cs dflt. cbn [get_path_walk].
  destruct (dict_get c d) as [child|] eqn:E.
  - rewrite (dict_get_nonempty _ _ _ E). cbn. unfold dict_mem. rewrite E. reflexivity.
  - destruct (truthy (VDict d)); auto. cbn. unfold dict_mem. rewrite E. reflexivity.
Qed.

Lemma get_path_walk_empty_dict : forall cs dflt,
  cs <> [] -> get_path_walk (VDict []) cs dflt = Ok dflt.
Proof. intros [|c cs] dflt H; [congruence | reflexivity]. Qed.

Lemma addresses_get_path_walk : forall root cs node dflt,
  addresses root cs node -> get_path_walk root cs dflt = Ok node.
Proof.
  induction 1 as [root | d c child cs node Hget _ IH]; [reflexivity|].
  rewrite get_path_walk_dict, Hget. exact IH.
Qed.

(** ** Writing a path *)

Lemma set_path_walk_dict : forall d c rest last v,
  set_path_walk (VDict d) (c :: rest) last v =
  match dict_get c d with
  | Some child =>
      (child' <- set_path_walk child rest last v ;; Ok (VDict (dict_set c child' d)))%res
  | None =>
      (child' <- set_path_walk (VDict []) rest last v ;; Ok (VDict (dict_set c child' d)))%res
  end.
Proof.
  intros. cbn [set_path_walk contains rbind]. unfold dict_mem.
  destruct (dict_get c d) as [child|] eqn:E; cbn.
  - rewrite E. destruct (set_path_walk child rest last v); reflexivity.
  - rewrite dict_get_set_same.
    destruct (set_path_walk (VDict []) rest last v); cbn; [|reflexivity].
    now rewrite dict_set_set.
Qed.

Lemma set_path_walk_not_dict : forall root init last v,
  is_dict root = false -> exists e, set_path_walk root init last v = Raise e.
Proof.
  intros root init last v H.
  destruct root; try discriminate; destruct init as [|c rest]; cbn; eauto;
    match goal with
    | |- context [if ?b then _ else _] => destruct b; cbn; eauto
    end.
Qed.

Lemma set_path_walk_is_dict : forall root init last v root',
  set_path_walk root init last v = Ok root' -> is_dict root = true /\ is_dict root' = true.
Proof.
  intros root init last v root' H.
  destruct (is_dict root) eqn:E.
  - split; auto. destruct root; try discriminate.
    destruct init as [|c rest].
    + cbn in H. inversion H. reflexivity.
    + rewrite set_path_walk_dict in H.
      destruct (dict_get c d);
        [destruct (set_path_walk p rest last v) | destruct (set_path_walk (VDict []) rest last v)];
        cbn in H; inversion H; reflexivity.
  - destruct (set_path_walk_not_dict root init last v E) as [e He]. congruence.
Qed.

Lemma set_path_walk_fresh : forall rest last v,
  exists d', set_path_walk (VDict []) rest last v = Ok (VDict d').
Proof.
  induction rest as [|c rest IH]; intros.
  - cbn. eauto.
  - rewrite set_path_walk_dict. cbn. destruct (IH last v) as [d' ->]. cbn. eauto.
Qed.

Lemma set_then_get : forall init root last v root' dflt,
  set_path_walk root init last v = Ok root' ->
  get_path_walk root' (init ++ [last]) dflt = Ok v.
Proof.
  induction init as [|c rest IH]; intros root last v root' dflt H.
  - destruct root; try discriminate. cbn in H. inversion H; subst.
    cbn [app]. rewrite get_path_walk_dict, dict_get_set_same. reflexivity.
  - destruct (set_path_walk_is_dict _ _ _ _ _ H) as [Hd _].
    destruct root; try discriminate.
    rewrite set_path_walk_dict in H. cbn [app].
    destruct (dict_get c d) as [child|].
    + destruct (set_path_walk child rest last v) as [child'|] eqn:E; cbn in H; inversion H; subst.
      rewrite get_path_walk_dict, dict_get_set_same. eapply IH; eauto.
    + destruct (set_path_walk (VDict []) rest last v) as [child'|] eqn:E; cbn in H; inversion H; subst.
      rewrite get_path_walk_dict, dict_get_set_same. eapply IH; eauto.
Qed.

Lemma diverge_nonempty : forall p q, diverge p q = true -> q <> [].
Proof. intros [|a p] [|b q]; cbn; congruence. Qed.

Lemma diverge_sym : forall p q, diverge p q = diverge q p.
Proof.
  induction p as [|a p IH]; destruct q as [|b q]; cbn; auto.
  rewrite (String.eqb_sym b a). destruct (String.eqb a b); auto.
Qed.

Lemma set_frame : forall init root last v root' p dflt,
  set_path_walk root init last v = Ok root' ->
  diverge (init ++ [last]) p = true ->
  get_path_walk root' p dflt = get_path_walk root p dflt.
Proof.
  induction init as [|c rest IH]; intros root last v root' p dflt H Hdiv.
  - destruct root; try discriminate. cbn in H. inversion H; subst.
    destruct p as [|a p]; [discriminate|]. cbn in Hdiv.
    destruct (String.eqb last a) eqn:E.
    + destruct p; discriminate.
    + rewrite !get_path_walk_dict, dict_get_set_other; auto using eqb_sym_false.
  - destruct (set_path_walk_is_dict _ _ _ _ _ H) as [Hd _].
    destruct root; try discriminate.
    destruct p as [|a p]; [discriminate|]. cbn in Hdiv.
    rewrite set_path_walk_dict in H.
    destruct (String.eqb c a) eqn:E.
    + apply String.eqb_eq in E. subst a.
      destruct (dict_get c d) as [child|] eqn:Ec.
      * destruct (set_path_walk child rest last v) as [child'|] eqn:E; cbn in H; inversion H; subst.
        rewrite !get_path_walk_dict, dict_get_set_same, Ec. eapply IH; eauto.
      * destruct (set_path_walk (VDict []) rest last v) as [child'|] eqn:E; cbn in H; inversion H; subst.
        rewrite !get_path_walk_dict, dict_get_set_same, Ec. erewrite IH; eauto.
        apply get_path_walk_empty_dict. eapply diverge_nonempty; eauto.
    + assert (Hget : forall x, dict_get a (dict_set c x d) = dict_get a d)
        by (intros; apply dict_get_set_other; auto using eqb_sym_false).
      destruct (dict_get c d) as [child|].
      * destruct (set_path_walk child rest last v) as [child'|]; cbn in H; inversion H; subst.
        now rewrite !get_path_walk_dict, Hget.
      * destruct (set_path_walk (VDict []) rest last v) as [child'|]; cbn in H; inversion H; subst.
        now rewrite !get_path_walk_dict, Hget.
Qed.

(** ** Popping a deprecated key *)

Lemma pop_deprecated_key_cons : forall root c c2 rest,
  pop_deprecated_key root (c :: c2 :: rest) =
  (child <- py_getitem root c ;;
   popped <- pop_deprecated_key child (c2 :: rest) ;;
   let current1 := store_back root c (snd popped) in
   probe <- py_getitem current1 c ;;
   if negb (truthy probe)
   then (gone <- py_pop current1 c ;; Ok (fst popped, snd gone))
   else Ok (fst popped, current1))%res.
Proof. reflexivity. Qed.

Lemma pop_dict_shape : forall parts root x root',
  pop_deprecated_key root parts = Ok (x, root') ->
  exists d d', root = VDict d /\ root' = VDict d'.
Proof.
  intros [|c [|c2 rest]] root x root' H.
  - discriminate.
  - destruct root; cbn in H; try discriminate.
    destruct (dict_get c d); inversion H; eauto.
  - rewrite pop_deprecated_key_cons in H.
    destruct root; try discriminate H. cbn [py_getitem rbind] in H.
    destruct (dict_get c d) as [child|] eqn:Ec; [|discriminate]. cbn [rbind] in H.
    destruct (pop_deprecated_key child (c2 :: rest)) as [[y child']|]; [|discriminate].
    cbn [rbind snd fst store_back] in H. unfold dict_mem in H. rewrite Ec in H.
    cbn [py_getitem rbind] in H. rewrite dict_get_set_same in H. cbn [rbind] in H.
    destruct (negb (truthy child')).
    + cbn in H. rewrite dict_get_set_same in H. inversion H. eauto.
    + inversion H. eauto.
Qed.

(** A step of the recursion, on a dict that holds the first component. *)
Lemma pop_deprecated_key_step : forall d c c2 rest x root',
  pop_deprecated_key (VDict d) (c :: c2 :: rest) = Ok (x, root') ->
  exists child child',
    dict_get c d = Some child /\
    pop_deprecated_key child (c2 :: rest) = Ok (x, child') /\
    root' = if truthy child'
            then VDict (dict_set c child' d)
            else VDict (dict_remove c (dict_set c child' d)).
Proof.
  intros d c c2 rest x root' H.
  rewrite pop_deprecated_key_cons in H. cbn [py_getitem rbind] in H.
  destruct (dict_get c d) as [child|] eqn:Ec; [|discriminate]. cbn [rbind] in H.
  destruct (pop_deprecated_key child (c2 :: rest)) as [[y child']|] eqn:Ep; [|discriminate].
  cbn [rbind snd fst store_back] in H. unfold dict_mem in H. rewrite Ec in H.
  cbn [py_getitem rbind] in H. rewrite dict_get_set_same in H. cbn [rbind] in H.
  exists child, child'. destruct (truthy child'); cbn in H.
  - inversion H; subst. auto.
  - rewrite dict_get_set_same in H. inversion H; subst. auto.
Qed.

Lemma pop_value : forall parts root x root' dflt,
  pop_deprecated_key root parts = Ok (x, root') ->
  get_path_walk root parts dflt = Ok x.
Proof.
  induction parts as [|c parts IH]; intros root x root' dflt H; [discriminate|].
  destruct (pop_dict_shape _ _ _ _ H) as (d & d' & -> & ->).
  rewrite get_path_walk_dict.
  destruct parts as [|c2 rest].
  - cbn in H. destruct (dict_get c d); inversion H; subst. reflexivity.
  - destruct (pop_deprecated_key_step _ _ _ _ _ _ H) as (child & child' & Ec & Ep & _).
    rewrite Ec. eapply IH; eauto.
Qed.

Lemma pop_absent : forall parts root x root' dflt,
  pop_deprecated_key root parts = Ok (x, root') ->
  get_path_walk root' parts dflt = Ok dflt.
Proof.
  induction parts as [|c parts IH]; intros root x root' dflt H; [discriminate|].
  destruct (pop_dict_shape _ _ _ _ H) as (d & d' & -> & ->).
  destruct parts as [|c2 rest].
  - cbn in H. destruct (dict_get c d); inversion H; subst.
    rewrite get_path_walk_dict, dict_get_remove_same. reflexivity.
  - destruct (pop_deprecated_key_step _ _ _ _ _ _ H) as (child & child' & Ec & Ep & Hr).
    destruct (truthy child'); inversion Hr; subst; rewrite get_path_walk_dict.
    + rewrite dict_get_set_same. eapply IH; eauto.
    + rewrite dict_get_remove_same. reflexivity.
Qed.

Lemma falsy_dict : forall d, truthy (VDict d) = false -> d = [].
Proof. intros [|kv d]; cbn; congruence. Qed.

Lemma pop_frame : forall parts root x root' p dflt,
  pop_deprecated_key root parts = Ok (x, root') ->
  diverge parts p = true ->
  get_path_walk root' p dflt = get_path_walk root p dflt.
Proof.
  induction parts as [|c parts IH]; intros root x root' p dflt H Hdiv; [discriminate|].
  destruct (pop_dict_shape _ _ _ _ H) as (d & d' & -> & ->).
  destruct p as [|a p]; [discriminate|]. cbn in Hdiv.
  destruct parts as [|c2 rest].
  - cbn in H. destruct (dict_get c d); inversion H; subst.
    destruct (String.eqb c a) eqn:E; [destruct p; discriminate|].
    rewrite !get_path_walk_dict, dict_get_remove_other; auto using eqb_sym_false.
  - destruct (pop_deprecated_key_step _ _ _ _ _ _ H) as (child & child' & Ec & Ep & Hr).
    destruct (String.eqb c a) eqn:E.
    + apply String.eqb_eq in E. subst a.
      pose proof (IH _ _ _ _ dflt Ep Hdiv) as Hc.
      destruct (pop_dict_shape _ _ _ _ Ep) as (dc & dc' & -> & ->).
      destruct (truthy (VDict dc')) eqn:Et; inversion Hr; subst;
        rewrite !get_path_walk_dict, Ec, <- Hc.
      * now rewrite dict_get_set_same.
      * rewrite dict_get_remove_same. apply falsy_dict in Et. subst dc'.
        symmetry. apply get_path_walk_empty_dict. eapply diverge_nonempty; eauto.
    + assert (Hs : forall y, dict_get a (dict_set c y d) = dict_get a d)
        by (intros; apply dict_get_set_other; auto using eqb_sym_false).
      destruct (truthy child'); inversion Hr; subst; rewrite !get_path_walk_dict.
      * now rewrite Hs.
      * rewrite dict_get_remove_other, Hs; auto using eqb_sym_false.
Qed.

(** No mapping on the way to the popped key is left empty. *)
Lemma pop_prunes : forall parts root x root' q dflt,
  pop_deprecated_key root parts = Ok (x, root') ->
  q <> [] ->
  proper_prefix q parts = true ->
  dflt <> VDict [] ->
  get_path_walk root' q dflt <> Ok (VDict []).
Proof.
  induction parts as [|c parts IH]; intros root x root' q dflt H Hq Hpre Hd; [discriminate|].
  destruct (pop_dict_shape _ _ _ _ H) as (d & d' & -> & ->).
  destruct q as [|a q]; [congruence|].
  unfold proper_prefix in Hpre. cbn in Hpre.
  apply andb_true_iff in Hpre as [Hpre Hlen].
  apply andb_true_iff in Hpre as [Ea Hpre].
  apply String.eqb_eq in Ea. subst a.
  destruct parts as [|c2 rest].
  - destruct q; cbn in Hlen; discriminate.
  - destruct (pop_deprecated_key_step _ _ _ _ _ _ H) as (child & child' & Ec & Ep & Hr).
    destruct (truthy child') eqn:Et; inversion Hr; subst; rewrite get_path_walk_dict.
    + rewrite dict_get_set_same.
      destruct q as [|a q].
      * cbn. intros Heq. inversion Heq; subst. discriminate.
      * eapply IH; eauto; [congruence|].
        unfold proper_prefix. rewrite Hpre. exact Hlen.
    + rewrite dict_get_remove_same. congruence.
Qed.

Lemma split_from_nonempty : forall sep s k, split_from sep k s <> [].
Proof.
  induction s as [|c s IH]; intros k; cbn [split_from]; [discriminate|].
  destruct k; auto.
  destruct (String.prefix sep (String c s)); [discriminate|].
  destruct (split_from sep 0 s); discriminate.
Qed.

Lemma dot_parts_snoc : forall path,
  dot_parts path = (removelast (dot_parts path) ++ [last (dot_parts path) ""])%list.
Proof. intros. apply app_removelast_last. apply split_from_nonempty. Qed.

Lemma get_dot : forall path dflt st,
  is_attr dflt = false ->
  get path dflt "." st =
  (a <- get_path_walk (config st) (dot_parts path) (VAttr dflt UNSPECIFIED None) ;;
   attr_value a)%res.
Proof.
  intros path dflt st H. unfold get, mkAttr, get_path_from_dict. rewrite H. reflexivity.
Qed.

Lemma set_dot_inv : forall path v st st',
  set path v "." st = (Ok tt, st') ->
  is_attr v = false /\
  exists root',
    set_path_walk (config st) (removelast (dot_parts path)) (last (dot_parts path) "")
      (VAttr v UNSPECIFIED None) = Ok root' /\
    st' = mkState root' (logs st).
Proof.
  intros path v st st' H. unfold set, mkAttr, set_path_in_dict in H.
  destruct (is_attr v); cbn in H; [discriminate|]. split; auto.
  fold (dot_parts path) in H.
  destruct (set_path_walk (config st) _ _ _) as [root'|]; inversion H. eauto.
Qed.

(** The two ways a turn of the loop can end normally: the entry is passed
    over, or its key is popped and set again under the new path. *)
Lemma check_deprecation_cases : forall W o n st st',
  check_deprecation W o n st = (Ok tt, st') ->
  exists found,
    get o VUnset "." st = Ok found /\
    ((config st' = config st /\ (exists l, logs st' = (logs st ++ l)%list) /\
      (found = VUnset \/ event_save W (deprecation_message o n) = EventImportError)) \/
     (exists cell root1 v,
        found <> VUnset /\
        event_save W (deprecation_message o n) = EventSaved /\
        pop_deprecated_key (config st) (dot_parts o) = Ok (cell, root1) /\
        attr_value cell = Ok v /\
        set n v "."
          (mkState root1 (logs st ++ [mkLog "warning" (deprecation_message o n) []])%list)
        = (Ok tt, st'))).
Proof.
  intros W o n st st' H. unfold check_deprecation in H.
  destruct (get o VUnset "." st) as [found|]; [|discriminate].
  exists found. split; auto.
  destruct (is_unset found) eqn:Eu.
  - inversion H; subst. left. repeat split; auto.
    + exists []. now rewrite app_nil_r.
    + left. destruct found; try discriminate. reflexivity.
  - unfold bind, log in H. cbn [forallb] in H.
    destruct (event_save W (deprecation_message o n)) eqn:Ev.
    + right. cbn [py_split String.eqb rbind] in H.
      change (split_from "." 0 o) with (dot_parts o) in H. cbn [config logs] in H.
      destruct (pop_deprecated_key (config st) (dot_parts o)) as [[cell root1]|] eqn:Ep;
        [|discriminate].
      destruct (attr_value cell) as [v|] eqn:Ea; [|discriminate].
      exists cell, root1, v. repeat split; auto.
      intros ->. discriminate.
    + inversion H; subst. left. cbn. repeat split; eauto.
    + discriminate.
Qed.

Lemma check_deprecation_frame : forall W o n st st' p dflt,
  check_deprecation W o n st = (Ok tt, st') ->
  diverge (dot_parts o) p = true ->
  diverge (dot_parts n) p = true ->
  get_path_walk (config st') p dflt = get_path_walk (config st) p dflt.
Proof.
  intros W o n st st' p dflt H Ho Hn.
  destruct (check_deprecation_cases _ _ _ _ _ H)
    as (found & _ & [(-> & _) | (cell & root1 & v & _ & _ & Ep & _ & Hs)]);
    [reflexivity|].
  apply set_dot_inv in Hs as (_ & root' & Hs & ->). cbn [config] in *.
  rewrite (dot_parts_snoc n) in Hn.
  rewrite (set_frame _ _ _ _ _ _ dflt Hs Hn).
  eapply pop_frame; eauto.
Qed.

Lemma check_deprecation_logs : forall W o n st st',
  check_deprecation W o n st = (Ok tt, st') ->
  exists l, logs st' = (logs st ++ l)%list.
Proof.
  intros W o n st st' H.
  destruct (check_deprecation_cases _ _ _ _ _ H)
    as (found & _ & [(_ & Hl & _) | (cell & root1 & v & _ & _ & _ & _ & Hs)]);
    [exact Hl|].
  apply set_dot_inv in Hs as (_ & root' & _ & ->). cbn. eauto.
Qed.

Lemma check_deprecation_prunes : forall W o n st st' q,
  check_deprecation W o n st = (Ok tt, st') ->
  q <> [] ->
  diverge (dot_parts n) q = true ->
  diverge (dot_parts o) q = true \/ proper_prefix q (dot_parts o) = true ->
  get_path_walk (config st) q VUnset <> Ok (VDict []) ->
  get_path_walk (config st') q VUnset <> Ok (VDict []).
Proof.
  intros W o n st st' q H Hq Hn Ho Hbefore.
  destruct Ho as [Ho|Ho].
  - now rewrite (check_deprecation_frame _ _ _ _ _ _ VUnset H Ho Hn).
  - destruct (check_deprecation_cases _ _ _ _ _ H)
      as (found & _ & [(-> & _) | (cell & root1 & v & _ & _ & Ep & _ & Hs)]);
      [exact Hbefore|].
    apply set_dot_inv in Hs as (_ & root' & Hs & ->). cbn [config] in *.
    rewrite (dot_parts_snoc n) in Hn.
    rewrite (set_frame _ _ _ _ _ _ VUnset Hs Hn).
    eapply pop_prunes; eauto. discriminate.
Qed.

Lemma proper_prefix_inits : forall q p,
  proper_prefix q p = true -> In q (proper_inits p).
Proof.
  induction q as [|a q IH]; intros [|b p] H; unfold proper_prefix in H; cbn in H;
    try discriminate.
  - left. reflexivity.
  - apply andb_true_iff in H as [H Hlen]. apply andb_true_iff in H as [Hab H].
    apply String.eqb_eq in Hab. subst b. right. apply in_map. apply IH.
    unfold proper_prefix. now rewrite H.
Qed.

Lemma check_deprecation_migrates : forall W o n st st' v,
  check_deprecation W o n st = (Ok tt, st') ->
  get o VUnset "." st = Ok v ->
  v <> VUnset ->
  event_save W (deprecation_message o n) = EventSaved ->
  diverge (dot_parts n) (dot_parts o) = true ->
  forallb (fun q => match q with [] => true | _ => diverge (dot_parts n) q end)
    (proper_inits (dot_parts o)) = true ->
  migrated st' o n v.
Proof.
  intros W o n st st' v H Hget Hv Hev Hdiv Hpre.
  destruct (check_deprecation_cases _ _ _ _ _ H)
    as (found & Hf & [(_ & _ & [-> | Himp]) | (cell & root1 & v' & _ & _ & Ep & Ea & Hs)]).
  - congruence.
  - congruence.
  - rewrite get_dot in Hget by reflexivity.
    rewrite (pop_value _ _ _ _ (VAttr VUnset UNSPECIFIED None) Ep) in Hget. cbn [rbind] in Hget.
    assert (v' = v) by congruence. subst v'.
    apply set_dot_inv in Hs as (Hnv & root' & Hs & ->). cbn [config logs] in Hs.
    pose proof (dot_parts_snoc n) as Hsn.
    unfold migrated. cbn [config logs]. repeat split.
    + rewrite get_dot by reflexivity. cbn [config].
      rewrite Hsn in Hdiv.
      rewrite (set_frame _ _ _ _ _ _ (VAttr VUnset UNSPECIFIED None) Hs Hdiv).
      rewrite (pop_absent _ _ _ _ (VAttr VUnset UNSPECIFIED None) Ep). reflexivity.
    + intros q Hq Hpq.
      assert (Hnq : diverge (removelast (dot_parts n) ++ [last (dot_parts n) ""]) q = true).
      { rewrite <- Hsn. rewrite forallb_forall in Hpre.
        specialize (Hpre q (proper_prefix_inits _ _ Hpq)). destruct q; [congruence|exact Hpre]. }
      rewrite (set_frame _ _ _ _ _ _ VUnset Hs Hnq).
      eapply pop_prunes; eauto. discriminate.
    + apply in_or_app. right. left. reflexivity.
    + rewrite get_dot by reflexivity. cbn [config]. rewrite Hsn.
      rewrite (set_then_get _ _ _ _ _ (VAttr VNone UNSPECIFIED None) Hs). reflexivity.
Qed.

(** *** The whole table *)

Lemma check_deprecations_in_cons : forall W o n rest st st',
  check_deprecations_in W ((o, n) :: rest) st = (Ok tt, st') ->
  exists st1,
    check_deprecation W o n st = (Ok tt, st1) /\
    check_deprecations_in W rest st1 = (Ok tt, st').
Proof.
  intros W o n rest st st' H. cbn [check_deprecations_in] in H. unfold bind in H.
  destruct (check_deprecation W o n st) as [[[]|e] st1]; [|discriminate]. eauto.
Qed.

Lemma independent_parts : forall e e',
  independent e e' = true ->
  diverge (dot_parts (fst e')) (dot_parts (fst e)) = true /\
  diverge (dot_parts (snd e')) (dot_parts (fst e)) = true /\
  diverge (dot_parts (fst e')) (dot_parts (snd e)) = true /\
  diverge (dot_parts (snd e')) (dot_parts (snd e)) = true /\
  (forall q, q <> [] -> proper_prefix q (dot_parts (fst e)) = true ->
     diverge (dot_parts (snd e')) q = true /\
     (diverge (dot_parts (fst e')) q = true \/ proper_prefix q (dot_parts (fst e')) = true)).
Proof.
  intros e e' H. unfold independent in H.
  repeat (apply andb_true_iff in H as [H ?]).
  repeat split; auto.
  - rewrite forallb_forall in H0. specialize (H0 q (proper_prefix_inits _ _ H5)).
    destruct q; [congruence|]. apply andb_true_iff in H0 as [? _]. assumption.
  - rewrite forallb_forall in H0. specialize (H0 q (proper_prefix_inits _ _ H5)).
    destruct q; [congruence|]. apply andb_true_iff in H0 as [_ H0].
    apply orb_true_iff in H0. exact H0.
Qed.

Lemma check_deprecation_keeps_migrated : forall W o' n' st st' o n v,
  check_deprecation W o' n' st = (Ok tt, st') ->
  independent (o, n) (o', n') = true ->
  migrated st o n v ->
  migrated st' o n v.
Proof.
  intros W o' n' st st' o n v H Hind (M1 & M2 & M3 & M4).
  destruct (independent_parts _ _ Hind) as (D1 & D2 & D3 & D4 & D5). cbn [fst snd] in *.
  unfold migrated. repeat split.
  - rewrite get_dot in * by reflexivity.
    now rewrite (check_deprecation_frame _ _ _ _ _ _ _ H D1 D2).
  - intros q Hq Hpq. destruct (D5 q Hq Hpq) as [Dn Do].
    eapply check_deprecation_prunes; eauto.
  - destruct (check_deprecation_logs _ _ _ _ _ H) as [l ->]. apply in_or_app. now left.
  - rewrite get_dot in * by reflexivity.
    now rewrite (check_deprecation_frame _ _ _ _ _ _ _ H D3 D4).
Qed.

Lemma check_deprecations_in_keep_migrated : forall W table st st' o n v,
  check_deprecations_in W table st = (Ok tt, st') ->
  forallb (independent (o, n)) table = true ->
  migrated st o n v ->
  migrated st' o n v.
Proof.
  induction table as [|[o' n'] table IH]; intros st st' o n v H Hind Hm.
  - cbn in H. inversion H; subst. exact Hm.
  - cbn [forallb] in Hind. apply andb_true_iff in Hind as [Hi Hind].
    destruct (check_deprecations_in_cons _ _ _ _ _ _ H) as (st1 & H1 & H2).
    eapply IH; eauto. eapply check_deprecation_keeps_migrated; eauto.
Qed.

Lemma check_deprecations_in_keep_get : forall W table st st' o n,
  check_deprecations_in W table st = (Ok tt, st') ->
  forallb (independent (o, n)) table = true ->
  get o VUnset "." st' = get o VUnset "." st.
Proof.
  induction table as [|[o' n'] table IH]; intros st st' o n H Hind.
  - cbn in H. inversion H; subst. reflexivity.
  - cbn [forallb] in Hind. apply andb_true_iff in Hind as [Hi Hind].
    destruct (check_deprecations_in_cons _ _ _ _ _ _ H) as (st1 & H1 & H2).
    rewrite (IH _ _ _ _ H2 Hind).
    destruct (independent_parts _ _ Hi) as (D1 & D2 & _). cbn [fst snd] in *.
    rewrite !get_dot by reflexivity.
    now rewrite (check_deprecation_frame _ _ _ _ _ _ _ H1 D1 D2).
Qed.

Lemma check_deprecations_in_app : forall W l1 l2 st st',
  check_deprecations_in W (l1 ++ l2) st = (Ok tt, st') ->
  exists st1,
    check_deprecations_in W l1 st = (Ok tt, st1) /\
    check_deprecations_in W l2 st1 = (Ok tt, st').
Proof.
  induction l1 as [|[o n] l1 IH]; intros l2 st st' H.
  - exists st. split; auto.
  - cbn [app] in H. destruct (check_deprecations_in_cons _ _ _ _ _ _ H) as (st1 & H1 & H2).
    destruct (IH _ _ _ H2) as (st2 & H3 & H4). exists st2. split; auto.
    cbn [check_deprecations_in]. unfold bind. rewrite H1. exact H3.
Qed.

Lemma check_deprecations_in_entry : forall W l1 l2 o n st st' v,
  check_deprecations_in W (l1 ++ (o, n) :: l2) st = (Ok tt, st') ->
  forallb (independent (o, n)) l1 = true ->
  forallb (independent (o, n)) l2 = true ->
  diverge (dot_parts n) (dot_parts o) = true ->
  forallb (fun q => match q with [] => true | _ => diverge (dot_parts n) q end)
    (proper_inits (dot_parts o)) = true ->
  get o VUnset "." st = Ok v ->
  v <> VUnset ->
  event_save W (deprecation_message o n) = EventSaved ->
  migrated st' o n v.
Proof.
  intros W l1 l2 o n st st' v H Hl1 Hl2 Hdiv Hpre Hget Hv Hev.
  destruct (check_deprecations_in_app _ _ _ _ _ H) as (st1 & H1 & H2).
  destruct (check_deprecations_in_cons _ _ _ _ _ _ H2) as (st2 & H3 & H4).
  eapply check_deprecations_in_keep_migrated; eauto.
  eapply check_deprecation_migrates; eauto.
  rewrite (check_deprecations_in_keep_get _ _ _ _ _ _ H1 Hl1). exact Hget.
Qed.

(** ** C1: the deprecation migration *)

(** The deprecation check is the last step of the construction: it starts
    from the tree as all files, the environment and the keyword arguments
    have left it. *)
Lemma ConfigLoader_init_phases : forall W kw st',
  ConfigLoader_init W kw = (Ok tt, st') ->
  exists st,
    load_sources W kw (mkState (VDict []) []) = (Ok tt, st) /\
    check_deprecations W st = (Ok tt, st').
Proof.
  intros W kw st' H. unfold ConfigLoader_init, bind in H.
  destruct (load_sources W kw (mkState (VDict []) [])) as [[[]|e] st]; [|discriminate].
  eauto.
Qed.

(** C1, amended.  When [check_deprecations] returns normally, every entry
    (old, new) of the deprecation table whose old path held a value [v], and
    for which the audit event was recorded (the event model was importable),
    has been migrated: [get old] is absent, no mapping on the way to the old
    key is left empty, the warning naming both paths is in the log, and
    [get new] returns [v]. *)
Theorem check_deprecations_migrates : forall W st st' old new v,
  check_deprecations W st = (Ok tt, st') ->
  In (old, new) DEPRECATIONS ->
  get old VUnset "." st = Ok v ->
  v <> VUnset ->
  event_save W (deprecation_message old new) = EventSaved ->
  migrated st' old new v.
Proof.
  intros W st st' old new v H Hin Hget Hv Hev.
  unfold check_deprecations in H.
  unfold DEPRECATIONS in Hin. cbn [In] in Hin.
  repeat (destruct Hin as [Hin | Hin]); try contradiction; inversion Hin; subst old new.
  - eapply (check_deprecations_in_entry W [] (tl DEPRECATIONS)); eauto; reflexivity.
  - eapply (check_deprecations_in_entry W (firstn 1 DEPRECATIONS) (skipn 2 DEPRECATIONS));
      eauto; reflexivity.
  - eapply (check_deprecations_in_entry W (firstn 2 DEPRECATIONS) (skipn 3 DEPRECATIONS));
      eauto; reflexivity.
  - eapply (check_deprecations_in_entry W (firstn 3 DEPRECATIONS) (skipn 4 DEPRECATIONS));
      eauto; reflexivity.
  - eapply (check_deprecations_in_entry W (firstn 4 DEPRECATIONS) (skipn 5 DEPRECATIONS));
      eauto; reflexivity.
  - eapply (check_deprecations_in_entry W (firstn 5 DEPRECATIONS) (skipn 6 DEPRECATIONS));
      eauto; reflexivity.
  - eapply (check_deprecations_in_entry W (firstn 6 DEPRECATIONS) (skipn 7 DEPRECATIONS));
      eauto; reflexivity.
Qed.

Lemma check_deprecations_migrates_witness :
  migrated (snd (check_deprecations bare_world tree_with_redis))
    "redis.broker_url" "broker.url" (VStr "redis://r/1").
Proof.
  apply (check_deprecations_migrates bare_world tree_with_redis).
  - reflexivity.
  - right. left. reflexivity.
  - reflexivity.
  - discriminate.
  - reflexivity.
Defined.

(** C1 as worded fails when the event model cannot be imported: the loop
    logs the warning and moves on, and the deprecated key stays where it was. *)
Lemma check_deprecations_import_error_keeps_key :
  check_deprecations world_without_events tree_with_geoip
  = (Ok tt, mkState (config tree_with_geoip)
              [mkLog "warning"
                 (deprecation_message "geoip" "events.context_processors.geoip") []]) /\
  ~ deprecations_migrated tree_with_geoip
      (snd (check_deprecations world_without_events tree_with_geoip)).
Proof.
  split; [reflexivity|].
  intros H.
  destruct (H "geoip" "events.context_processors.geoip" (VStr "/geoip/City.mmdb"))
    as [Habsent _].
  - left. reflexivity.
  - reflexivity.
  - discriminate.
  - vm_compute in Habsent. discriminate.
Qed.

(** ** C2: [get_bool] *)

Lemma caseless_eq_lower : forall a b,
  caseless_eq a b = String.eqb (py_lower a) (py_lower b).
Proof.
  induction a as [|x a IH]; destruct b as [|y b]; cbn; auto.
  rewrite IH. reflexivity.
Qed.

Lemma caseless_eq_true : forall a,
  caseless_eq a "true" = String.eqb (py_lower a) "true".
Proof. intros a. rewrite caseless_eq_lower. reflexivity. Qed.

Lemma str_of_Z_not_true : forall z, String.eqb (py_lower (str_of_Z z)) "true" = false.
Proof.
  intros z. unfold str_of_Z. destruct (Z.to_int z) as [u|u]; destruct u; reflexivity.
Qed.

Lemma never_reads_true_sound : forall W v,
  never_reads_true v = true -> String.eqb (py_lower (py_str W v)) "true" = false.
Proof.
  intros W v H. destruct v as [| [|] | z | s | l | d | x st src | p |]; try discriminate;
    try reflexivity.
  apply str_of_Z_not_true.
Qed.

(** C2, amended.  [get_bool] returns True exactly when the string form of the
    stored value equals ["true"] up to case, and False otherwise.  The
    boolean True is such a value although it is not a string; None, False,
    integers, lists, mappings, value cells and [UNSET] give False. *)
Theorem get_bool_reads_true : forall W st path default v,
  get path default "." st = Ok v ->
  exists b,
    get_bool W path default st = Ok b /\
    (b = true <-> caseless_eq (py_str W v) "true" = true) /\
    (v = VBool true -> b = true) /\
    (never_reads_true v = true -> b = false).
Proof.
  intros W st path default v Hget.
  exists (String.eqb (py_lower (py_str W v)) "true").
  unfold get_bool. rewrite Hget. cbn [rbind]. repeat split.
  - intros H. now rewrite caseless_eq_true.
  - intros H. now rewrite <- caseless_eq_true.
  - intros ->. reflexivity.
  - apply never_reads_true_sound.
Qed.

Lemma get_bool_reads_true_witness :
  exists b,
    get_bool bare_world "debug" (VBool false) tree_with_redis = Ok b /\
    (b = true <-> caseless_eq (py_str bare_world (VBool true)) "true" = true) /\
    (VBool true = VBool true -> b = true) /\
    (never_reads_true (VBool true) = true -> b = false).
Proof.
  apply (get_bool_reads_true bare_world tree_with_redis "debug" (VBool false) (VBool true)).
  reflexivity.
Defined.

(** C2 as worded fails on the boolean True: it is not a string, and
    [get_bool] returns True for it. *)
Lemma get_bool_true_on_boolean : ~ get_bool_as_specified bare_world.
Proof.
  intros H.
  destruct (H tree_with_redis "debug" (VBool false) (VBool true) eq_refl) as [_ Hfalse].
  specialize (Hfalse eq_refl). vm_compute in Hfalse. discriminate.
Qed.

(** ** C3: [get_int] *)

(** C3: [get_int] lets the [TypeError] of [int] through.  On a stored None,
    list, mapping (any value that is not an int, a bool or a string) it
    raises instead of returning the default. *)
Theorem get_int_raises_TypeError : forall W st path default v,
  get path default "." st = Ok v ->
  int_rejects_type v = true ->
  get_int W path default st = (Raise TypeError, st).
Proof.
  intros W st path default v Hget Hv. unfold get_int. rewrite Hget.
  destruct v; try discriminate; reflexivity.
Qed.

Lemma get_int_raises_TypeError_witness :
  get_int bare_world "workers" (VInt 2) tree_with_redis = (Raise TypeError, tree_with_redis).
Proof.
  apply (get_int_raises_TypeError bare_world tree_with_redis "workers" (VInt 2) VNone);
    reflexivity.
Defined.

(** What [get_int] does on the types [int] accepts: the integer, or the
    default together with one warning. *)
Lemma get_int_on_scalars : forall W st path default v,
  get path default "." st = Ok v ->
  int_rejects_type v = false ->
  (exists z, py_int W v = Ok z /\ get_int W path default st = (Ok (VInt z), st)) \/
  (py_int W v = Raise ValueError /\
   exists st', get_int W path default st = (Ok default, st') /\
               config st' = config st /\
               exists r, logs st' = (logs st ++ [r])%list /\ level r = "warning").
Proof.
  intros W st path default v Hget Hv. unfold get_int. rewrite Hget.
  destruct v; try discriminate; cbn [py_int].
  - left. eauto.
  - left. eauto.
  - destruct (int_of_str W s) as [z|].
    + left. eauto.
    + right. split; auto. unfold bind, log, ret. cbn.
      eexists. split; [reflexivity|]. split; [reflexivity|].
      eexists. split; reflexivity.
Qed.

(** ** C4 and C9: reading a path *)

Lemma get_path_walk_app : forall root cs1 node cs2 dflt,
  addresses root cs1 node ->
  get_path_walk root (cs1 ++ cs2) dflt = get_path_walk node cs2 dflt.
Proof.
  induction 1 as [root | d c child cs node Hget _ IH]; [reflexivity|].
  cbn [app]. rewrite get_path_walk_dict, Hget. exact IH.
Qed.

(** C4: [get_path_from_dict] raises when the path continues below a value
    cell: the cell is true and [comp in root] is not defined on it. *)
Theorem get_path_from_dict_raises_below_cell :
  forall root path sep dflt cs1 c cs2 x sty src,
    py_split path sep = Ok (cs1 ++ c :: cs2)%list ->
    addresses root cs1 (VAttr x sty src) ->
    get_path_from_dict root path sep dflt = Raise TypeError.
Proof.
  intros root path sep dflt cs1 c cs2 x sty src Hsplit Haddr.
  unfold get_path_from_dict. rewrite Hsplit. cbn [rbind].
  rewrite (get_path_walk_app _ _ _ (c :: cs2) dflt Haddr). reflexivity.
Qed.

Lemma get_path_from_dict_raises_below_cell_witness :
  get_path_from_dict (config tree_with_redis) "debug.level" "." VNone = Raise TypeError.
Proof.
  apply (get_path_from_dict_raises_below_cell (config tree_with_redis) "debug.level" "."
           VNone ["debug"] "level" [] (VBool true) UNSPECIFIED None).
  - reflexivity.
  - eapply addresses_step; [reflexivity | apply addresses_here].
Defined.

(** C9: on a path that addresses a mapping, [get] raises: the accessor
    returns the mapping and [.value] is not defined on it. *)
Theorem get_raises_on_mapping : forall st path default sep cs d,
  py_split path sep = Ok cs ->
  addresses (config st) cs (VDict d) ->
  get path default sep st = Raise (if is_attr default then RuntimeError else AttributeError).
Proof.
  intros st path default sep cs d Hsplit Haddr.
  unfold get, mkAttr. destruct (is_attr default); [reflexivity|].
  cbn [rbind]. unfold get_path_from_dict. rewrite Hsplit. cbn [rbind].
  rewrite (addresses_get_path_walk _ _ _ _ Haddr). reflexivity.
Qed.

Lemma get_raises_on_mapping_witness :
  get "redis" VNone "." tree_with_redis = Raise AttributeError.
Proof.
  apply (get_raises_on_mapping tree_with_redis "redis" VNone "." ["redis"]
           [("host", VAttr (VStr "redis") URI (Some "redis"));
            ("broker_url", VAttr (VStr "redis://r/1") ENV (Some "redis.broker_url"))]).
  - reflexivity.
  - eapply addresses_step; [reflexivity | apply addresses_here].
Defined.

(** ** The merge *)

Lemma update_unfold : forall W items root lg,
  update W root (VDict items) lg = update_items W items root lg.
Proof.
  intros W items. cbn [update].
  induction items as [|[key value] rest IH]; intros root lg; [reflexivity|].
  cbn [update_items].
  destruct value;
    try (destruct (resolve W _ lg) as [[c|e] lg']; [|reflexivity];
         destruct (py_setitem root key c); [apply IH | reflexivity]).
  destruct (py_get root key (VDict [])) as [child|]; [|reflexivity].
  destruct (update W child (VDict d) lg) as [[[[]|e] child'] lg']; [|reflexivity].
  destruct (py_setitem root key child'); [apply IH | reflexivity].
Qed.

Lemma update_not_mapping : forall W root updatee lg,
  is_dict updatee = false ->
  update W root updatee lg = (Raise AttributeError, root, lg).
Proof. intros W root updatee lg H. destruct updatee; try discriminate; reflexivity. Qed.

(** The cell [parse_uri] and [resolve] build does not depend on the log. *)
Lemma parse_uri_cell : forall W value lg,
  fst (parse_uri W value lg) = fst (parse_uri W value []).
Proof.
  intros W value lg. unfold parse_uri.
  destruct (urlparse W value) as [url|]; [|reflexivity].
  destruct (String.eqb (scheme url) "file"); [|reflexivity].
  destruct (open_file W (url_path url)); reflexivity.
Qed.

Lemma parse_uri_origin : forall W value lg fresh,
  fst (parse_uri W value lg) = Ok fresh ->
  exists x, fresh = VAttr x URI value.
Proof.
  intros W value lg fresh. unfold parse_uri.
  destruct (urlparse W value) as [url|]; [|discriminate].
  destruct (String.eqb (scheme url) "file");
    [destruct (open_file W (url_path url))|];
    cbn [fst]; intros H; inversion H; eauto.
Qed.

(** The exceptions [parse_uri] and [resolve] let through: [ValueError] from
    [urlparse] or from [open], [UnicodeDecodeError] from reading the file. *)
Lemma parse_uri_raises : forall W value lg e,
  fst (parse_uri W value lg) = Raise e -> e = ValueError \/ e = UnicodeDecodeError.
Proof.
  intros W value lg e. unfold parse_uri.
  destruct (urlparse W value) as [url|]; [|cbn; intros H; inversion H; auto].
  destruct (String.eqb (scheme url) "file");
    [destruct (open_file W (url_path url))|];
    cbn [fst]; intros H; inversion H; auto.
Qed.

Lemma resolve_raises : forall W v lg e,
  fst (resolve W v lg) = Raise e -> e = ValueError \/ e = UnicodeDecodeError.
Proof.
  intros W v lg e H. destruct v; cbn [resolve fst] in H; try discriminate.
  - eapply parse_uri_raises; eauto.
  - destruct v; cbn [fst] in H; try discriminate. eapply parse_uri_raises; eauto.
Qed.

Lemma resolve_cell : forall W v lg,
  fst (resolve W v lg) = fst (resolve W v []).
Proof.
  intros W v lg. destruct v; try reflexivity; cbn [resolve].
  - apply parse_uri_cell.
  - destruct v; try reflexivity. apply parse_uri_cell.
Qed.

(** One turn of the loop of [update] that ends normally. *)
Lemma update_items_step : forall W k v items root lg root' lg',
  update_items W ((k, v) :: items) root lg = (Ok tt, root', lg') ->
  exists d y lg1,
    root = VDict d /\
    update_items W items (VDict (dict_set k y d)) lg1 = (Ok tt, root', lg') /\
    (is_dict v = false -> fst (resolve W v lg) = Ok y) /\
    (is_dict v = true ->
       update W (match dict_get k d with Some child => child | None => VDict [] end) v lg
       = (Ok tt, y, lg1)).
Proof.
  intros W k v items root lg root' lg' H. cbn [update_items] in H.
  assert (Hleaf : is_dict v = false ->
                  match resolve W v lg with
                  | (Raise e, lg1) => (Raise e, root, lg1)
                  | (Ok c, lg1) =>
                      match py_setitem root k c with
                      | Ok r => update_items W items r lg1
                      | Raise e => (Raise e, root, lg1)
                      end
                  end = (Ok tt, root', lg') ->
                  exists d y lg1,
                    root = VDict d /\
                    update_items W items (VDict (dict_set k y d)) lg1 = (Ok tt, root', lg') /\
                    (is_dict v = false -> fst (resolve W v lg) = Ok y) /\
                    (is_dict v = true ->
                     update W (match dict_get k d with Some child => child | None => VDict [] end)
                       v lg = (Ok tt, y, lg1))).
  { intros Hv H'. destruct (resolve W v lg) as [[c|e] lg1] eqn:Er; [|discriminate H'].
    destruct root; try discriminate H'. cbn [py_setitem] in H'.
    exists d, c, lg1. repeat split; auto. congruence. }
  destruct v; try (apply Hleaf; [reflexivity | exact H]).
  clear Hleaf. destruct root; try discriminate H. cbn [py_get] in H.
  destruct (update W _ (VDict d) lg) as [[[[]|e] child'] lg1] eqn:Eu; [|discriminate].
  cbn [py_setitem] in H.
  exists d0, child', lg1. repeat split; auto. discriminate.
Qed.

Lemma update_items_frame : forall W items root lg root' lg' c rest dflt,
  update_items W items root lg = (Ok tt, root', lg') ->
  dict_get c items = None ->
  get_path_walk root' (c :: rest) dflt = get_path_walk root (c :: rest) dflt.
Proof.
  induction items as [|[k v] items IH]; intros root lg root' lg' c rest dflt H Hc.
  - cbn in H. inversion H. reflexivity.
  - cbn [dict_get] in Hc. destruct (String.eqb c k) eqn:E; [discriminate|].
    destruct (update_items_step _ _ _ _ _ _ _ _ H) as (d & y & lg1 & -> & H1 & _).
    rewrite (IH _ _ _ _ _ rest dflt H1 Hc).
    rewrite !get_path_walk_dict, dict_get_set_other; auto.
Qed.

(** ** C7: loading a file *)

Lemma resolve_raise_uri : forall W v lg e,
  fst (resolve W v lg) = Raise e ->
  exists s, fst (parse_uri W (Some s) []) = Raise e.
Proof.
  intros W v lg e H. destruct v; cbn [resolve fst] in H; try discriminate.
  - exists s. now rewrite <- (parse_uri_cell W (Some s) lg).
  - destruct v; cbn [fst] in H; try discriminate.
    exists s. now rewrite <- (parse_uri_cell W (Some s) lg).
Qed.

(** The exceptions that escape [update]: its own, or one the URI resolver
    raised on a string of the source. *)
Lemma update_raises_from : forall W updatee root lg e root' lg',
  update W root updatee lg = (Raise e, root', lg') ->
  e = TypeError \/ e = AttributeError \/
  exists s, fst (parse_uri W (Some s) []) = Raise e.
Proof.
  intros W updatee. induction updatee using pyval_nested_ind;
    intros root lg e root' lg' Hu;
    try (rewrite update_not_mapping in Hu by reflexivity; inversion Hu; auto).
  rewrite update_unfold in Hu. revert root lg Hu.
  induction H as [|[k v] items Hv _ IH]; intros root lg Hu.
  - discriminate.
  - cbn [update_items] in Hu. cbn [snd] in Hv.
    assert (Hleaf :
              match resolve W v lg with
              | (Raise e, lg1) => (Raise e, root, lg1)
              | (Ok c, lg1) =>
                  match py_setitem root k c with
                  | Ok r => update_items W items r lg1
                  | Raise e => (Raise e, root, lg1)
                  end
              end = (Raise e, root', lg') ->
              e = TypeError \/ e = AttributeError \/
              exists s, fst (parse_uri W (Some s) []) = Raise e).
    { intros H'. destruct (resolve W v lg) as [[c|e1] lg1] eqn:Er.
      - destruct root; cbn [py_setitem] in H'; try (inversion H'; auto; fail).
        eapply IH; eauto.
      - inversion H'; subst. right. right.
        apply (resolve_raise_uri W v lg). now rewrite Er. }
    destruct v; try (apply Hleaf; exact Hu). clear Hleaf.
    destruct root; cbn [py_get] in Hu; try (inversion Hu; auto; fail).
    destruct (update W _ (VDict d) lg) as [[[[]|e1] child'] lg1] eqn:Eu.
    + cbn [py_setitem] in Hu. eapply IH; eauto.
    + inversion Hu; subst. eapply Hv; eauto.
Qed.

Lemma update_raises : forall W updatee root lg e root' lg',
  update W root updatee lg = (Raise e, root', lg') ->
  e = TypeError \/ e = AttributeError \/ e = ValueError \/ e = UnicodeDecodeError.
Proof.
  intros W updatee root lg e root' lg' Hu.
  destruct (update_raises_from W updatee root lg e root' lg' Hu) as [H|[H|[s H]]]; auto.
  right. right. eapply parse_uri_raises; eauto.
Qed.

(** C7: with a [Path] argument (what [__init__] passes) a permission error on
    open does not end in a warning.  The handler hands the [Path] object to
    [log], [dumps] cannot serialise it, and [update_from_file] raises
    [TypeError] with nothing logged. *)
Theorem update_from_file_permission_denied : forall W st name msg,
  open_file W name = PermissionDenied msg ->
  update_from_file W (VPath name) st = (Raise TypeError, st).
Proof.
  intros W st name msg H. unfold update_from_file. cbn [fspath]. rewrite H. reflexivity.
Qed.

Lemma update_from_file_permission_denied_witness :
  update_from_file world_unreadable (VPath "/etc/authentik/config.yml") tree_with_geoip
  = (Raise TypeError, tree_with_geoip).
Proof.
  apply (update_from_file_permission_denied world_unreadable tree_with_geoip
           "/etc/authentik/config.yml" "[Errno 13] Permission denied").
  reflexivity.
Defined.

(** With the file name given as a string the handler does what the
    specification says: one warning, the tree unchanged, a normal return. *)
Lemma update_from_file_permission_denied_str : forall W st name msg,
  open_file W name = PermissionDenied msg ->
  update_from_file W (VStr name) st =
  (Ok tt, mkState (config st)
            (logs st ++ [mkLog "warning" "Permission denied while reading file"
                           [("path", VStr name); ("error", VStr msg)]])%list).
Proof.
  intros W st name msg H. unfold update_from_file. cbn [fspath]. rewrite H. reflexivity.
Qed.

(** [ImproperlyConfigured] is raised exactly when the file is read and
    [yaml.safe_load] refuses its text with a [YAMLError]. *)
Lemma update_from_file_improperly_configured : forall W path st,
  (exists st', update_from_file W path st = (Raise ImproperlyConfigured, st')) <->
  (exists name contents,
     fspath path = Ok name /\ open_file W name = Opened contents /\
     yaml_safe_load W contents = Malformed).
Proof.
  intros W path st. unfold update_from_file. split.
  - intros [st' H].
    destruct (fspath path) as [name|e] eqn:Ef;
      [|destruct path; cbn in Ef; inversion Ef; subst; discriminate].
    exists name.
    destruct (open_file W name) as [contents|msg|msg| |] eqn:Eo; try discriminate.
    + exists contents.
      destruct (yaml_safe_load W contents) as [document| |] eqn:Ey;
        [|auto|discriminate].
      exfalso. unfold bind, update_config, log in H.
      destruct (update W (config st) document (logs st)) as [[[[]|e] root'] lg'] eqn:Eu.
      * cbn in H. discriminate.
      * inversion H; subst.
        destruct (update_raises _ _ _ _ _ _ _ Eu) as [|[|[|]]]; discriminate.
    + exfalso. unfold log in H.
      destruct (forallb _ _); discriminate.
  - intros (name & contents & -> & -> & ->). eauto.
Qed.

(** ** C5: precedence of merges *)

Lemma no_dup_keys_absent : forall k (v : pyval) items,
  no_dup_keys (map fst ((k, v) :: items)) = true -> dict_get k items = None.
Proof.
  intros k v items H. cbn in H. apply andb_true_iff in H as [H _].
  induction items as [|[k' v'] items IH]; [reflexivity|].
  cbn in *. destruct (String.eqb k k'); [discriminate|]. apply IH. exact H.
Qed.

Lemma unique_keys_cons : forall k v items,
  unique_keys (VDict ((k, v) :: items)) = true ->
  unique_keys v = true /\ unique_keys (VDict items) = true /\ dict_get k items = None.
Proof.
  intros k v items H. pose proof H as H0. cbn in H.
  apply andb_true_iff in H as [H1 H2]. apply andb_true_iff in H1 as [_ H1].
  apply andb_true_iff in H2 as [H2 H3].
  repeat split; auto.
  - cbn. now rewrite H1, H3.
  - cbn [unique_keys] in H0. apply andb_true_iff in H0 as [H0 _].
    eapply no_dup_keys_absent; eauto.
Qed.

Lemma leaf_of_not_dict : forall v rest x,
  is_dict v = false -> leaf_of v rest = Some x -> rest = [] /\ x = v.
Proof.
  intros v [|c rest] x Hv H.
  - cbn in H. rewrite Hv in H. inversion H. auto.
  - destruct v; try discriminate.
Qed.

Lemma untouched_is_dict : forall v cs, untouched v cs = true -> is_dict v = true.
Proof. intros v cs H. destruct v; destruct cs; try discriminate H; reflexivity. Qed.

(** After a merge that ends normally, a leaf the source defines is in the
    tree, as resolved. *)
Lemma update_leaf : forall W updatee root lg root' lg' cs x dflt,
  unique_keys updatee = true ->
  update W root updatee lg = (Ok tt, root', lg') ->
  leaf_of updatee cs = Some x ->
  exists stored,
    fst (resolve W x []) = Ok stored /\ get_path_walk root' cs dflt = Ok stored.
Proof.
  intros W updatee. induction updatee using pyval_nested_ind;
    intros root lg root' lg' cs x dflt Hu Hup Hleaf;
    try (rewrite update_not_mapping in Hup by reflexivity; discriminate).
  rewrite update_unfold in Hup.
  destruct cs as [|c rest]; [discriminate|]. cbn [leaf_of] in Hleaf.
  revert root lg Hup Hu Hleaf.
  induction H as [|[k v] items Hv _ IH]; intros root lg Hup Hu Hleaf; [discriminate|].
  cbn [snd] in Hv.
  destruct (unique_keys_cons _ _ _ Hu) as (Huv & Hui & Hk).
  destruct (update_items_step _ _ _ _ _ _ _ _ Hup) as (d0 & y & lg1 & -> & H1 & Hy1 & Hy2).
  cbn [dict_get] in Hleaf. destruct (String.eqb c k) eqn:E.
  - apply String.eqb_eq in E. subst c.
    rewrite (update_items_frame _ _ _ _ _ _ _ rest dflt H1 Hk).
    rewrite get_path_walk_dict, dict_get_set_same.
    destruct (is_dict v) eqn:Ed.
    + eapply Hv; eauto.
    + destruct (leaf_of_not_dict _ _ _ Ed Hleaf) as [-> ->].
      exists y. split; [rewrite <- (resolve_cell W v lg); exact (Hy1 eq_refl) | reflexivity].
  - eapply IH; eauto.
Qed.

(** A merge that ends normally leaves alone every path that leaves the
    source at a key the source does not have. *)
Lemma update_untouched : forall W updatee root lg root' lg' cs dflt,
  unique_keys updatee = true ->
  update W root updatee lg = (Ok tt, root', lg') ->
  untouched updatee cs = true ->
  get_path_walk root' cs dflt = get_path_walk root cs dflt.
Proof.
  intros W updatee. induction updatee using pyval_nested_ind;
    intros root lg root' lg' cs dflt Hu Hup Hun;
    try (rewrite update_not_mapping in Hup by reflexivity; discriminate).
  rewrite update_unfold in Hup.
  destruct cs as [|c rest]; [discriminate|]. cbn [untouched] in Hun.
  revert root lg Hup Hu Hun.
  induction H as [|[k v] items Hv _ IH]; intros root lg Hup Hu Hun.
  - cbn in Hup. inversion Hup. reflexivity.
  - cbn [snd] in Hv.
    destruct (unique_keys_cons _ _ _ Hu) as (Huv & Hui & Hk).
    destruct (update_items_step _ _ _ _ _ _ _ _ Hup) as (d0 & y & lg1 & -> & H1 & Hy1 & Hy2).
    cbn [dict_get] in Hun. destruct (String.eqb c k) eqn:E.
    + apply String.eqb_eq in E. subst c.
      rewrite (update_items_frame _ _ _ _ _ _ _ rest dflt H1 Hk).
      rewrite !get_path_walk_dict, dict_get_set_same.
      pose proof (untouched_is_dict _ _ Hun) as Hd.
      destruct v; try discriminate Hd.
      rewrite (Hv _ _ _ _ rest dflt Huv (Hy2 eq_refl) Hun).
      destruct (dict_get k d0); [reflexivity|].
      apply get_path_walk_empty_dict. destruct rest; [discriminate | congruence].
    + rewrite (IH _ _ H1 Hui Hun).
      rewrite !get_path_walk_dict, dict_get_set_other; auto.
Qed.

(** C5.  Two sources merged in order with [update], both merges ending
    normally: at a path where both define a non-mapping value the tree holds
    the later source's value, as resolved; a leaf of the earlier source at a
    path that leaves the later source at a key it does not have is left as
    the earlier merge made it. *)
Theorem update_precedence :
  forall W root s1 s2 lg root1 lg1 root2 lg2 path sep cs dflt,
    unique_keys s1 = true ->
    unique_keys s2 = true ->
    update W root s1 lg = (Ok tt, root1, lg1) ->
    update W root1 s2 lg1 = (Ok tt, root2, lg2) ->
    py_split path sep = Ok cs ->
    (forall v1 v2,
        leaf_of s1 cs = Some v1 -> leaf_of s2 cs = Some v2 ->
        exists stored,
          fst (resolve W v2 []) = Ok stored /\
          get_path_from_dict root2 path sep dflt = Ok stored) /\
    (forall v1,
        leaf_of s1 cs = Some v1 -> untouched s2 cs = true ->
        get_path_from_dict root2 path sep dflt = get_path_from_dict root1 path sep dflt /\
        exists stored,
          fst (resolve W v1 []) = Ok stored /\
          get_path_from_dict root1 path sep dflt = Ok stored).
Proof.
  intros W root s1 s2 lg root1 lg1 root2 lg2 path sep cs dflt Hu1 Hu2 H1 H2 Hsplit.
  unfold get_path_from_dict. rewrite Hsplit. cbn [rbind]. split.
  - intros v1 v2 _ Hl2. exact (update_leaf W s2 root1 lg1 root2 lg2 cs v2 dflt Hu2 H2 Hl2).
  - intros v1 Hl1 Hun. split.
    + exact (update_untouched W s2 root1 lg1 root2 lg2 cs dflt Hu2 H2 Hun).
    + exact (update_leaf W s1 root lg root1 lg1 cs v1 dflt Hu1 H1 Hl1).
Qed.

Lemma update_precedence_witness :
  get_path_from_dict (fst after_local_yml) "postgresql.host" "." VNone
  = Ok (VAttr (VStr "db") URI (Some "db")) /\
  get_path_from_dict (fst after_local_yml) "postgresql.port" "." VNone
  = Ok (VAttr (VInt 5432) UNSPECIFIED None).
Proof.
  split.
  - destruct (update_precedence bare_world (VDict []) default_yml local_yml []
                (fst after_default_yml) (snd after_default_yml)
                (fst after_local_yml) (snd after_local_yml)
                "postgresql.host" "." ["postgresql"; "host"] VNone
                eq_refl eq_refl eq_refl eq_refl eq_refl) as [Hlater _].
    destruct (Hlater (VStr "localhost") (VStr "db") eq_refl eq_refl)
      as (stored & Hstored & Hget).
    vm_compute in Hstored. inversion Hstored; subst stored. exact Hget.
  - destruct (update_precedence bare_world (VDict []) default_yml local_yml []
                (fst after_default_yml) (snd after_default_yml)
                (fst after_local_yml) (snd after_local_yml)
                "postgresql.port" "." ["postgresql"; "port"] VNone
                eq_refl eq_refl eq_refl eq_refl eq_refl) as [_ Hkept].
    destruct (Hkept (VInt 5432) eq_refl eq_refl) as [Esame (stored & Hstored & Eearlier)].
    vm_compute in Hstored. inversion Hstored; subst stored.
    exact (eq_trans Esame Eearlier).
Defined.

(** ** C6: provenance of environment variables *)

Lemma get_addresses : forall p root dflt n,
  get_path_walk root p dflt = Ok n -> n <> dflt -> addresses root p n.
Proof.
  induction p as [|c p IH]; intros root dflt n H Hn.
  - cbn in H. inversion H. constructor.
  - destruct (is_dict root) eqn:Ed.
    + destruct root; try discriminate. rewrite get_path_walk_dict in H.
      destruct (dict_get c d) as [child|] eqn:E; [|congruence].
      econstructor; eauto.
    + exfalso. destruct root; try discriminate Ed; cbn [get_path_walk] in H;
        try (destruct (truthy _); cbn in H; congruence).
      * destruct (truthy (VStr s)); [|congruence]. cbn in H.
        destruct (is_substring c s); cbn in H; congruence.
      * destruct (truthy (VList l)); [|congruence]. cbn [contains rbind] in H.
        destruct (existsb _ l); cbn in H; congruence.
Qed.

Lemma addresses_leaf_of : forall root p n,
  addresses root p n -> is_dict n = false -> leaf_of root p = Some n.
Proof.
  induction 1 as [root | d c child cs node Hget _ IH]; intros Hn.
  - cbn. now rewrite Hn.
  - cbn [leaf_of]. rewrite Hget. auto.
Qed.

(** A write whose path continues below a leaf raises. *)
Lemma set_blocked_by_leaf : forall root p n,
  addresses root p n ->
  is_dict n = false ->
  forall init last v,
    is_prefix p init = true ->
    exists e, set_path_walk root init last v = Raise e.
Proof.
  induction 1 as [root | d c child cs node Hget _ IH]; intros Hn init last v Hp.
  - apply set_path_walk_not_dict. exact Hn.
  - destruct init as [|c' init]; [discriminate|]. cbn in Hp.
    apply andb_true_iff in Hp as [Ec Hp]. apply String.eqb_eq in Ec. subst c'.
    rewrite set_path_walk_dict, Hget.
    destruct (IH Hn init last v Hp) as [e ->]. cbn. eauto.
Qed.

Lemma continues_below : forall p init last,
  diverge (init ++ [last]) p = false ->
  is_prefix (init ++ [last]) p = false ->
  is_prefix p init = true.
Proof.
  induction p as [|a p IH]; intros init last Hd Hp; [reflexivity|].
  destruct init as [|b init]; cbn in Hd, Hp.
  - destruct (String.eqb last a); [discriminate Hp | discriminate Hd].
  - destruct (String.eqb b a) eqn:E; [|discriminate Hd].
    cbn. rewrite String.eqb_sym, E. cbn. eapply IH; eauto.
Qed.

(** A write that ends normally keeps every leaf whose path it does not
    reach or pass. *)
Lemma set_keeps_leaf : forall root init last v root' p n,
  set_path_walk root init last v = Ok root' ->
  addresses root p n ->
  is_dict n = false ->
  is_prefix (init ++ [last]) p = false ->
  addresses root' p n.
Proof.
  intros root init last v root' p n Hs Ha Hn Hp.
  destruct (diverge (init ++ [last]) p) eqn:Hd.
  - apply get_addresses with (dflt := VDict []).
    + rewrite (set_frame _ _ _ _ _ _ (VDict []) Hs Hd).
      apply addresses_get_path_walk. exact Ha.
    + intros ->. discriminate.
  - destruct (set_blocked_by_leaf _ _ _ Ha Hn init last v (continues_below _ _ _ Hd Hp))
      as [e He].
    congruence.
Qed.

Lemma set_addresses : forall root init last v root',
  set_path_walk root init last v = Ok root' ->
  is_dict v = false ->
  addresses root' (init ++ [last]) v.
Proof.
  intros root init last v root' Hs Hv.
  apply get_addresses with (dflt := VDict []).
  - eapply set_then_get; eauto.
  - intros ->. discriminate.
Qed.

(** *** Unique keys are kept by writes *)

Lemma dict_set_keys_mem : forall a k v d,
  existsb (String.eqb a) (map fst (dict_set k v d))
  = existsb (String.eqb a) (map fst d) || String.eqb a k.
Proof.
  induction d as [|[k0 v0] d IH]; cbn.
  - now rewrite orb_false_r.
  - destruct (String.eqb k k0) eqn:E; cbn.
    + apply String.eqb_eq in E. subst k0.
      destruct (String.eqb a k); cbn; [reflexivity | now rewrite orb_false_r].
    + rewrite IH. now rewrite orb_assoc.
Qed.

Lemma dict_set_no_dup : forall k v d,
  no_dup_keys (map fst d) = true -> no_dup_keys (map fst (dict_set k v d)) = true.
Proof.
  induction d as [|[k0 v0] d IH]; cbn; intros H; [reflexivity|].
  apply andb_true_iff in H as [H1 H2].
  destruct (String.eqb k k0) eqn:E; cbn.
  - now rewrite H1, H2.
  - rewrite dict_set_keys_mem, (String.eqb_sym k0 k), E, orb_false_r, H1. cbn. auto.
Qed.

Lemma dict_set_forallb : forall (P : pyval -> bool) k v d,
  forallb (fun kv => P (snd kv)) d = true -> P v = true ->
  forallb (fun kv => P (snd kv)) (dict_set k v d) = true.
Proof.
  induction d as [|[k0 v0] d IH]; cbn; intros H Hv.
  - now rewrite Hv.
  - apply andb_true_iff in H as [H1 H2].
    destruct (String.eqb k k0); cbn.
    + now rewrite Hv, H2.
    + rewrite H1. cbn. auto.
Qed.

Lemma dict_get_forallb : forall (P : pyval -> bool) c d child,
  forallb (fun kv => P (snd kv)) d = true -> dict_get c d = Some child -> P child = true.
Proof.
  induction d as [|[k0 v0] d IH]; cbn; intros child H Hg; [discriminate|].
  apply andb_true_iff in H as [H1 H2].
  destruct (String.eqb c k0); [inversion Hg; subst; exact H1 | eauto].
Qed.

Lemma unique_keys_set : forall k v d,
  unique_keys (VDict d) = true -> unique_keys v = true ->
  unique_keys (VDict (dict_set k v d)) = true.
Proof.
  intros k v d H Hv. cbn [unique_keys] in *. apply andb_true_iff in H as [H1 H2].
  rewrite dict_set_no_dup by exact H1. cbn.
  apply (dict_set_forallb unique_keys); auto.
Qed.

Lemma unique_keys_get : forall c d child,
  unique_keys (VDict d) = true -> dict_get c d = Some child -> unique_keys child = true.
Proof.
  intros c d child H Hg. cbn [unique_keys] in H. apply andb_true_iff in H as [_ H].
  eapply (dict_get_forallb unique_keys); eauto.
Qed.

Lemma set_path_walk_unique : forall init root last v root',
  set_path_walk root init last v = Ok root' ->
  unique_keys root = true -> unique_keys v = true -> unique_keys root' = true.
Proof.
  induction init as [|c init IH]; intros root last v root' H Hu Hv.
  - destruct root; try discriminate. cbn in H. inversion H; subst.
    apply unique_keys_set; auto.
  - destruct (set_path_walk_is_dict _ _ _ _ _ H) as [Hd _].
    destruct root; try discriminate.
    rewrite set_path_walk_dict in H.
    destruct (dict_get c d) as [child|] eqn:Ec.
    + destruct (set_path_walk child init last v) as [child'|] eqn:E; cbn in H; inversion H; subst.
      apply unique_keys_set; auto. eapply IH; eauto. eapply unique_keys_get; eauto.
    + destruct (set_path_walk (VDict []) init last v) as [child'|] eqn:E; cbn in H; inversion H; subst.
      apply unique_keys_set; auto. eapply IH; eauto.
Qed.

(** *** The ingestion loop *)

Lemma ingest_env_skip : forall W key raw rest outer idx,
  String.prefix ENV_PREFIX key = false ->
  ingest_env W ((key, raw) :: rest) outer idx = ingest_env W rest outer idx.
Proof. intros. cbn [ingest_env]. rewrite H. reflexivity. Qed.

Lemma loads_or_keep_value : forall W raw v,
  loads_or_keep W raw = Ok v -> v = ingested_value W raw.
Proof.
  intros W raw v. unfold loads_or_keep, ingested_value.
  destruct (json_loads W raw); intros H; inversion H; reflexivity.
Qed.

(** One prefixed variable taken in. *)
Lemma ingest_env_take : forall W key raw rest outer idx r,
  String.prefix ENV_PREFIX key = true ->
  ingest_env W ((key, raw) :: rest) outer idx = Ok r ->
  exists outer1,
    loads_or_keep W raw = Ok (ingested_value W raw) /\
    is_attr (ingested_value W raw) = false /\
    set_path_walk outer (removelast (dot_parts (relative_key_of W key)))
      (last (dot_parts (relative_key_of W key)) "")
      (VAttr (ingested_value W raw) ENV (Some (relative_key_of W key))) = Ok outer1 /\
    ingest_env W rest outer1 (idx + 1)%Z = Ok r.
Proof.
  intros W key raw rest outer idx r Hp H. cbn [ingest_env] in H. rewrite Hp in H.
  cbn [negb] in H.
  destruct (loads_or_keep W raw) as [v|] eqn:El; [|discriminate].
  rewrite (loads_or_keep_value W raw v El) in *.
  cbn [rbind] in H. unfold mkAttr in H.
  destruct (is_attr (ingested_value W raw)); [discriminate|]. cbn [rbind] in H.
  unfold set_path_in_dict in H. cbn [py_split String.eqb rbind] in H.
  fold (dot_parts (relative_key_of W key)) in H.
  destruct (set_path_walk outer _ _ _) as [outer1|] eqn:Es; [|discriminate].
  cbn [rbind] in H. eauto.
Qed.

Lemma ingest_env_app : forall W l1 l2 outer idx r,
  ingest_env W (l1 ++ l2) outer idx = Ok r ->
  exists outer1 idx1,
    ingest_env W l1 outer idx = Ok (outer1, idx1) /\
    ingest_env W l2 outer1 idx1 = Ok r.
Proof.
  induction l1 as [|[key raw] l1 IH]; intros l2 outer idx r H.
  - cbn. eauto.
  - cbn [app] in H. destruct (String.prefix ENV_PREFIX key) eqn:Hp.
    + destruct (ingest_env_take _ _ _ _ _ _ _ Hp H) as (outer1 & Hl & Hv & Hs & Hrest).
      destruct (IH _ _ _ _ Hrest) as (outer2 & idx2 & H1 & H2).
      exists outer2, idx2. split; auto.
      cbn [ingest_env]. rewrite Hp. cbn [negb]. rewrite Hl. cbn [rbind].
      unfold mkAttr. rewrite Hv. cbn [rbind]. unfold set_path_in_dict.
      cbn [py_split String.eqb rbind]. fold (dot_parts (relative_key_of W key)).
      rewrite Hs. cbn [rbind]. exact H1.
    + rewrite ingest_env_skip in H by exact Hp.
      destruct (IH _ _ _ _ H) as (outer2 & idx2 & H1 & H2).
      exists outer2, idx2. split; auto. now rewrite ingest_env_skip.
Qed.

Lemma ingest_env_invariant : forall W l outer idx outer' idx',
  ingest_env W l outer idx = Ok (outer', idx') ->
  (idx <= idx')%Z /\
  (unique_keys outer = true -> unique_keys outer' = true) /\
  (forall p n,
      addresses outer p n -> is_dict n = false ->
      (forall key raw, In (key, raw) l -> String.prefix ENV_PREFIX key = true ->
                       is_prefix (dot_parts (relative_key_of W key)) p = false) ->
      addresses outer' p n).
Proof.
  induction l as [|[key raw] l IH]; intros outer idx outer' idx' H.
  - cbn in H. inversion H; subst. repeat split; auto. lia.
  - destruct (String.prefix ENV_PREFIX key) eqn:Hp.
    + destruct (ingest_env_take _ _ _ _ _ _ _ Hp H) as (outer1 & _ & Hv & Hs & Hrest).
      destruct (IH _ _ _ _ Hrest) as (Hidx & Hu & Hf).
      repeat split.
      * lia.
      * intros Huo. apply Hu. eapply set_path_walk_unique; eauto.
      * intros p n Ha Hn Hlater. apply Hf; auto.
        -- eapply set_keeps_leaf; eauto.
           rewrite <- dot_parts_snoc. apply (Hlater key raw); auto. now left.
        -- intros key' raw' Hin Hpk. apply (Hlater key' raw'); auto. now right.
    + rewrite ingest_env_skip in H by exact Hp.
      destruct (IH _ _ _ _ H) as (Hidx & Hu & Hf).
      repeat split; auto.
      intros p n Ha Hn Hlater. apply Hf; auto.
      intros key' raw' Hin Hpk. apply (Hlater key' raw'); auto. now right.
Qed.

(** C6, amended.  After [update_from_env] returns normally, take a prefixed
    variable that no later prefixed variable overrides (none derives the same
    dotted path or an ancestor of it).  If the value ingested for it is not a
    string, the cell at its dotted path has origin [ENV] and that path as
    detail.  If it is a string, the cell is the one the URI resolver builds
    on merge: origin [URI], detail the string itself. *)
Theorem update_from_env_provenance : forall W st st' before key raw after,
  update_from_env W st = (Ok tt, st') ->
  environ W = (before ++ (key, raw) :: after)%list ->
  String.prefix ENV_PREFIX key = true ->
  (forall key' raw',
      In (key', raw') after -> String.prefix ENV_PREFIX key' = true ->
      is_prefix (dot_parts (relative_key_of W key')) (dot_parts (relative_key_of W key))
      = false) ->
  exists stored,
    get_path_from_dict (config st') (relative_key_of W key) "." VNone = Ok stored /\
    (is_str (ingested_value W raw) = false ->
     stored = VAttr (ingested_value W raw) ENV (Some (relative_key_of W key))) /\
    (forall s, ingested_value W raw = VStr s ->
               fst (parse_uri W (Some s) []) = Ok stored /\
               exists x, stored = VAttr x URI (Some s)).
Proof.
  intros W st st' before key raw after H Henv Hp Hlater.
  unfold update_from_env in H. rewrite Henv in H.
  destruct (ingest_env W (before ++ (key, raw) :: after) (VDict []) 0)
    as [[outer idx]|] eqn:Ei; [|discriminate].
  destruct (ingest_env_app _ _ _ _ _ _ Ei) as (outer1 & idx1 & H1 & H2).
  destruct (ingest_env_take _ _ _ _ _ _ _ Hp H2) as (outer2 & _ & Hv & Hs & H3).
  destruct (ingest_env_invariant _ _ _ _ _ _ H1) as (Hi1 & Hu1 & _).
  destruct (ingest_env_invariant _ _ _ _ _ _ H3) as (Hi3 & Hu3 & Hf3).
  set (p := relative_key_of W key) in *.
  set (attr := VAttr (ingested_value W raw) ENV (Some p)) in *.
  assert (Haddr : addresses outer (dot_parts p) attr).
  { apply Hf3; auto.
    rewrite (dot_parts_snoc p). eapply set_addresses; eauto. }
  assert (Huo : unique_keys outer = true).
  { apply Hu3. eapply set_path_walk_unique; eauto. }
  assert (Hpos : (0 <? idx)%Z = true) by (apply Z.ltb_lt; lia).
  rewrite Hpos in H. unfold bind, log, update_config in H.
  cbn [forallb snd json_serializable andb config logs] in H.
  destruct (update W (config st) outer _) as [[r root'] lg'] eqn:Eu.
  inversion H; subst r st'. cbn [config].
  destruct (update_leaf W outer _ _ _ _ (dot_parts p) attr VNone Huo Eu
              (addresses_leaf_of _ _ _ Haddr eq_refl)) as (stored & Hres & Hget).
  exists stored.
  unfold get_path_from_dict. cbn [py_split String.eqb rbind].
  fold (dot_parts p). split; [exact Hget|]. split.
  - intros Hstr. unfold attr in Hres. cbn [resolve] in Hres.
    destruct (ingested_value W raw); try discriminate Hstr;
      cbn [fst] in Hres; inversion Hres; reflexivity.
  - intros s Es. unfold attr in Hres. rewrite Es in Hres. cbn [resolve] in Hres.
    split; [exact Hres|]. eapply parse_uri_origin; eauto.
Qed.

Lemma update_from_env_provenance_witness :
  exists stored,
    get_path_from_dict (config (snd (update_from_env world_with_env tree_with_geoip)))
      "web.workers" "." VNone = Ok stored /\
    (is_str (VInt 2) = false -> stored = VAttr (VInt 2) ENV (Some "web.workers")) /\
    (forall s, VInt 2 = VStr s ->
               fst (parse_uri world_with_env (Some s) []) = Ok stored /\
               exists x, stored = VAttr x URI (Some s)).
Proof.
  apply (update_from_env_provenance world_with_env tree_with_geoip
           (snd (update_from_env world_with_env tree_with_geoip))
           [("AUTHENTIK_POSTGRESQL__HOST", "localhost"); ("HOME", "/root")]
           "AUTHENTIK_WEB__WORKERS" "2" []).
  - reflexivity.
  - reflexivity.
  - reflexivity.
  - intros key' raw' [].
Defined.

(** C6 as worded fails on a variable whose value is a string: on merge the
    cell is replaced by the URI resolver's, with origin [URI]. *)
Lemma update_from_env_string_gets_uri_origin :
  update_from_env world_with_env tree_with_geoip
  = (Ok tt, snd (update_from_env world_with_env tree_with_geoip)) /\
  get_path_from_dict (config (snd (update_from_env world_with_env tree_with_geoip)))
    "postgresql.host" "." VNone
  = Ok (VAttr (VStr "localhost") URI (Some "localhost")) /\
  ~ env_provenance_kept world_with_env
      (snd (update_from_env world_with_env tree_with_geoip)).
Proof.
  split; [reflexivity|]. split; [reflexivity|].
  intros H.
  destruct (H "AUTHENTIK_POSTGRESQL__HOST" "localhost") as [v Hv].
  - left. reflexivity.
  - reflexivity.
  - vm_compute in Hv. discriminate.
Qed.

(** ** C8 and C10: [set], [patch] and [refresh] *)

Lemma config_tree_child : forall c d child,
  config_tree (VDict d) = true -> dict_get c d = Some child -> config_tree child = true.
Proof. intros c d child H Hg. eapply (dict_get_forallb config_tree); eauto. Qed.

(** In a config tree, a path that can be read can be written. *)
Lemma tree_settable : forall init root last dflt n,
  config_tree root = true ->
  is_dict root = true ->
  get_path_walk root (init ++ [last]) dflt = Ok n ->
  settable root init = true.
Proof.
  induction init as [|c init IH]; intros root last dflt n Ht Hd Hg;
    destruct root; try discriminate; [reflexivity|].
  cbn [settable]. cbn [app] in Hg. rewrite get_path_walk_dict in Hg.
  destruct (dict_get c d) as [child|] eqn:Ec; [|reflexivity].
  pose proof (config_tree_child _ _ _ Ht Ec) as Htc.
  destruct child; try discriminate Htc.
  - eapply IH; eauto.
  - destruct init; discriminate Hg.
Qed.

(** In a config tree, what [get] unwraps is not itself a cell. *)
Lemma tree_value_plain : forall cs root dv a x,
  config_tree root = true ->
  is_attr dv = false ->
  get_path_walk root cs (VAttr dv UNSPECIFIED None) = Ok a ->
  attr_value a = Ok x ->
  is_attr x = false.
Proof.
  induction cs as [|c cs IH]; intros root dv a x Ht Hdv Hg Ha.
  - cbn in Hg. inversion Hg; subst a.
    destruct root; try discriminate. cbn in Ha, Ht. inversion Ha; subst.
    now apply negb_true_iff.
  - destruct root; try discriminate Ht.
    + rewrite get_path_walk_dict in Hg.
      destruct (dict_get c d) as [child|] eqn:Ec.
      * apply (IH child dv a x); auto. eapply config_tree_child; eauto.
      * inversion Hg; subst a. cbn in Ha. inversion Ha; subst. exact Hdv.
    + discriminate Hg.
Qed.

Lemma settable_set : forall init root last v,
  settable root init = true ->
  exists root', set_path_walk root init last v = Ok root'.
Proof.
  induction init as [|c init IH]; intros root last v H;
    destruct root; try discriminate.
  - cbn. eauto.
  - rewrite set_path_walk_dict. cbn [settable] in H.
    destruct (dict_get c d) as [child|].
    + destruct (IH child last v H) as [child' ->]. cbn. eauto.
    + destruct (set_path_walk_fresh init last v) as [d' ->]. cbn. eauto.
Qed.

Lemma set_dot : forall path v st,
  is_attr v = false ->
  set path v "." st =
  match set_path_walk (config st) (removelast (dot_parts path)) (last (dot_parts path) "")
          (VAttr v UNSPECIFIED None) with
  | Ok root' => (Ok tt, mkState root' (logs st))
  | Raise e => (Raise e, st)
  end.
Proof.
  intros path v st H. unfold set, mkAttr, set_path_in_dict. rewrite H. reflexivity.
Qed.

(** Whatever was at the path, [set] leaves a cell of unspecified origin. *)
Lemma set_stores_unspecified_cell : forall path value sep st st' dflt,
  set path value sep st = (Ok tt, st') ->
  get_path_from_dict (config st') path sep dflt = Ok (VAttr value UNSPECIFIED None).
Proof.
  intros path value sep st st' dflt H. unfold set, mkAttr, set_path_in_dict in H.
  destruct (is_attr value); [discriminate|]. cbn [rbind] in H.
  unfold get_path_from_dict. unfold py_split in *.
  destruct (String.eqb sep ""); [discriminate|]. cbn [rbind] in *.
  destruct (set_path_walk (config st) _ _ _) as [root'|] eqn:Es; inversion H; subst.
  cbn [config].
  rewrite (app_removelast_last "" (split_from_nonempty sep path 0)).
  eapply set_then_get; eauto.
Qed.

(** [refresh] on a cell of unspecified origin changes nothing. *)
Lemma refresh_unspecified : forall W key st v src,
  get_path_from_dict (config st) key "." VNone = Ok (VAttr v UNSPECIFIED src) ->
  refresh W key st = (Ok tt, st).
Proof. intros W key st v src H. unfold refresh. rewrite H. reflexivity. Qed.

(** A whole [with patch(path, value)] block, on a config tree whose path can
    be read, with a body that leaves the path writable. *)
Lemma patch_cycle : forall path value body st x,
  is_dict (config st) = true ->
  config_tree (config st) = true ->
  get path VNone "." st = Ok x ->
  is_attr value = false ->
  (forall st1, set path value "." st = (Ok tt, st1) ->
               settable (config (snd (body st1))) (removelast (dot_parts path)) = true) ->
  exists st1 st',
    set path value "." st = (Ok tt, st1) /\
    patch path value body st = (fst (body st1), st') /\
    set path x "." (snd (body st1)) = (Ok tt, st').
Proof.
  intros path value body st x Hd Ht Hget Hv Hbody.
  pose proof Hget as Hget0.
  rewrite get_dot in Hget by reflexivity.
  destruct (get_path_walk (config st) (dot_parts path) (VAttr VNone UNSPECIFIED None))
    as [a|] eqn:Eg; [|discriminate]. cbn [rbind] in Hget.
  assert (Hx : is_attr x = false)
    by exact (tree_value_plain _ _ VNone a x Ht eq_refl Eg Hget).
  assert (Hs : settable (config st) (removelast (dot_parts path)) = true).
  { rewrite (dot_parts_snoc path) in Eg. eapply tree_settable; eauto. }
  destruct (settable_set _ _ (last (dot_parts path) "") (VAttr value UNSPECIFIED None) Hs)
    as [root1 Es1].
  assert (Hset1 : set path value "." st = (Ok tt, mkState root1 (logs st)))
    by (rewrite set_dot, Es1; auto).
  specialize (Hbody _ Hset1).
  destruct (settable_set _ _ (last (dot_parts path) "") (VAttr x UNSPECIFIED None) Hbody)
    as [root3 Es3].
  exists (mkState root1 (logs st)), (mkState root3 (logs (snd (body (mkState root1 (logs st)))))).
  assert (Hset3 : set path x "." (snd (body (mkState root1 (logs st))))
                  = (Ok tt, mkState root3 (logs (snd (body (mkState root1 (logs st)))))))
    by (rewrite set_dot, Es3; auto).
  repeat split; auto.
  unfold patch. rewrite Hget0, Hset1.
  destruct (body (mkState root1 (logs st))) as [outcome st2] eqn:Eb.
  cbn [snd fst] in *. rewrite Hset3. reflexivity.
Qed.

Lemma set_raise_state : forall path value sep st e st',
  set path value sep st = (Raise e, st') -> st' = st.
Proof.
  intros path value sep st e st' H. unfold set in H.
  destruct (rbind _ _); inversion H; reflexivity.
Qed.

(** C8, amended.  Take a path where [get] returns [x], a value that is not
    itself a cell (as in every config tree), and a body that leaves every
    node above the path a mapping.  Then [patch] ends in a state where
    [get] returns [x] again, whether the body returned or raised; and when
    the patched value could be set, the block ends with the outcome of its
    body. *)
Theorem patch_restores : forall path value body st x,
  get path VNone "." st = Ok x ->
  is_attr x = false ->
  (forall st1, set path value "." st = (Ok tt, st1) ->
               settable (config (snd (body st1))) (removelast (dot_parts path)) = true) ->
  exists r st',
    patch path value body st = (r, st') /\
    get path VNone "." st' = Ok x /\
    (forall st1, set path value "." st = (Ok tt, st1) -> r = fst (body st1)).
Proof.
  intros path value body st x Hget Hx Hbody. unfold patch. rewrite Hget.
  destruct (set path value "." st) as [[[]|e] st1] eqn:Es.
  - specialize (Hbody st1 eq_refl).
    destruct (body st1) as [outcome st2] eqn:Eb. cbn [snd fst] in *.
    destruct (settable_set _ _ (last (dot_parts path) "") (VAttr x UNSPECIFIED None) Hbody)
      as [root3 Es3].
    assert (Hset3 : set path x "." st2 = (Ok tt, mkState root3 (logs st2)))
      by (rewrite set_dot, Es3; auto).
    rewrite Hset3. exists outcome, (mkState root3 (logs st2)).
    split; [reflexivity|]. split.
    + unfold get. cbn [mkAttr is_attr rbind].
      rewrite (set_stores_unspecified_cell _ _ _ _ _ (VAttr VNone UNSPECIFIED None) Hset3).
      reflexivity.
    + intros st1' E. inversion E; subst st1'. now rewrite Eb.
  - rewrite (set_raise_state _ _ _ _ _ _ Es).
    exists (Raise e), st. split; [reflexivity|]. split; [exact Hget|].
    intros st1' E. discriminate E.
Qed.

Lemma patch_restores_witness :
  exists r st',
    patch "redis.broker_url" (VStr "redis://test") failing_body tree_with_redis = (r, st') /\
    get "redis.broker_url" VNone "." st' = Ok (VStr "redis://r/1") /\
    (forall st1,
        set "redis.broker_url" (VStr "redis://test") "." tree_with_redis = (Ok tt, st1) ->
        r = fst (failing_body st1)).
Proof.
  apply (patch_restores "redis.broker_url" (VStr "redis://test") failing_body
           tree_with_redis (VStr "redis://r/1")).
  - reflexivity.
  - reflexivity.
  - intros st1 H. vm_compute in H. inversion H. reflexivity.
Defined.

(** C8 as worded fails for a body that overwrites the mapping above the
    path: the restoring [set] in the [finally] clause raises [TypeError],
    which replaces the outcome of the body, and [get] on the path no longer
    returns the value from before the block. *)
Lemma patch_body_blocks_restore :
  get "redis.host" VNone "." tree_with_redis = Ok (VStr "redis") /\
  fst (patch "redis.host" (VStr "test") clobbering_body tree_with_redis) = Raise TypeError /\
  get "redis.host" VNone "."
    (snd (patch "redis.host" (VStr "test") clobbering_body tree_with_redis))
  = Raise TypeError /\
  ~ patch_restores_as_specified.
Proof.
  split; [reflexivity|]. split; [reflexivity|]. split; [reflexivity|].
  intros H.
  specialize (H "redis.host" (VStr "test") clobbering_body tree_with_redis (VStr "redis")
                eq_refl).
  vm_compute in H. discriminate H.
Qed.

(** C10.  [set] stores a cell of unspecified origin with no detail, whatever
    was recorded at the path.  So after a [patch] block on a cell of any
    origin, [get] returns the old value, but the cell at the path has
    unspecified origin and [refresh] of the path does nothing. *)
Theorem set_discards_provenance : forall W path value body st x sty src,
  is_dict (config st) = true ->
  config_tree (config st) = true ->
  get_path_from_dict (config st) path "." VNone = Ok (VAttr x sty src) ->
  is_attr value = false ->
  (forall st1, set path value "." st = (Ok tt, st1) ->
               settable (config (snd (body st1))) (removelast (dot_parts path)) = true) ->
  exists st1 st',
    set path value "." st = (Ok tt, st1) /\
    get_path_from_dict (config st1) path "." VNone = Ok (VAttr value UNSPECIFIED None) /\
    patch path value body st = (fst (body st1), st') /\
    get path VNone "." st' = Ok x /\
    get_path_from_dict (config st') path "." VNone = Ok (VAttr x UNSPECIFIED None) /\
    refresh W path st' = (Ok tt, st').
Proof.
  intros W path value body st x sty src Hd Ht Hcell Hv Hbody.
  assert (Hget : get path VNone "." st = Ok x).
  { rewrite get_dot by reflexivity.
    unfold get_path_from_dict in Hcell. cbn [py_split String.eqb rbind] in Hcell.
    fold (dot_parts path) in Hcell.
    assert (Ha : addresses (config st) (dot_parts path) (VAttr x sty src))
      by (eapply get_addresses; eauto; discriminate).
    rewrite (addresses_get_path_walk _ _ _ _ Ha). reflexivity. }
  destruct (patch_cycle path value body st x Hd Ht Hget Hv Hbody)
    as (st1 & st' & H1 & H2 & H3).
  pose proof (set_stores_unspecified_cell _ _ _ _ _ VNone H3) as Hafter.
  exists st1, st'. repeat split; auto.
  - eapply set_stores_unspecified_cell; eauto.
  - unfold get. cbn [mkAttr is_attr rbind].
    rewrite (set_stores_unspecified_cell _ _ _ _ _ (VAttr VNone UNSPECIFIED None) H3).
    reflexivity.
  - eapply refresh_unspecified; eauto.
Qed.

Lemma set_discards_provenance_witness :
  exists st1 st',
    set "redis.broker_url" (VStr "redis://test") "." tree_with_redis = (Ok tt, st1) /\
    get_path_from_dict (config st1) "redis.broker_url" "." VNone
    = Ok (VAttr (VStr "redis://test") UNSPECIFIED None) /\
    patch "redis.broker_url" (VStr "redis://test") busy_body tree_with_redis
    = (fst (busy_body st1), st') /\
    get "redis.broker_url" VNone "." st' = Ok (VStr "redis://r/1") /\
    get_path_from_dict (config st') "redis.broker_url" "." VNone
    = Ok (VAttr (VStr "redis://r/1") UNSPECIFIED None) /\
    refresh bare_world "redis.broker_url" st' = (Ok tt, st').
Proof.
  apply (set_discards_provenance bare_world "redis.broker_url" (VStr "redis://test")
           busy_body tree_with_redis (VStr "redis://r/1") ENV (Some "redis.broker_url")).
  - reflexivity.
  - reflexivity.
  - reflexivity.
  - reflexivity.
  - intros st1 H. vm_compute in H. inversion H. reflexivity.
Defined.

(* ------------------------------------------------------------------ *)
(** * Further properties of the loader *)

(** ** [set] and [get] *)

(** X1.  After [set(path, value)] has returned, [get(path)] returns [value],
    for any separator and any default that is not a cell; [set] prints
    nothing. *)
Theorem set_get_roundtrip : forall path value sep st st' default,
  set path value sep st = (Ok tt, st') ->
  is_attr default = false ->
  get path default sep st' = Ok value /\ logs st' = logs st.
Proof.
  intros path value sep st st' default H Hd. split.
  - unfold get, mkAttr. rewrite Hd. cbn [rbind].
    rewrite (set_stores_unspecified_cell _ _ _ _ _ (VAttr default UNSPECIFIED None) H).
    reflexivity.
  - unfold set in H.
    destruct (rbind _ _) as [root'|e]; inversion H. reflexivity.
Qed.

Lemma set_get_roundtrip_witness :
  get "cache.timeout" (VInt 0) "."
    (snd (set "cache.timeout" (VInt 300) "." tree_with_redis)) = Ok (VInt 300) /\
  logs (snd (set "cache.timeout" (VInt 300) "." tree_with_redis)) = logs tree_with_redis.
Proof.
  apply (set_get_roundtrip "cache.timeout" (VInt 300) "." tree_with_redis); reflexivity.
Defined.

(** X2.  [set(path, value)] leaves [get] as it was, result or exception, on
    every path that parts ways with [path] at some component. *)
Theorem set_leaves_other_paths :
  forall path value sep st st' cs other cs' default,
    set path value sep st = (Ok tt, st') ->
    py_split path sep = Ok cs ->
    py_split other sep = Ok cs' ->
    diverge cs cs' = true ->
    get other default sep st' = get other default sep st.
Proof.
  intros path value sep st st' cs other cs' default H Hcs Hcs' Hdiv.
  unfold set, mkAttr, set_path_in_dict in H.
  destruct (is_attr value); [discriminate|]. cbn [rbind] in H. rewrite Hcs in H.
  cbn [rbind] in H.
  destruct (set_path_walk (config st) _ _ _) as [root'|] eqn:Es; inversion H; subst st'.
  unfold get, get_path_from_dict. rewrite Hcs'. cbn [config].
  destruct (mkAttr default UNSPECIFIED None) as [dflt|]; [|reflexivity]. cbn [rbind].
  assert (Hne : cs <> []).
  { unfold py_split in Hcs. destruct (String.eqb sep ""); [discriminate|].
    inversion Hcs. apply split_from_nonempty. }
  rewrite (app_removelast_last "" Hne) in Hdiv.
  now rewrite (set_frame _ _ _ _ _ _ dflt Es Hdiv).
Qed.

Lemma set_leaves_other_paths_witness :
  get "redis.host" VNone "."
    (snd (set "redis.broker_url" (VStr "redis://test") "." tree_with_redis))
  = get "redis.host" VNone "." tree_with_redis.
Proof.
  apply (set_leaves_other_paths "redis.broker_url" (VStr "redis://test") "."
           tree_with_redis _ ["redis"; "broker_url"] "redis.host" ["redis"; "host"] VNone);
    reflexivity.
Defined.

Lemma set_ok_settable : forall init root last v root',
  set_path_walk root init last v = Ok root' -> settable root init = true.
Proof.
  induction init as [|c init IH]; intros root last v root' H;
    destruct (set_path_walk_is_dict _ _ _ _ _ H) as [Hd _];
    destruct root; try discriminate; [reflexivity|].
  rewrite set_path_walk_dict in H. cbn [settable].
  destruct (dict_get c d) as [child|]; [|reflexivity].
  destruct (set_path_walk child init last v) as [child'|] eqn:E; [|discriminate].
  eapply IH; eauto.
Qed.

(** X3.  [set_path_in_dict] returns exactly when every node it meets while
    walking [path_parts[:-1]] is a mapping; a missing key never stops it. *)
Theorem set_path_in_dict_succeeds_iff : forall root path value sep cs,
  py_split path sep = Ok cs ->
  ((exists root', set_path_in_dict root path value sep = Ok root') <->
   settable root (removelast cs) = true).
Proof.
  intros root path value sep cs Hcs. unfold set_path_in_dict. rewrite Hcs. cbn [rbind].
  split.
  - intros [root' H]. eapply set_ok_settable; eauto.
  - intros H. apply settable_set. exact H.
Qed.

Lemma set_path_in_dict_succeeds_iff_witness :
  (exists root', set_path_in_dict (config tree_with_redis) "redis.db.index" (VInt 1) "."
                 = Ok root') <->
  settable (config tree_with_redis) ["redis"; "db"] = true.
Proof.
  apply (set_path_in_dict_succeeds_iff (config tree_with_redis) "redis.db.index" (VInt 1)
           "." ["redis"; "db"; "index"]).
  reflexivity.
Defined.

Lemma dict_set_absent : forall k v d,
  dict_get k d = None -> dict_set k v d = (d ++ [(k, v)])%list.
Proof.
  induction d as [|[k0 v0] d IH]; cbn; intros H; [reflexivity|].
  destruct (String.eqb k k0); [discriminate|]. now rewrite IH.
Qed.

Lemma set_path_walk_chain : forall cs v,
  cs <> [] ->
  set_path_walk (VDict []) (removelast cs) (last cs "") v = Ok (chain_of cs v).
Proof.
  induction cs as [|c cs IH]; intros v Hne; [congruence|].
  destruct cs as [|c2 cs]; [reflexivity|].
  change (removelast (c :: c2 :: cs)) with (c :: removelast (c2 :: cs)).
  change (last (c :: c2 :: cs) "") with (last (c2 :: cs) "").
  rewrite set_path_walk_dict. cbn [dict_get].
  rewrite IH by discriminate. reflexivity.
Qed.

(** X4.  Writing a path whose first component is not a key of the mapping
    never raises: the entries already there keep their places, and one entry
    is added last, holding the value inside one fresh mapping per further
    component. *)
Theorem set_path_in_dict_new_key : forall d path value sep c rest,
  py_split path sep = Ok (c :: rest) ->
  dict_get c d = None ->
  set_path_in_dict (VDict d) path value sep
  = Ok (VDict (d ++ [(c, chain_of rest value)])).
Proof.
  intros d path value sep c rest Hcs Hc. unfold set_path_in_dict. rewrite Hcs.
  cbn [rbind]. destruct rest as [|c2 rest].
  - cbn. now rewrite dict_set_absent.
  - change (removelast (c :: c2 :: rest)) with (c :: removelast (c2 :: rest)).
    change (last (c :: c2 :: rest) "") with (last (c2 :: rest) "").
    rewrite set_path_walk_dict, Hc, set_path_walk_chain by discriminate.
    cbn [rbind]. now rewrite dict_set_absent.
Qed.

Lemma set_path_in_dict_new_key_witness :
  set_path_in_dict (VDict [("debug", cell (VBool true))]) "postgresql.host" (cell (VStr "db"))
    "."
  = Ok (VDict [("debug", cell (VBool true));
               ("postgresql", VDict [("host", cell (VStr "db"))])]).
Proof.
  apply (set_path_in_dict_new_key [("debug", cell (VBool true))] "postgresql.host"
           (cell (VStr "db")) "." "postgresql" ["host"]); reflexivity.
Defined.

(** X5.  [get_path_from_dict] returns the node the path addresses through
    mappings; and it returns the default when, after some components, the
    node reached is false (None, an empty mapping, ...) or is a mapping
    without the next component. *)
Theorem get_path_from_dict_found_or_default :
  forall root path sep dflt cs,
    py_split path sep = Ok cs ->
    (forall node, addresses root cs node ->
                  get_path_from_dict root path sep dflt = Ok node) /\
    (forall cs1 c cs2 node,
        cs = (cs1 ++ c :: cs2)%list ->
        addresses root cs1 node ->
        truthy node = false \/ (exists d, node = VDict d /\ dict_get c d = None) ->
        get_path_from_dict root path sep dflt = Ok dflt).
Proof.
  intros root path sep dflt cs Hcs. unfold get_path_from_dict. rewrite Hcs. cbn [rbind].
  split.
  - intros node Ha. now apply addresses_get_path_walk.
  - intros cs1 c cs2 node -> Ha Hnode.
    rewrite (get_path_walk_app _ _ _ (c :: cs2) dflt Ha).
    destruct Hnode as [Hf | (d & -> & Hc)].
    + cbn [get_path_walk]. now rewrite Hf.
    + now rewrite get_path_walk_dict, Hc.
Qed.

Lemma get_path_from_dict_found_or_default_witness :
  (forall node, addresses (config tree_with_redis) ["redis"; "port"] node ->
                get_path_from_dict (config tree_with_redis) "redis.port" "." (VInt 6379)
                = Ok node) /\
  (forall cs1 c cs2 node,
      ["redis"; "port"] = (cs1 ++ c :: cs2)%list ->
      addresses (config tree_with_redis) cs1 node ->
      truthy node = false \/ (exists d, node = VDict d /\ dict_get c d = None) ->
      get_path_from_dict (config tree_with_redis) "redis.port" "." (VInt 6379)
      = Ok (VInt 6379)).
Proof.
  apply (get_path_from_dict_found_or_default (config tree_with_redis) "redis.port" "."
           (VInt 6379) ["redis"; "port"]).
  reflexivity.
Defined.

(** ** More on the merge *)

Lemma parse_uri_plain : forall W value lg fresh,
  fst (parse_uri W value lg) = Ok fresh ->
  exists x, fresh = VAttr x URI value /\ is_attr x = false.
Proof.
  intros W value lg fresh. unfold parse_uri.
  destruct (urlparse W value) as [url|]; [|discriminate].
  destruct (String.eqb (scheme url) "file").
  - destruct (open_file W (url_path url)); cbn [fst]; intros H; inversion H; eauto.
  - cbn [fst]. intros H. inversion H.
    destruct (String.eqb (scheme url) "env"); eauto.
    destruct value; cbn; eauto.
Qed.

Lemma parse_uri_literal : forall W s lg url,
  urlparse W (Some s) = Some url ->
  String.eqb (scheme url) "env" = false ->
  String.eqb (scheme url) "file" = false ->
  parse_uri W (Some s) lg = (Ok (VAttr (VStr s) URI (Some s)), lg).
Proof. intros W s lg url Hu He Hf. unfold parse_uri. rewrite Hu, He, Hf. reflexivity. Qed.

Lemma parse_uri_parsed : forall W value lg fresh,
  fst (parse_uri W value lg) = Ok fresh -> exists url, urlparse W value = Some url.
Proof.
  intros W value lg fresh. unfold parse_uri.
  destruct (urlparse W value) as [url|]; [eauto | discriminate].
Qed.

(** X6.  What a merge stores for a plain leaf of the source: a string [s]
    becomes a cell of origin [URI] whose detail is [s], and whose value is
    [s] itself when [s] has neither the [env] nor the [file] scheme; any
    other value becomes a cell of unspecified origin around it. *)
Theorem update_wraps_leaves :
  forall W updatee root lg root' lg' path sep cs v dflt,
    unique_keys updatee = true ->
    update W root updatee lg = (Ok tt, root', lg') ->
    py_split path sep = Ok cs ->
    leaf_of updatee cs = Some v ->
    (forall s, v = VStr s ->
       exists x url,
         get_path_from_dict root' path sep dflt = Ok (VAttr x URI (Some s)) /\
         urlparse W (Some s) = Some url /\
         (String.eqb (scheme url) "env" = false ->
          String.eqb (scheme url) "file" = false ->
          x = VStr s)) /\
    (is_str v = false -> is_attr v = false ->
     get_path_from_dict root' path sep dflt = Ok (VAttr v UNSPECIFIED None)).
Proof.
  intros W updatee root lg root' lg' path sep cs v dflt Hu Hup Hcs Hleaf.
  unfold get_path_from_dict. rewrite Hcs. cbn [rbind].
  destruct (update_leaf W updatee root lg root' lg' cs v dflt Hu Hup Hleaf)
    as (stored & Hres & ->).
  split.
  - intros s ->. cbn [resolve] in Hres.
    destruct (parse_uri_plain W (Some s) [] stored Hres) as (x & -> & _).
    destruct (parse_uri_parsed W (Some s) [] _ Hres) as [url Eu].
    exists x, url. split; [reflexivity|]. split; [exact Eu|].
    intros He Hf. rewrite (parse_uri_literal W s [] url Eu He Hf) in Hres.
    cbn in Hres. congruence.
  - intros Hs Ha. destruct v; try discriminate; cbn in Hres; congruence.
Qed.

Lemma update_wraps_leaves_witness :
  (forall s, VInt 5432 = VStr s ->
     exists x url,
       get_path_from_dict (fst after_default_yml) "postgresql.port" "." VNone
       = Ok (VAttr x URI (Some s)) /\
       urlparse bare_world (Some s) = Some url /\
       (String.eqb (scheme url) "env" = false ->
        String.eqb (scheme url) "file" = false ->
        x = VStr s)) /\
  (is_str (VInt 5432) = false -> is_attr (VInt 5432) = false ->
   get_path_from_dict (fst after_default_yml) "postgresql.port" "." VNone
   = Ok (VAttr (VInt 5432) UNSPECIFIED None)).
Proof.
  apply (update_wraps_leaves bare_world default_yml (VDict []) []
           (fst after_default_yml) (snd after_default_yml)
           "postgresql.port" "." ["postgresql"; "port"] (VInt 5432) VNone);
    reflexivity.
Defined.

Lemma resolve_config_tree : forall W v lg stored,
  is_dict v = false -> plain_source v = true ->
  fst (resolve W v lg) = Ok stored ->
  config_tree stored = true.
Proof.
  intros W v lg stored Hd Hp Hres.
  assert (Huri : forall s, fst (parse_uri W (Some s) lg) = Ok stored ->
                           config_tree stored = true).
  { intros s Hs. destruct (parse_uri_plain W (Some s) lg stored Hs) as (x & -> & Hx).
    cbn. now rewrite Hx. }
  destruct v; try discriminate; cbn [resolve fst] in Hres;
    try (inversion Hres; subst; reflexivity).
  - eapply Huri; eauto.
  - destruct v; cbn [fst] in Hres;
      try (inversion Hres; subst; exact Hp). eapply Huri; eauto.
Qed.

Lemma config_tree_set : forall k v d,
  config_tree (VDict d) = true -> config_tree v = true ->
  config_tree (VDict (dict_set k v d)) = true.
Proof. intros k v d H Hv. cbn [config_tree] in *. now apply (dict_set_forallb config_tree). Qed.

Lemma config_tree_store_back : forall root k v,
  config_tree root = true -> config_tree v = true ->
  config_tree (store_back root k v) = true.
Proof.
  intros root k v H Hv. destruct root; try exact H. cbn [store_back].
  destruct (dict_mem k d); [now apply config_tree_set | exact H].
Qed.

Lemma plain_source_cons : forall k v items,
  plain_source (VDict ((k, v) :: items)) = true ->
  plain_source v = true /\ plain_source (VDict items) = true.
Proof. intros k v items H. cbn in H. now apply andb_true_iff in H. Qed.

Lemma update_config_tree : forall W updatee root lg r root' lg',
  plain_source updatee = true ->
  config_tree root = true ->
  update W root updatee lg = (r, root', lg') ->
  config_tree root' = true.
Proof.
  intros W updatee. induction updatee using pyval_nested_ind;
    intros root lg r root' lg' Hp Ht Hup;
    try (rewrite update_not_mapping in Hup by reflexivity; inversion Hup; subst; exact Ht).
  rewrite update_unfold in Hup. revert root lg Ht Hup Hp.
  induction H as [|[k v] items Hv _ IH]; intros root lg Ht Hup Hp.
  - cbn in Hup. inversion Hup; subst. exact Ht.
  - cbn [snd] in Hv. destruct (plain_source_cons _ _ _ Hp) as [Hpv Hpi].
    cbn [update_items] in Hup.
    assert (Hleaf : is_dict v = false ->
              match resolve W v lg with
              | (Raise e, lg1) => (Raise e, root, lg1)
              | (Ok c, lg1) =>
                  match py_setitem root k c with
                  | Ok r0 => update_items W items r0 lg1
                  | Raise e => (Raise e, root, lg1)
                  end
              end = (r, root', lg') -> config_tree root' = true).
    { intros Hd H'. pose proof (resolve_config_tree W v lg) as Hc.
      destruct (resolve W v lg) as [[c|e] lg1]; [|inversion H'; subst; exact Ht].
      specialize (Hc c Hd Hpv eq_refl).
      destruct root; cbn [py_setitem] in H'; try (inversion H'; subst; exact Ht).
      apply (IH (VDict (dict_set k c d)) lg1); auto. apply config_tree_set; auto. }
    destruct v; try (apply Hleaf; [reflexivity | exact Hup]). clear Hleaf.
    destruct root; cbn [py_get] in Hup; try (inversion Hup; subst; exact Ht).
    destruct (update W _ (VDict d) lg) as [[r1 child'] lg1] eqn:Eu.
    assert (Hc : config_tree child' = true).
    { eapply Hv; [exact Hpv | | exact Eu].
      destruct (dict_get k d0) as [child|] eqn:Ec; [|reflexivity].
      eapply config_tree_child; eauto. }
    destruct r1 as [[]|e].
    + cbn [py_setitem] in Hup.
      apply (IH (VDict (dict_set k child' d0)) lg1); auto. apply config_tree_set; auto.
    + inversion Hup; subst. exact (config_tree_store_back (VDict d0) k child' Ht Hc).
Qed.

Lemma update_items_root_dict : forall W items d lg r root' lg',
  update_items W items (VDict d) lg = (r, root', lg') -> is_dict root' = true.
Proof.
  induction items as [|[k v] items IH]; intros d lg r root' lg' H.
  - cbn in H. inversion H. reflexivity.
  - cbn [update_items py_get py_setitem] in H.
    destruct v;
      try (destruct (resolve W _ lg) as [[c|e] lg1];
           [eapply IH; exact H | inversion H; reflexivity]).
    destruct (update W _ (VDict d0) lg) as [[[[]|e] child'] lg1].
    + eapply IH; exact H.
    + inversion H; subst. cbn [store_back]. destruct (dict_mem k d); reflexivity.
Qed.

(** X7.  A merge keeps the config tree a config tree: if every leaf of the
    tree is a cell that wraps no cell and the source holds no cell wrapping
    a cell, the same is true of the tree the merge leaves, whether it
    returned or raised; and the tree is still a mapping. *)
Theorem update_keeps_config_tree : forall W updatee d lg r root' lg',
  plain_source updatee = true ->
  config_tree (VDict d) = true ->
  update W (VDict d) updatee lg = (r, root', lg') ->
  config_tree root' = true /\ is_dict root' = true.
Proof.
  intros W updatee d lg r root' lg' Hp Ht Hup. split.
  - eapply update_config_tree; eauto.
  - destruct updatee;
      try (rewrite update_not_mapping in Hup by reflexivity; inversion Hup; reflexivity).
    rewrite update_unfold in Hup. eapply update_items_root_dict; eauto.
Qed.

Lemma update_keeps_config_tree_witness :
  config_tree (fst after_local_yml) = true /\ is_dict (fst after_local_yml) = true.
Proof.
  apply (update_keeps_config_tree bare_world local_yml
           [("log_level", VAttr (VStr "info") URI (Some "info"));
            ("postgresql",
             VDict [("host", VAttr (VStr "localhost") URI (Some "localhost"));
                    ("port", VAttr (VInt 5432) UNSPECIFIED None)])]
           (snd after_default_yml) (Ok tt) (fst after_local_yml) (snd after_local_yml));
    reflexivity.
Defined.

(** *** Merging twice *)

Lemma dict_set_same : forall k v d, dict_get k d = Some v -> dict_set k v d = d.
Proof.
  induction d as [|[k0 v0] d IH]; cbn; intros H; [discriminate|].
  destruct (String.eqb k k0); [congruence | now rewrite IH].
Qed.

Lemma absorbed_mapping : forall W items d,
  absorbed W (VDict items) (VDict d) <-> items = [] \/ absorbed_items W items d.
Proof.
  intros W items d. cbn [absorbed].
  assert (Heq : forall l,
             (fix all (items : list (string * pyval)) : Prop :=
                match items with
                | [] => True
                | (k, v) :: rest =>
                    match v with
                    | VDict _ =>
                        match dict_get k d with
                        | Some child => absorbed W v child
                        | None => False
                        end
                    | _ =>
                        match fst (resolve W v []) with
                        | Ok stored => dict_get k d = Some stored
                        | Raise _ => False
                        end
                    end /\ all rest
                end) l = absorbed_items W l d).
  { induction l as [|[k v] l IHl]; [reflexivity|]. cbn [absorbed_items]. now rewrite IHl. }
  rewrite Heq. reflexivity.
Qed.

Lemma absorbed_not_mapping : forall W items root,
  is_dict root = false -> absorbed W (VDict items) root -> items = [].
Proof.
  intros W items root Hd H. cbn [absorbed] in H. destruct H as [H|H]; [exact H|].
  destruct root; try contradiction. discriminate.
Qed.

(** A merge that ends normally changes no key the source does not have. *)
Lemma update_items_keeps_key : forall W items d lg root' lg',
  update_items W items (VDict d) lg = (Ok tt, root', lg') ->
  exists d', root' = VDict d' /\
             forall c, dict_get c items = None -> dict_get c d' = dict_get c d.
Proof.
  induction items as [|[k v] items IH]; intros d lg root' lg' H.
  - cbn in H. inversion H; subst. eauto.
  - destruct (update_items_step _ _ _ _ _ _ _ _ H) as (d0 & y & lg1 & Ed & H1 & _).
    inversion Ed; subst d0.
    destruct (IH _ _ _ _ H1) as (d' & -> & Hk).
    exists d'. split; auto. intros c Hc. cbn [dict_get] in Hc.
    destruct (String.eqb c k) eqn:E; [discriminate|].
    rewrite (Hk c Hc). now apply dict_get_set_other.
Qed.

(** After a merge that ends normally the tree holds the whole source. *)
Lemma update_absorbs : forall W updatee root lg root' lg',
  unique_keys updatee = true ->
  update W root updatee lg = (Ok tt, root', lg') ->
  absorbed W updatee root'.
Proof.
  intros W updatee. induction updatee using pyval_nested_ind;
    intros root lg root' lg' Hu Hup;
    try (rewrite update_not_mapping in Hup by reflexivity; discriminate).
  rewrite update_unfold in Hup.
  destruct d as [|kv items]; [left; reflexivity|].
  assert (Hroot : exists d0, root = VDict d0).
  { destruct kv as [k v].
    destruct (update_items_step _ _ _ _ _ _ _ _ Hup) as (d0 & _ & _ & -> & _). eauto. }
  destruct Hroot as [d0 ->].
  destruct (update_items_keeps_key _ _ _ _ _ _ Hup) as (d' & -> & _).
  apply absorbed_mapping. right.
  revert d0 lg Hup Hu. generalize (kv :: items) as l, H. clear kv items H.
  intros l H. induction H as [|[k v] items Hv _ IH]; intros d0 lg Hup Hu; [exact I|].
  cbn [snd] in Hv.
  destruct (unique_keys_cons _ _ _ Hu) as (Huv & Hui & Hk).
  destruct (update_items_step _ _ _ _ _ _ _ _ Hup) as (d1 & y & lg1 & Ed & H1 & Hy1 & Hy2).
  inversion Ed; subst d1.
  destruct (update_items_keeps_key _ _ _ _ _ _ H1) as (d2 & Ed2 & Hkeep).
  inversion Ed2; subst d2.
  cbn [absorbed_items]. split.
  - rewrite (Hkeep k Hk), dict_get_set_same.
    destruct (is_dict v) eqn:Edv.
    + destruct v; try discriminate. eapply Hv; eauto.
    + rewrite <- (resolve_cell W v lg), (Hy1 eq_refl).
      destruct v; try reflexivity. discriminate.
  - eapply IH; eauto.
Qed.

(** Merging a source the tree already holds changes nothing in the tree. *)
Lemma absorbed_update : forall W updatee root lg,
  absorbed W updatee root ->
  exists lg', update W root updatee lg = (Ok tt, root, lg').
Proof.
  intros W updatee. induction updatee using pyval_nested_ind; intros root lg Ha;
    try contradiction.
  rewrite update_unfold.
  destruct (is_dict root) eqn:Ed.
  2:{ rewrite (absorbed_not_mapping _ _ _ Ed Ha). cbn. eauto. }
  destruct root; try discriminate. apply absorbed_mapping in Ha.
  assert (Hitems : absorbed_items W d d0).
  { destruct Ha as [-> | Ha]; [exact I | exact Ha]. }
  clear Ha Ed. revert lg Hitems.
  induction H as [|[k v] items Hv _ IH]; intros lg Hitems; [cbn; eauto|].
  cbn [snd] in Hv. cbn [absorbed_items] in Hitems. destruct Hitems as [Hkv Hrest].
  cbn [update_items py_get py_setitem].
  assert (Hleaf : is_dict v = false ->
            match fst (resolve W v []) with
            | Ok stored => dict_get k d0 = Some stored
            | Raise _ => False
            end ->
            exists lg',
              match resolve W v lg with
              | (Raise e, lg1) => (Raise e, VDict d0, lg1)
              | (Ok c, lg1) => update_items W items (VDict (dict_set k c d0)) lg1
              end = (Ok tt, VDict d0, lg')).
  { intros _ Hg. rewrite <- (resolve_cell W v lg) in Hg.
    destruct (resolve W v lg) as [[c|e] lg1]; cbn [fst] in Hg; [|contradiction].
    rewrite (dict_set_same _ _ _ Hg). apply IH. exact Hrest. }
  destruct v; try (apply Hleaf; [reflexivity | exact Hkv]). clear Hleaf.
  destruct (dict_get k d0) as [child|] eqn:Ec; [|contradiction].
  destruct (Hv child lg Hkv) as [lg1 ->].
  rewrite (dict_set_same _ _ _ Ec). apply IH. exact Hrest.
Qed.

(** X8.  Merging is idempotent: once a source with unique keys has been
    merged, merging it again returns normally and leaves the tree exactly as
    it is. *)
Theorem update_idempotent : forall W root updatee lg root1 lg1,
  unique_keys updatee = true ->
  update W root updatee lg = (Ok tt, root1, lg1) ->
  exists lg2, update W root1 updatee lg1 = (Ok tt, root1, lg2).
Proof.
  intros W root updatee lg root1 lg1 Hu H.
  apply absorbed_update. eapply update_absorbs; eauto.
Qed.

Lemma update_idempotent_witness :
  exists lg2,
    update bare_world (fst after_default_yml) default_yml (snd after_default_yml)
    = (Ok tt, fst after_default_yml, lg2).
Proof.
  apply (update_idempotent bare_world (VDict []) default_yml []); reflexivity.
Defined.

(** ** [refresh] *)

Lemma write_back_addresses : forall root cs n n',
  addresses root cs n -> addresses (write_back root cs n') cs n'.
Proof.
  induction 1 as [root | d c child cs node Hget _ IH]; cbn [write_back].
  - constructor.
  - rewrite Hget. econstructor; [apply dict_get_set_same | exact IH].
Qed.

Lemma write_back_frame : forall root cs n n' p dflt,
  addresses root cs n ->
  diverge cs p = true ->
  get_path_walk (write_back root cs n') p dflt = get_path_walk root p dflt.
Proof.
  intros root cs n n' p dflt H. revert p.
  induction H as [root | d c child cs node Hget _ IH]; intros p Hdiv; [discriminate|].
  destruct p as [|a p]; [discriminate|]. cbn in Hdiv. cbn [write_back]. rewrite Hget.
  rewrite !get_path_walk_dict.
  destruct (String.eqb c a) eqn:E.
  - apply String.eqb_eq in E. subst a. rewrite dict_get_set_same, Hget. now apply IH.
  - rewrite dict_get_set_other; auto using eqb_sym_false.
Qed.

Lemma parse_uri_raise_log : forall W value lg e lg',
  parse_uri W value lg = (Raise e, lg') -> lg' = lg.
Proof.
  intros W value lg e lg'. unfold parse_uri.
  destruct (urlparse W value) as [url|]; [|intros H; inversion H; reflexivity].
  destruct (String.eqb (scheme url) "file");
    [destruct (open_file W (url_path url))|];
    intros H; inversion H; reflexivity.
Qed.

(** X9.  [refresh] on a cell of origin [URI] resolves its detail again.
    When the resolver raises ([urlparse] refuses the detail, or the file it
    names cannot be decoded), [refresh] raises the same exception and leaves
    tree and log as they are.  When the resolver returns, the cell keeps
    origin and detail and takes the value the resolver gives now, what the
    resolver prints is added to the log, and every path that parts ways with
    the refreshed one reads as before. *)
Theorem refresh_rereads : forall W key st v src,
  get_path_from_dict (config st) key "." VNone = Ok (VAttr v URI src) ->
  (forall e lg',
      parse_uri W src (logs st) = (Raise e, lg') ->
      refresh W key st = (Raise e, mkState (config st) (logs st))) /\
  (forall fresh lg',
      parse_uri W src (logs st) = (Ok fresh, lg') ->
      exists st' v',
        fresh = VAttr v' URI src /\
        refresh W key st = (Ok tt, st') /\
        logs st' = lg' /\
        (forall dflt,
            get_path_from_dict (config st') key "." dflt = Ok (VAttr v' URI src)) /\
        (forall other dflt,
            diverge (dot_parts key) (dot_parts other) = true ->
            get_path_from_dict (config st') other "." dflt
            = get_path_from_dict (config st) other "." dflt)).
Proof.
  intros W key st v src H.
  assert (Ha : addresses (config st) (dot_parts key) (VAttr v URI src)).
  { unfold get_path_from_dict in H. cbn [py_split String.eqb rbind] in H.
    eapply get_addresses; eauto. discriminate. }
  split.
  - intros e lg' Ep. unfold refresh. rewrite H. cbn [Source_eqb negb]. rewrite Ep.
    now rewrite (parse_uri_raise_log W src (logs st) e lg' Ep).
  - intros fresh lg' Ep.
    destruct (parse_uri_plain W src (logs st) fresh) as (v' & -> & _);
      [now rewrite Ep|].
    unfold refresh. rewrite H. cbn [Source_eqb negb]. rewrite Ep.
    cbn [attr_value py_split String.eqb].
    exists (mkState (write_back (config st) (split_from "." 0 key) (VAttr v' URI src)) lg'),
           v'.
    repeat split.
    + intros dflt. unfold get_path_from_dict. cbn [py_split String.eqb rbind config].
      apply addresses_get_path_walk. eapply write_back_addresses; eauto.
    + intros other dflt Hdiv. unfold get_path_from_dict.
      cbn [py_split String.eqb rbind config].
      eapply write_back_frame; eauto.
Qed.

Lemma refresh_rereads_witness :
  (forall e lg',
      parse_uri world_with_secret (Some "file:///run/secrets/key") (logs tree_with_secret)
      = (Raise e, lg') ->
      refresh world_with_secret "secret_key" tree_with_secret
      = (Raise e, mkState (config tree_with_secret) (logs tree_with_secret))) /\
  (forall fresh lg',
      parse_uri world_with_secret (Some "file:///run/secrets/key") (logs tree_with_secret)
      = (Ok fresh, lg') ->
      exists st' v',
        fresh = VAttr v' URI (Some "file:///run/secrets/key") /\
        refresh world_with_secret "secret_key" tree_with_secret = (Ok tt, st') /\
        logs st' = lg' /\
        (forall dflt,
            get_path_from_dict (config st') "secret_key" "." dflt
            = Ok (VAttr v' URI (Some "file:///run/secrets/key"))) /\
        (forall other dflt,
            diverge (dot_parts "secret_key") (dot_parts other) = true ->
            get_path_from_dict (config st') other "." dflt
            = get_path_from_dict (config tree_with_secret) other "." dflt)).
Proof.
  apply (refresh_rereads world_with_secret "secret_key" tree_with_secret (VStr "old")
           (Some "file:///run/secrets/key")).
  reflexivity.
Defined.

(** ** Loading a file *)

Lemma parse_uri_logs : forall W value lg,
  exists l, snd (parse_uri W value lg) = (lg ++ l)%list.
Proof.
  intros W value lg. unfold parse_uri.
  destruct (urlparse W value) as [url|]; [|cbn; exists []; now rewrite app_nil_r].
  destruct (String.eqb (scheme url) "file").
  - destruct (open_file W (url_path url)); cbn; unfold emit;
      eauto; exists []; now rewrite app_nil_r.
  - cbn. exists []. now rewrite app_nil_r.
Qed.

Lemma resolve_logs : forall W v lg,
  exists l, snd (resolve W v lg) = (lg ++ l)%list.
Proof.
  intros W v lg.
  assert (Hnil : exists l, lg = (lg ++ l)%list) by (exists []; now rewrite app_nil_r).
  destruct v; cbn [resolve snd]; auto using parse_uri_logs.
  destruct v; cbn [snd]; auto using parse_uri_logs.
Qed.

(** A merge only adds to the log. *)
Lemma update_logs : forall W updatee root lg r root' lg',
  update W root updatee lg = (r, root', lg') ->
  exists l, lg' = (lg ++ l)%list.
Proof.
  intros W updatee. induction updatee using pyval_nested_ind;
    intros root lg r root' lg' Hup;
    try (rewrite update_not_mapping in Hup by reflexivity; inversion Hup; subst;
         exists []; now rewrite app_nil_r).
  rewrite update_unfold in Hup. revert root lg Hup.
  induction H as [|[k v] items Hv _ IH]; intros root lg Hup.
  - cbn in Hup. inversion Hup; subst. exists []. now rewrite app_nil_r.
  - cbn [snd] in Hv. cbn [update_items] in Hup.
    assert (Hleaf :
              match resolve W v lg with
              | (Raise e, lg1) => (Raise e, root, lg1)
              | (Ok c, lg1) =>
                  match py_setitem root k c with
                  | Ok r0 => update_items W items r0 lg1
                  | Raise e => (Raise e, root, lg1)
                  end
              end = (r, root', lg') -> exists l, lg' = (lg ++ l)%list).
    { intros H'. destruct (resolve_logs W v lg) as [l1 El].
      destruct (resolve W v lg) as [[c|e] lg1]; cbn [snd] in El; subst lg1;
        [|inversion H'; subst; eauto].
      destruct (py_setitem root k c) as [r0|e].
      - destruct (IH _ _ H') as [l2 ->]. exists (l1 ++ l2)%list. now rewrite app_assoc.
      - inversion H'; subst. eauto. }
    destruct v; try (apply Hleaf; exact Hup). clear Hleaf.
    destruct (py_get root k (VDict [])) as [child|e];
      [|inversion Hup; subst; exists []; now rewrite app_nil_r].
    destruct (update W child (VDict d) lg) as [[r1 child'] lg1] eqn:Eu.
    destruct (Hv _ _ _ _ _ Eu) as [l1 ->].
    destruct r1 as [[]|e].
    + destruct (py_setitem root k child') as [r0|e].
      * destruct (IH _ _ Hup) as [l2 ->]. exists (l1 ++ l2)%list. now rewrite app_assoc.
      * inversion Hup; subst. eauto.
    + inversion Hup; subst. eauto.
Qed.

(** X10.  A file whose YAML document is not a mapping (an empty file loads
    as None) is not skipped: [update] calls [.items()] on the document and
    [update_from_file] raises [AttributeError], with tree and log as before. *)
Theorem update_from_file_not_a_mapping : forall W path st name contents document,
  fspath path = Ok name ->
  open_file W name = Opened contents ->
  yaml_safe_load W contents = Loaded document ->
  is_dict document = false ->
  update_from_file W path st = (Raise AttributeError, st).
Proof.
  intros W path st name contents document Hp Ho Hy Hd.
  unfold update_from_file. rewrite Hp, Ho, Hy. unfold bind, update_config.
  rewrite update_not_mapping by exact Hd. destruct st. reflexivity.
Qed.

Lemma update_from_file_not_a_mapping_witness :
  update_from_file world_with_files (VPath "/etc/authentik/config.d/empty.yml")
    tree_with_redis
  = (Raise AttributeError, tree_with_redis).
Proof.
  apply (update_from_file_not_a_mapping world_with_files
           (VPath "/etc/authentik/config.d/empty.yml") tree_with_redis
           "/etc/authentik/config.d/empty.yml" "" VNone); reflexivity.
Defined.

(** X11.  When [update_from_file] returns normally for a file that opened,
    the file held a YAML mapping, every leaf of the mapping is in the tree
    as resolved (keys being unique), and the last line logged is the debug
    record "Loaded config" carrying the file name as a string. *)
Theorem update_from_file_loads : forall W path st st' name contents,
  update_from_file W path st = (Ok tt, st') ->
  fspath path = Ok name ->
  open_file W name = Opened contents ->
  exists document,
    yaml_safe_load W contents = Loaded document /\
    is_dict document = true /\
    (unique_keys document = true ->
     forall cs v dflt,
       leaf_of document cs = Some v ->
       exists stored,
         fst (resolve W v []) = Ok stored /\
         get_path_walk (config st') cs dflt = Ok stored) /\
    exists l,
      logs st' = (logs st ++ l ++ [mkLog "debug" "Loaded config" [("file", VStr name)]])%list.
Proof.
  intros W path st st' name contents H Hp Ho.
  unfold update_from_file in H. rewrite Hp, Ho in H.
  destruct (yaml_safe_load W contents) as [document| |]; try discriminate.
  exists document. split; [reflexivity|].
  unfold bind, update_config, log in H.
  destruct (update W (config st) document (logs st)) as [[r root'] lg'] eqn:Eu.
  destruct r as [[]|e]; [|discriminate].
  cbn [forallb snd json_serializable andb config logs] in H.
  inversion H; subst st'. cbn [config logs].
  assert (Hname : py_str W path = name).
  { destruct path; cbn in Hp; inversion Hp; reflexivity. }
  rewrite Hname. repeat split.
  - destruct document; try reflexivity;
      rewrite update_not_mapping in Eu by reflexivity; discriminate.
  - intros Hu cs v dflt Hleaf. eapply update_leaf; eauto.
  - destruct (update_logs _ _ _ _ _ _ _ Eu) as [l ->]. exists l. now rewrite app_assoc.
Qed.

Lemma update_from_file_loads_witness :
  exists document,
    yaml_safe_load world_with_files "log_level: info" = Loaded document /\
    is_dict document = true /\
    (unique_keys document = true ->
     forall cs v dflt,
       leaf_of document cs = Some v ->
       exists stored,
         fst (resolve world_with_files v []) = Ok stored /\
         get_path_walk
           (config (snd (update_from_file world_with_files (VPath "/etc/authentik/config.yml")
                           tree_with_redis))) cs dflt
         = Ok stored) /\
    exists l,
      logs (snd (update_from_file world_with_files (VPath "/etc/authentik/config.yml")
                   tree_with_redis))
      = (logs tree_with_redis ++ l
         ++ [mkLog "debug" "Loaded config" [("file", VStr "/etc/authentik/config.yml")]])%list.
Proof.
  apply (update_from_file_loads world_with_files (VPath "/etc/authentik/config.yml")
           tree_with_redis _ "/etc/authentik/config.yml" "log_level: info"); reflexivity.
Defined.



(** ** [update_from_dict] *)

Lemma dict_update_keeps_key : forall other d k,
  dict_get k other = None -> dict_get k (dict_update d other) = dict_get k d.
Proof.
  induction other as [|[k0 v0] other IH]; intros d k H; [reflexivity|].
  cbn [dict_get] in H. cbn [dict_update].
  destruct (String.eqb k k0) eqn:E; [discriminate|].
  rewrite IH by exact H. now apply dict_get_set_other.
Qed.

Lemma dict_update_get : forall other d k v,
  no_dup_keys (map fst other) = true ->
  dict_get k other = Some v ->
  dict_get k (dict_update d other) = Some v.
Proof.
  induction other as [|[k0 v0] other IH]; intros d k v Hu H; [discriminate|].
  pose proof (no_dup_keys_absent _ _ _ Hu) as Hk0.
  cbn in Hu. apply andb_true_iff in Hu as [_ Hu].
  cbn [dict_get] in H. cbn [dict_update].
  destruct (String.eqb k k0) eqn:E.
  - apply String.eqb_eq in E. subst k0. inversion H; subst v0.
    rewrite dict_update_keeps_key by exact Hk0. apply dict_get_set_same.
  - now apply IH.
Qed.

(** X13.  [update_from_dict] stores the values of its argument as they are,
    one level deep: a top-level key then holds exactly the value given, and
    when that value is not a cell, [get] on the key raises [AttributeError]
    instead of returning it. *)
Theorem update_from_dict_stores_raw : forall update st k v,
  is_dict (config st) = true ->
  no_dup_keys (map fst update) = true ->
  dict_get k update = Some v ->
  exists st',
    update_from_dict update st = (Ok tt, st') /\
    logs st' = logs st /\
    (forall dflt, get_path_walk (config st') [k] dflt = Ok v) /\
    (forall sep default,
        py_split k sep = Ok [k] -> is_attr default = false -> is_attr v = false ->
        get k default sep st' = Raise AttributeError).
Proof.
  intros update st k v Hd Hu Hk. unfold update_from_dict.
  destruct (config st) as [| | | | |d| | |] eqn:Ec; try discriminate.
  eexists. split; [reflexivity|]. cbn [config logs].
  assert (Hget : forall dflt, get_path_walk (VDict (dict_update d update)) [k] dflt = Ok v).
  { intros dflt. rewrite get_path_walk_dict, (dict_update_get _ _ _ _ Hu Hk). reflexivity. }
  repeat split; auto.
  intros sep default Hs Hdef Hv. unfold get, mkAttr, get_path_from_dict.
  rewrite Hdef, Hs. cbn [rbind config]. rewrite Hget. cbn [rbind].
  destruct v; try discriminate; reflexivity.
Qed.

Lemma update_from_dict_stores_raw_witness :
  exists st',
    update_from_dict [("debug", VBool false)] tree_with_redis = (Ok tt, st') /\
    logs st' = logs tree_with_redis /\
    (forall dflt, get_path_walk (config st') ["debug"] dflt = Ok (VBool false)) /\
    (forall sep default,
        py_split "debug" sep = Ok ["debug"] -> is_attr default = false ->
        is_attr (VBool false) = false ->
        get "debug" default sep st' = Raise AttributeError).
Proof.
  apply (update_from_dict_stores_raw [("debug", VBool false)] tree_with_redis "debug"
           (VBool false)); reflexivity.
Defined.

(** ** More on the environment *)

Lemma ingest_env_unprefixed : forall W l outer idx,
  (forall kv, In kv l -> prefixed kv = false) ->
  ingest_env W l outer idx = Ok (outer, idx).
Proof.
  induction l as [|[key raw] l IH]; intros outer idx H; [reflexivity|].
  rewrite ingest_env_skip.
  - apply IH. intros kv Hin. apply H. now right.
  - apply (H (key, raw)). now left.
Qed.

(** X14.  With no environment variable that starts with the prefix,
    [update_from_env] merges nothing and logs nothing: the loader is left
    exactly as it was. *)
Theorem update_from_env_nothing_prefixed : forall W st,
  (forall kv, In kv (environ W) -> prefixed kv = false) ->
  update_from_env W st = (Ok tt, st).
Proof.
  intros W st H. unfold update_from_env.
  rewrite ingest_env_unprefixed by exact H. reflexivity.
Qed.

Lemma update_from_env_nothing_prefixed_witness :
  update_from_env world_with_files tree_with_redis = (Ok tt, tree_with_redis).
Proof.
  apply (update_from_env_nothing_prefixed world_with_files tree_with_redis).
  intros kv [].
Defined.

Lemma replace_from_spent : forall old new s, replace_from old new (Some 0) 0 s = s.
Proof.
  induction s as [|c s IH]; [reflexivity|]. cbn [replace_from andb]. now rewrite IH.
Qed.

Lemma ingest_env_count : forall W l outer idx outer' idx',
  ingest_env W l outer idx = Ok (outer', idx') ->
  idx' = (idx + Z.of_nat (length (filter prefixed l)))%Z.
Proof.
  induction l as [|[key raw] l IH]; intros outer idx outer' idx' H.
  - cbn in H. inversion H. cbn. lia.
  - cbn [filter]. unfold prefixed at 1. cbn [fst].
    destruct (String.prefix ENV_PREFIX key) eqn:Hp.
    + destruct (ingest_env_take _ _ _ _ _ _ _ Hp H) as (outer1 & _ & _ & _ & Hrest).
      rewrite (IH _ _ _ _ Hrest). cbn [length]. lia.
    + rewrite ingest_env_skip in H by exact Hp. eauto.
Qed.

(** X16.  When [update_from_env] returns normally and some variable has the
    prefix, the first line it logs is the debug record "Loaded environment
    variables" whose count is the number of variables that start with the
    prefix. *)
Theorem update_from_env_logs_count : forall W st st',
  update_from_env W st = (Ok tt, st') ->
  filter prefixed (environ W) <> [] ->
  exists l,
    logs st' =
    (logs st
     ++ mkLog "debug" "Loaded environment variables"
          [("count", VInt (Z.of_nat (length (filter prefixed (environ W)))))] :: l)%list.
Proof.
  intros W st st' H Hne. unfold update_from_env in H.
  destruct (ingest_env W (environ W) (VDict []) 0) as [[outer idx]|] eqn:Ei; [|discriminate].
  pose proof (ingest_env_count _ _ _ _ _ _ Ei) as Hidx. cbn in Hidx.
  assert (Hpos : (0 <? idx)%Z = true).
  { apply Z.ltb_lt. destruct (filter prefixed (environ W)); [congruence|]. cbn in Hidx. lia. }
  rewrite Hpos in H. unfold bind, log, update_config in H.
  cbn [forallb snd json_serializable andb config logs] in H.
  destruct (update W (config st) outer _) as [[r root'] lg'] eqn:Eu.
  destruct (update_logs _ _ _ _ _ _ _ Eu) as [l ->].
  inversion H; subst. cbn [logs]. exists l. rewrite <- app_assoc. reflexivity.
Qed.

Lemma update_from_env_logs_count_witness :
  exists l,
    logs (snd (update_from_env world_with_env tree_with_geoip)) =
    (logs tree_with_geoip
     ++ mkLog "debug" "Loaded environment variables"
          [("count", VInt (Z.of_nat (length (filter prefixed (environ world_with_env)))))]
        :: l)%list.
Proof.
  apply (update_from_env_logs_count world_with_env tree_with_geoip).
  - reflexivity.
  - discriminate.
Defined.

Lemma ingest_env_app_eq : forall W l1 l2 outer idx,
  ingest_env W (l1 ++ l2) outer idx =
  match ingest_env W l1 outer idx with
  | Ok (outer1, idx1) => ingest_env W l2 outer1 idx1
  | Raise e => Raise e
  end.
Proof.
  induction l1 as [|[key raw] l1 IH]; intros l2 outer idx; [reflexivity|].
  cbn [app ingest_env]. destruct (negb (String.prefix ENV_PREFIX key)); [apply IH|].
  destruct (loads_or_keep W raw) as [v|]; [|reflexivity]. cbn [rbind].
  destruct (mkAttr _ ENV _) as [a|]; [|reflexivity]. cbn [rbind].
  destruct (set_path_in_dict outer _ a ".") as [outer1|]; [|reflexivity]. cbn [rbind].
  apply IH.
Qed.

(** X17.  Two prefixed variables of which the later one's dotted path
    continues below the earlier one's (such as [AUTHENTIK_A] and
    [AUTHENTIK_A__B]), with no variable between them that overrides the
    earlier one: [update_from_env] raises and leaves the loader as it was. *)
Theorem update_from_env_conflict_raises :
  forall W st before k1 r1 between k2 r2 after,
    environ W = (before ++ (k1, r1) :: between ++ (k2, r2) :: after)%list ->
    String.prefix ENV_PREFIX k1 = true ->
    String.prefix ENV_PREFIX k2 = true ->
    is_prefix (dot_parts (relative_key_of W k1)) (removelast (dot_parts (relative_key_of W k2)))
    = true ->
    (forall key raw,
        In (key, raw) between -> String.prefix ENV_PREFIX key = true ->
        is_prefix (dot_parts (relative_key_of W key)) (dot_parts (relative_key_of W k1)) = false) ->
    exists e, update_from_env W st = (Raise e, st).
Proof.
  intros W st before k1 r1 between k2 r2 after Henv Hp1 Hp2 Hbelow Hbetween.
  assert (Hraise : exists e, ingest_env W (environ W) (VDict []) 0 = Raise e).
  { rewrite Henv, ingest_env_app_eq.
    destruct (ingest_env W before (VDict []) 0) as [[o1 i1]|e]; [|eauto].
    destruct (ingest_env W ((k1, r1) :: between ++ (k2, r2) :: after) o1 i1)
      as [res|e] eqn:E1; [|eauto]. exfalso.
    destruct (ingest_env_take _ _ _ _ _ _ _ Hp1 E1) as (o2 & _ & Hv1 & Hs1 & H2).
    rewrite ingest_env_app_eq in H2.
    destruct (ingest_env W between o2 (i1 + 1)) as [[o3 i3]|e] eqn:E3; [|discriminate].
    destruct (ingest_env_invariant _ _ _ _ _ _ E3) as (_ & _ & Hkeep).
    destruct (ingest_env_take _ _ _ _ _ _ _ Hp2 H2) as (o4 & _ & _ & Hs2 & _).
    assert (Ha : addresses o3 (dot_parts (relative_key_of W k1))
                   (VAttr (ingested_value W r1) ENV (Some (relative_key_of W k1)))).
    { apply Hkeep; auto. rewrite (dot_parts_snoc (relative_key_of W k1)).
      eapply set_addresses; eauto. }
    destruct (set_blocked_by_leaf _ _ _ Ha eq_refl _
                (last (dot_parts (relative_key_of W k2)) "")
                (VAttr (ingested_value W r2) ENV (Some (relative_key_of W k2))) Hbelow)
      as [e He].
    congruence. }
  destruct Hraise as [e He]. exists e. unfold update_from_env. now rewrite He.
Qed.

Lemma update_from_env_conflict_raises_witness :
  exists e, update_from_env world_with_clash tree_with_redis = (Raise e, tree_with_redis).
Proof.
  apply (update_from_env_conflict_raises world_with_clash tree_with_redis
           [] "AUTHENTIK_LOG" "info" [] "AUTHENTIK_LOG__LEVEL" "debug" []).
  - reflexivity.
  - reflexivity.
  - reflexivity.
  - reflexivity.
  - intros key raw [].
Defined.

(** ** More on deprecations *)

Lemma check_deprecation_absent : forall W o n st,
  get o VUnset "." st = Ok VUnset -> check_deprecation W o n st = (Ok tt, st).
Proof. intros W o n st H. unfold check_deprecation. rewrite H. reflexivity. Qed.

Lemma check_deprecations_in_absent : forall W table st,
  (forall o n, In (o, n) table -> get o VUnset "." st = Ok VUnset) ->
  check_deprecations_in W table st = (Ok tt, st).
Proof.
  induction table as [|[o n] table IH]; intros st H; [reflexivity|].
  cbn [check_deprecations_in]. unfold bind.
  rewrite check_deprecation_absent by (apply (H o n); now left).
  apply IH. intros o' n' Hin. apply (H o' n'). now right.
Qed.

(** X18.  When none of the deprecated paths holds a value,
    [check_deprecations] returns normally and changes nothing: no key is
    moved, nothing is logged, no event is recorded. *)
Theorem check_deprecations_nothing_deprecated : forall W st,
  (forall old new, In (old, new) DEPRECATIONS -> get old VUnset "." st = Ok VUnset) ->
  check_deprecations W st = (Ok tt, st).
Proof. intros W st H. apply check_deprecations_in_absent. exact H. Qed.

Lemma check_deprecations_nothing_deprecated_witness :
  check_deprecations world_without_events (mkState (fst after_local_yml) [])
  = (Ok tt, mkState (fst after_local_yml) []).
Proof.
  apply (check_deprecations_nothing_deprecated world_without_events).
  intros old new Hin. unfold DEPRECATIONS in Hin. cbn [In] in Hin.
  repeat (destruct Hin as [Hin | Hin]); try contradiction; inversion Hin; reflexivity.
Defined.

Lemma get_dot_on_mapping : forall st path default d,
  is_attr default = false ->
  addresses (config st) (dot_parts path) (VDict d) ->
  get path default "." st = Raise AttributeError.
Proof.
  intros st path default d Hd Ha. rewrite get_dot by exact Hd.
  now rewrite (addresses_get_path_walk _ _ _ _ Ha).
Qed.

(** X19.  A deprecated path that holds a mapping (for instance
    [redis.broker_transport_options] given as nested keys) stops the check:
    if the entries before it in the table are absent, [check_deprecations]
    raises [AttributeError] and leaves the loader as it was. *)
Theorem check_deprecations_raises_on_mapping : forall W st before old new after d,
  DEPRECATIONS = (before ++ (old, new) :: after)%list ->
  (forall o n, In (o, n) before -> get o VUnset "." st = Ok VUnset) ->
  addresses (config st) (dot_parts old) (VDict d) ->
  check_deprecations W st = (Raise AttributeError, st).
Proof.
  intros W st before old new after d Htable Hbefore Ha.
  unfold check_deprecations. rewrite Htable. clear Htable.
  induction before as [|[o n] before IH].
  - cbn [app check_deprecations_in]. unfold bind, check_deprecation.
    now rewrite (get_dot_on_mapping st old VUnset d eq_refl Ha).
  - cbn [app check_deprecations_in]. unfold bind.
    rewrite check_deprecation_absent by (apply (Hbefore o n); now left).
    apply IH. intros o' n' Hin. apply (Hbefore o' n'). now right.
Qed.

Lemma check_deprecations_raises_on_mapping_witness :
  check_deprecations bare_world tree_with_transport_options
  = (Raise AttributeError, tree_with_transport_options).
Proof.
  apply (check_deprecations_raises_on_mapping bare_world tree_with_transport_options
           (firstn 2 DEPRECATIONS) "redis.broker_transport_options"
           "broker.transport_options" (skipn 3 DEPRECATIONS)
           [("visibility_timeout", cell (VInt 3600))]).
  - reflexivity.
  - intros o n Hin. cbn in Hin.
    repeat (destruct Hin as [Hin | Hin]); try contradiction; inversion Hin; reflexivity.
  - vm_compute. eapply addresses_step; [reflexivity|].
    eapply addresses_step; [reflexivity | apply addresses_here].
Defined.

(** ** [get_int] and [get_dict_from_b64_json] *)

(** X20.  On a stored int, bool or string, [get_int] never raises and never
    touches the tree: it returns the integer with the log as it was, or, when
    [int] refuses the string, the caller's default after logging exactly one
    warning. *)
Theorem get_int_converts_or_defaults : forall W st path default v,
  get path default "." st = Ok v ->
  int_rejects_type v = false ->
  exists r st',
    get_int W path default st = (Ok r, st') /\
    config st' = config st /\
    ((exists z, py_int W v = Ok z /\ r = VInt z /\ st' = st) \/
     (py_int W v = Raise ValueError /\ r = default /\
      exists rec, logs st' = (logs st ++ [rec])%list /\
                  level rec = "warning" /\
                  event rec = "Failed to parse config as int")).
Proof.
  intros W st path default v Hget Hv. unfold get_int. rewrite Hget.
  destruct v; try discriminate; cbn [py_int].
  - eexists _, st. repeat split. left. eauto.
  - eexists _, st. repeat split. left. eauto.
  - destruct (int_of_str W s) as [z|].
    + eexists _, st. repeat split. left. eauto.
    + unfold bind, log, ret. cbn. eexists _, _. split; [reflexivity|].
      split; [reflexivity|]. right. repeat split. eexists. repeat split.
Qed.

Lemma get_int_converts_or_defaults_witness :
  exists r st',
    get_int bare_world "redis.host" (VInt 6379) tree_with_redis = (Ok r, st') /\
    config st' = config tree_with_redis /\
    ((exists z, py_int bare_world (VStr "redis") = Ok z /\ r = VInt z /\
                st' = tree_with_redis) \/
     (py_int bare_world (VStr "redis") = Raise ValueError /\ r = VInt 6379 /\
      exists rec, logs st' = (logs tree_with_redis ++ [rec])%list /\
                  level rec = "warning" /\
                  event rec = "Failed to parse config as int")).
Proof.
  apply (get_int_converts_or_defaults bare_world tree_with_redis "redis.host" (VInt 6379)
           (VStr "redis")); reflexivity.
Defined.

Lemma is_none_dec : forall v : pyval, v = VNone \/ v <> VNone.
Proof. intros v. destruct v; (now left) || (right; discriminate). Qed.

Lemma unless_none : forall (A : Type) (v : pyval) (x y : A),
  v <> VNone -> match v with VNone => y | _ => x end = x.
Proof. intros A v x y H. destruct v; try reflexivity. contradiction. Qed.

(** X21.  Where [get] returns, [get_dict_from_b64_json] never touches the
    tree and ends in one of four ways.  On None it returns an empty mapping,
    whatever the default.  When the value decodes and [json.loads] accepts
    the brace-wrapped text, it returns what [json.loads] made of it.  When
    decoding fails or [json.loads] refuses the text, it logs exactly one
    warning and returns the default if that is a mapping and an empty
    mapping if not.  When [json.loads] gives up on the nesting of the text,
    its [RecursionError] is not caught and escapes, nothing being logged. *)
Theorem get_dict_from_b64_json_outcomes : forall W C path default st v,
  get path VNone "." st = Ok v ->
  exists r st',
    get_dict_from_b64_json W C path default st = (r, st') /\
    config st' = config st /\
    ((v = VNone /\ r = Ok (VDict []) /\ st' = st) \/
     (exists text out,
         b64decode_utf8 C v = inl text /\
         json_loads W (brace_wrap text) = Loaded out /\ r = Ok out /\ st' = st) \/
     (exists text,
         b64decode_utf8 C v = inl text /\
         json_loads W (brace_wrap text) = TooDeep /\
         r = Raise RecursionError /\ st' = st) \/
     (v <> VNone /\
      ((exists msg, b64decode_utf8 C v = inr msg) \/
       (exists text, b64decode_utf8 C v = inl text /\
                     json_loads W (brace_wrap text) = Malformed)) /\
      r = Ok (if is_dict default then default else VDict []) /\
      is_dict (if is_dict default then default else VDict []) = true /\
      exists msg,
        logs st' = (logs st ++ [mkLog "warning" (ignored_message path msg) []])%list)).
Proof.
  intros W C path default st v Hget. unfold get_dict_from_b64_json. rewrite Hget.
  assert (Hfb : is_dict (if is_dict default then default else VDict []) = true)
    by (destruct (is_dict default) eqn:E; [exact E | reflexivity]).
  destruct (is_none_dec v) as [-> | Hv].
  { exists (Ok (VDict [])), st. repeat split. left. auto. }
  rewrite unless_none by exact Hv.
  destruct (b64decode_utf8 C v) as [text|msg] eqn:Eb.
  - destruct (json_loads W (brace_wrap text)) as [out| |] eqn:Ej.
    + exists (Ok out), st. repeat split. right. left. exists text, out. auto.
    + unfold bind, log, ret. cbn [forallb].
      eexists _, _. split; [reflexivity|]. split; [reflexivity|].
      right. right. right. repeat split; auto.
      * right. exists text. auto.
      * cbn [logs]. eauto.
    + exists (Raise RecursionError), st. repeat split.
      right. right. left. exists text. auto.
  - unfold bind, log, ret. cbn [forallb].
    eexists _, _. split; [reflexivity|]. split; [reflexivity|].
    right. right. right. repeat split; auto.
    + left. eauto.
    + cbn [logs]. eauto.
Qed.

Lemma get_dict_from_b64_json_outcomes_witness :
  exists r st',
    get_dict_from_b64_json bare_world refusing_codec "redis.host" VNone tree_with_redis
    = (r, st') /\
    config st' = config tree_with_redis /\
    ((VStr "redis" = VNone /\ r = Ok (VDict []) /\ st' = tree_with_redis) \/
     (exists text out,
         b64decode_utf8 refusing_codec (VStr "redis") = inl text /\
         json_loads bare_world (brace_wrap text) = Loaded out /\ r = Ok out /\
         st' = tree_with_redis) \/
     (exists text,
         b64decode_utf8 refusing_codec (VStr "redis") = inl text /\
         json_loads bare_world (brace_wrap text) = TooDeep /\
         r = Raise RecursionError /\ st' = tree_with_redis) \/
     (VStr "redis" <> VNone /\
      ((exists msg, b64decode_utf8 refusing_codec (VStr "redis") = inr msg) \/
       (exists text, b64decode_utf8 refusing_codec (VStr "redis") = inl text /\
                     json_loads bare_world (brace_wrap text) = Malformed)) /\
      r = Ok (if is_dict VNone then VNone else VDict []) /\
      is_dict (if is_dict VNone then VNone else VDict []) = true /\
      exists msg,
        logs st' =
        (logs tree_with_redis ++ [mkLog "warning" (ignored_message "redis.host" msg) []])%list)).
Proof.
  apply (get_dict_from_b64_json_outcomes bare_world refusing_codec "redis.host" VNone
           tree_with_redis (VStr "redis")).
  reflexivity.
Defined.

(** *** The braces *)

Lemma lstrip_char_no_lead : forall c s, starts_with c (lstrip_char c s) = false.
Proof.
  induction s as [|a s IH]; [reflexivity|]. cbn [lstrip_char].
  destruct (Ascii.eqb a c) eqn:E; [exact IH | cbn; exact E].
Qed.

Lemma ends_with_cons : forall c a s,
  ends_with c (String a s) = if String.eqb s "" then Ascii.eqb a c else ends_with c s.
Proof. intros c a [|b s]; reflexivity. Qed.

Lemma rstrip_char_no_trail : forall c s, ends_with c (rstrip_char c s) = false.
Proof.
  induction s as [|a s IH]; [reflexivity|]. cbn [rstrip_char].
  destruct (Ascii.eqb a c) eqn:E; cbn [andb].
  - destruct (String.eqb (rstrip_char c s) "") eqn:Er; [reflexivity|].
    now rewrite ends_with_cons, Er.
  - rewrite ends_with_cons. destruct (String.eqb (rstrip_char c s) ""); auto.
Qed.

Lemma rstrip_char_keeps_lead : forall c c' s,
  starts_with c s = false -> starts_with c (rstrip_char c' s) = false.
Proof.
  intros c c' [|a s] H; [reflexivity|]. cbn in H. cbn [rstrip_char].
  destruct (Ascii.eqb a c' && String.eqb (rstrip_char c' s) ""); [reflexivity | exact H].
Qed.

Lemma append_nonempty : forall s c, String.eqb (s ++ String c "") "" = false.
Proof. intros [|a s] c; reflexivity. Qed.

Lemma rstrip_char_restores : forall c s,
  ends_with c s = false -> rstrip_char c (s ++ String c "") = s.
Proof.
  induction s as [|a s IH]; intros H.
  - cbn. now rewrite Ascii.eqb_refl.
  - rewrite ends_with_cons in H. cbn [append rstrip_char].
    destruct (String.eqb s "") eqn:Es.
    + apply String.eqb_eq in Es. subst s. cbn. rewrite Ascii.eqb_refl, H. reflexivity.
    + rewrite (IH H), Es, andb_false_r. reflexivity.
Qed.

(** A character of ASCII is no part of a whitespace character outside it. *)
Lemma is_space2_ascii_l : forall a b, is_ascii a = true -> is_space2 a b = false.
Proof.
  intros a b H. unfold is_space2, is_ascii in *. apply Nat.ltb_lt in H.
  destruct (Nat.eqb_spec (nat_of_ascii a) 194); [lia | reflexivity].
Qed.

Lemma is_space2_ascii_r : forall a b, is_ascii b = true -> is_space2 a b = false.
Proof.
  intros a b H. unfold is_space2, is_ascii in *. apply Nat.ltb_lt in H.
  destruct (Nat.eqb_spec (nat_of_ascii b) 133); [lia|].
  destruct (Nat.eqb_spec (nat_of_ascii b) 160); [lia|]. apply andb_false_r.
Qed.

Lemma is_space3_ascii_l : forall a b c, is_ascii a = true -> is_space3 a b c = false.
Proof.
  intros a b c H. unfold is_space3, is_ascii in *. apply Nat.ltb_lt in H.
  destruct (Nat.eqb_spec (nat_of_ascii a) 225); [lia|].
  destruct (Nat.eqb_spec (nat_of_ascii a) 226); [lia|].
  destruct (Nat.eqb_spec (nat_of_ascii a) 227); [lia|]. reflexivity.
Qed.

Lemma is_space3_ascii_r : forall a b c, is_ascii c = true -> is_space3 a b c = false.
Proof.
  intros a b c H. unfold is_space3, is_ascii in *. apply Nat.ltb_lt in H.
  destruct (Nat.eqb_spec (nat_of_ascii c) 128); [lia|].
  destruct (Nat.eqb_spec (nat_of_ascii c) 168); [lia|].
  destruct (Nat.eqb_spec (nat_of_ascii c) 169); [lia|].
  destruct (Nat.eqb_spec (nat_of_ascii c) 175); [lia|].
  destruct (Nat.eqb_spec (nat_of_ascii c) 159); [lia|].
  destruct (Nat.leb_spec 128 (nat_of_ascii c)); [lia|].
  cbn [andb orb]. now rewrite !andb_false_r.
Qed.

(** [lstrip] stops at a character of ASCII that is no whitespace. *)
Lemma py_lstrip_plain : forall a s,
  is_ascii a = true -> is_space a = false -> py_lstrip (String a s) = String a s.
Proof.
  intros a s Ha Hs. cbn [py_lstrip]. rewrite Hs.
  destruct s as [|b s]; [reflexivity|]. rewrite (is_space2_ascii_l a b Ha).
  destruct s as [|c s]; [reflexivity|]. now rewrite (is_space3_ascii_l a b c Ha).
Qed.

(** A text that ends with such a character is not all whitespace. *)
Lemma py_lstrip_ends : forall n t c,
  (String.length t <= n)%nat ->
  is_ascii c = true -> is_space c = false ->
  String.eqb (py_lstrip (t ++ String c "")) "" = false.
Proof.
  induction n as [|n IH]; intros t c Hn Ha Hs.
  - destruct t; [|cbn in Hn; lia]. cbn [append]. now rewrite py_lstrip_plain.
  - destruct t as [|a t1]; [cbn [append]; now rewrite py_lstrip_plain|].
    cbn [String.length] in Hn. cbn [append py_lstrip].
    destruct (is_space a); [apply IH; auto; lia|].
    destruct t1 as [|b t2]; cbn [append].
    { rewrite (is_space2_ascii_r a c Ha). reflexivity. }
    cbn [String.length] in Hn.
    destruct (is_space2 a b); [apply IH; auto; lia|].
    destruct t2 as [|d t3]; cbn [append].
    { rewrite (is_space3_ascii_r a b c Ha). reflexivity. }
    cbn [String.length] in Hn.
    destruct (is_space3 a b d); [apply IH; auto; lia | reflexivity].
Qed.

Lemma py_rstrip_keeps : forall s c,
  is_ascii c = true -> is_space c = false ->
  py_rstrip (s ++ String c "") = s ++ String c "".
Proof.
  induction s as [|a s IH]; intros c Ha Hc.
  - cbn [append py_rstrip]. rewrite py_lstrip_plain by assumption. reflexivity.
  - cbn [append py_rstrip].
    change (String a (s ++ String c "")) with ((String a s) ++ String c "").
    rewrite (py_lstrip_ends (String.length (String a s)) (String a s) c (le_n _) Ha Hc).
    cbn [append]. now rewrite (IH c Ha Hc).
Qed.

Lemma lstrip_char_keeps : forall c s,
  starts_with c s = false -> lstrip_char c s = s.
Proof. intros c [|a s] H; [reflexivity|]. cbn in *. now rewrite H. Qed.

Lemma brace_wrap_fixed : forall core,
  starts_with "{" core = false ->
  ends_with "}" core = false ->
  brace_wrap ("{" ++ core ++ "}") = "{" ++ core ++ "}".
Proof.
  intros core Hlead Htrail. unfold brace_wrap, py_strip.
  assert (Hs : is_space "{" = false) by reflexivity.
  change ("{" ++ core ++ "}") with (String "{" (core ++ "}")).
  rewrite (py_lstrip_plain "{" (core ++ "}") eq_refl Hs).
  cbn [py_rstrip]. rewrite (py_lstrip_plain "{" (core ++ "}") eq_refl Hs).
  cbn [String.eqb].
  rewrite (py_rstrip_keeps core "}" eq_refl eq_refl).
  cbn [lstrip_char]. rewrite Ascii.eqb_refl.
  rewrite (lstrip_char_keeps "{" (core ++ "}")).
  - now rewrite (rstrip_char_restores "}" core Htrail).
  - destruct core; [reflexivity | exact Hlead].
Qed.

(** X22.  The text handed to [json.loads] is one opening brace, a core and
    one closing brace, where the core neither starts with an opening brace
    nor ends with a closing one: [lstrip] and [rstrip] take every brace at
    either end, not one layer, so a text that ends in two closing braces
    loses both.  Wrapping what was wrapped changes nothing. *)
Theorem brace_wrap_shape : forall decoded,
  exists core,
    brace_wrap decoded = "{" ++ core ++ "}" /\
    starts_with "{" core = false /\
    ends_with "}" core = false /\
    brace_wrap (brace_wrap decoded) = brace_wrap decoded.
Proof.
  intros decoded.
  assert (Hlead : starts_with "{" (rstrip_char "}" (lstrip_char "{" (py_strip decoded)))
                  = false)
    by (apply rstrip_char_keeps_lead, lstrip_char_no_lead).
  assert (Htrail : ends_with "}" (rstrip_char "}" (lstrip_char "{" (py_strip decoded)))
                   = false) by apply rstrip_char_no_trail.
  exists (rstrip_char "}" (lstrip_char "{" (py_strip decoded))).
  repeat split; auto.
  unfold brace_wrap at 2 3. now apply brace_wrap_fixed.
Qed.

(** ** Names of environment variables *)

Lemma prefix_cons : forall a p b s,
  String.prefix (String a p) (String b s) = Ascii.eqb a b && String.prefix p s.
Proof.
  intros a p b s. cbn [String.prefix].
  destruct (ascii_dec a b) as [->|n].
  - now rewrite Ascii.eqb_refl.
  - apply Ascii.eqb_neq in n. now rewrite n.
Qed.

Lemma prefix_nil : forall s, String.prefix "" s = true.
Proof. intros [|b s]; reflexivity. Qed.

(** No doubled underscore starts at the head of a tidy text, whatever
    follows it. *)
Lemma tidy_head : forall a c rest,
  is_substring "__" (String a c) = false ->
  ends_with "_" (String a c) = false ->
  String.prefix "__" (String a (c ++ rest)) = false /\
  is_substring "__" c = false /\ ends_with "_" c = false.
Proof.
  intros a c rest Hsub Hend. cbn [is_substring] in Hsub.
  apply orb_false_iff in Hsub as [Hpre Hsub].
  rewrite ends_with_cons in Hend.
  destruct c as [|b c].
  - cbn [String.eqb] in Hend. split; [|split; reflexivity].
    rewrite prefix_cons. destruct rest as [|r rest]; cbn [append].
    + now rewrite andb_false_r.
    + rewrite Ascii.eqb_sym, Hend. reflexivity.
  - cbn [String.eqb] in Hend. split; [|split; assumption].
    cbn [append]. rewrite !prefix_cons, prefix_nil in *. exact Hpre.
Qed.

Lemma replace_component : forall c rest,
  is_substring "__" c = false ->
  ends_with "_" c = false ->
  replace_from "__" "." None 0 (c ++ "__" ++ rest)
  = c ++ "." ++ replace_from "__" "." None 0 rest.
Proof.
  induction c as [|a c IH]; intros rest Hsub Hend.
  - cbn [append replace_from andb]. rewrite !prefix_cons, prefix_nil. reflexivity.
  - destruct (tidy_head a c ("__" ++ rest) Hsub Hend) as (Hpre & Hsub' & Hend').
    cbn [append] in Hpre |- *. cbn [replace_from andb]. rewrite Hpre.
    f_equal. exact (IH rest Hsub' Hend').
Qed.

Lemma replace_last_component : forall c,
  is_substring "__" c = false ->
  ends_with "_" c = false ->
  replace_from "__" "." None 0 c = c.
Proof.
  induction c as [|a c IH]; intros Hsub Hend; [reflexivity|].
  destruct (tidy_head a c "" Hsub Hend) as (Hpre & Hsub' & Hend').
  cbn [is_substring] in Hsub. apply orb_false_iff in Hsub as [Hp _].
  cbn [replace_from andb]. rewrite Hp. now rewrite (IH Hsub' Hend').
Qed.

Lemma tidy_parts : forall c,
  tidy_component c = true ->
  all_ascii c = true /\ is_substring "." c = false /\
  is_substring "__" c = false /\ ends_with "_" c = false.
Proof.
  intros c H. unfold tidy_component in H.
  repeat (apply andb_true_iff in H as [H ?]).
  repeat split; auto; now apply negb_true_iff.
Qed.

Lemma replace_join : forall cs,
  forallb tidy_component cs = true ->
  py_replace (join "__" cs) "__" "." None = join "." cs.
Proof.
  unfold py_replace. induction cs as [|c cs IH]; intros H; [reflexivity|].
  cbn [forallb] in H. apply andb_true_iff in H as [Hc Hcs].
  destruct (tidy_parts c Hc) as (_ & _ & Hsub & Hend).
  destruct cs as [|c' cs].
  - cbn [join]. now apply replace_last_component.
  - change (join "__" (c :: c' :: cs)) with (c ++ "__" ++ join "__" (c' :: cs)).
    change (join "." (c :: c' :: cs)) with (c ++ "." ++ join "." (c' :: cs)).
    rewrite replace_component by assumption. now rewrite (IH Hcs).
Qed.

Lemma py_lower_app : forall a b, py_lower (a ++ b) = py_lower a ++ py_lower b.
Proof. induction a as [|x a IH]; intros b; cbn; [reflexivity | now rewrite IH]. Qed.

Lemma py_lower_join : forall sep cs,
  py_lower sep = sep -> py_lower (join sep cs) = join sep (map py_lower cs).
Proof.
  intros sep cs Hsep. induction cs as [|c cs IH]; [reflexivity|].
  destruct cs as [|c' cs]; [reflexivity|].
  change (join sep (c :: c' :: cs)) with (c ++ sep ++ join sep (c' :: cs)).
  rewrite !py_lower_app, Hsep, IH. reflexivity.
Qed.

Lemma all_ascii_app : forall a b, all_ascii (a ++ b) = all_ascii a && all_ascii b.
Proof.
  induction a as [|x a IH]; intros b; cbn [append all_ascii]; [reflexivity|].
  now rewrite IH, andb_assoc.
Qed.

Lemma all_ascii_join : forall sep cs,
  all_ascii sep = true -> forallb all_ascii cs = true -> all_ascii (join sep cs) = true.
Proof.
  intros sep cs Hsep. induction cs as [|c cs IH]; intros H; [reflexivity|].
  cbn [forallb] in H. apply andb_true_iff in H as [Hc Hcs].
  destruct cs as [|c' cs]; [exact Hc|].
  change (join sep (c :: c' :: cs)) with (c ++ sep ++ join sep (c' :: cs)).
  rewrite !all_ascii_app, Hc, Hsep, (IH Hcs). reflexivity.
Qed.

(** Lowering a character gives a dot only for a dot. *)
Lemma char_lower_dot : forall a, Ascii.eqb "." (char_lower a) = Ascii.eqb "." a.
Proof.
  intros a. unfold char_lower.
  destruct ((65 <=? nat_of_ascii a)%nat && (nat_of_ascii a <=? 90)%nat) eqn:E;
    [|reflexivity].
  apply andb_true_iff in E as [E1 E2]. apply Nat.leb_le in E1, E2.
  assert (H1 : Ascii.eqb "." a = false).
  { apply Ascii.eqb_neq. intros <-. cbn in E1. lia. }
  rewrite H1. apply Ascii.eqb_neq. intros H.
  apply (f_equal nat_of_ascii) in H. rewrite nat_ascii_embedding in H by lia.
  cbn in H. lia.
Qed.

Lemma no_dot_lower : forall c,
  is_substring "." c = false -> is_substring "." (py_lower c) = false.
Proof.
  induction c as [|a c IH]; intros H; [reflexivity|].
  cbn [py_lower is_substring] in *. apply orb_false_iff in H as [Hp Hs].
  rewrite prefix_cons, prefix_nil, andb_true_r in *.
  rewrite char_lower_dot, Hp. now apply IH.
Qed.

Lemma split_component : forall c rest,
  is_substring "." c = false ->
  split_from "." 0 (c ++ "." ++ rest) = c :: split_from "." 0 rest.
Proof.
  induction c as [|a c IH]; intros rest H.
  - cbn [append split_from]. rewrite prefix_cons, prefix_nil. reflexivity.
  - cbn [is_substring] in H. apply orb_false_iff in H as [Hp Hs].
    rewrite prefix_cons, prefix_nil, andb_true_r in Hp.
    pose proof (IH rest Hs) as IH'.
    cbn [append] in IH' |- *. cbn [split_from]. rewrite prefix_cons, Hp. cbn [andb].
    now rewrite IH'.
Qed.

Lemma split_last_component : forall c,
  is_substring "." c = false -> split_from "." 0 c = [c].
Proof.
  induction c as [|a c IH]; intros H; [reflexivity|].
  cbn [is_substring] in H. apply orb_false_iff in H as [Hp Hs].
  cbn [split_from]. rewrite Hp. now rewrite (IH Hs).
Qed.

Lemma split_join : forall cs,
  cs <> [] ->
  forallb (fun c => negb (is_substring "." c)) cs = true ->
  dot_parts (join "." cs) = cs.
Proof.
  unfold dot_parts. induction cs as [|c cs IH]; intros Hne H; [congruence|].
  cbn [forallb] in H. apply andb_true_iff in H as [Hc Hcs].
  apply negb_true_iff in Hc.
  destruct cs as [|c' cs].
  - cbn [join]. now apply split_last_component.
  - change (join "." (c :: c' :: cs)) with (c ++ "." ++ join "." (c' :: cs)).
    rewrite split_component by exact Hc. f_equal. apply IH; [discriminate | exact Hcs].
Qed.

Lemma prefix_app : forall p s, String.prefix p (p ++ s) = true.
Proof.
  induction p as [|a p IH]; intros s; [apply prefix_nil|].
  cbn [append]. now rewrite prefix_cons, Ascii.eqb_refl, IH.
Qed.

Lemma strip_env_prefix : forall rest,
  py_replace ("AUTHENTIK_" ++ rest) (ENV_PREFIX ++ "_") "" (Some 1) = rest.
Proof.
  intros rest. unfold py_replace, ENV_PREFIX. cbn.
  replace (String.prefix "" rest) with true by (destruct rest; reflexivity).
  apply replace_from_spent.
Qed.

(** X15.  The naming convention of the environment, read backwards: a
    variable named [AUTHENTIK_] followed by components joined with [__]
    (each component ASCII, without a dot, without a doubled underscore and
    not ending in an underscore) is taken by [update_from_env], and the
    dotted path derived for it splits into exactly those components, in
    lower case.  Only the leading prefix is removed: a component may itself
    be [AUTHENTIK_X]. *)
Theorem relative_key_of_components : forall W cs,
  cs <> [] ->
  forallb tidy_component cs = true ->
  String.prefix ENV_PREFIX ("AUTHENTIK_" ++ join "__" cs) = true /\
  relative_key_of W ("AUTHENTIK_" ++ join "__" cs) = join "." (map py_lower cs) /\
  dot_parts (relative_key_of W ("AUTHENTIK_" ++ join "__" cs)) = map py_lower cs.
Proof.
  intros W cs Hne Htidy.
  assert (Hascii : forallb all_ascii cs = true).
  { apply forallb_forall. intros c Hc.
    rewrite forallb_forall in Htidy. now destruct (tidy_parts c (Htidy c Hc)). }
  assert (Hdots : forallb (fun c => negb (is_substring "." c)) (map py_lower cs) = true).
  { apply forallb_forall. intros c Hc. apply in_map_iff in Hc as (c0 & <- & Hc0).
    rewrite forallb_forall in Htidy.
    destruct (tidy_parts c0 (Htidy c0 Hc0)) as (_ & Hdot & _).
    apply negb_true_iff. now apply no_dot_lower. }
  assert (Hkey : relative_key_of W ("AUTHENTIK_" ++ join "__" cs)
                 = join "." (map py_lower cs)).
  { unfold relative_key_of. rewrite strip_env_prefix, (replace_join cs Htidy).
    unfold str_lower. rewrite (all_ascii_join "." cs eq_refl Hascii).
    now apply py_lower_join. }
  split; [|split].
  - change ("AUTHENTIK_" ++ join "__" cs) with (ENV_PREFIX ++ ("_" ++ join "__" cs)).
    apply prefix_app.
  - exact Hkey.
  - rewrite Hkey. apply split_join; [|exact Hdots].
    destruct cs; [congruence | discriminate].
Qed.

Lemma relative_key_of_components_witness :
  String.prefix ENV_PREFIX ("AUTHENTIK_" ++ join "__" ["POSTGRESQL"; "READ_REPLICAS"; "0"])
  = true /\
  relative_key_of world_with_env ("AUTHENTIK_" ++ join "__" ["POSTGRESQL"; "READ_REPLICAS"; "0"])
  = join "." (map py_lower ["POSTGRESQL"; "READ_REPLICAS"; "0"]) /\
  dot_parts (relative_key_of world_with_env
               ("AUTHENTIK_" ++ join "__" ["POSTGRESQL"; "READ_REPLICAS"; "0"]))
  = map py_lower ["POSTGRESQL"; "READ_REPLICAS"; "0"].
Proof.
  apply (relative_key_of_components world_with_env ["POSTGRESQL"; "READ_REPLICAS"; "0"]).
  - discriminate.
  - reflexivity.
Defined.

(** ** The JSON dump *)

Lemma json_data_list : forall l,
  json_data (VList l) = (ys <- json_list l ;; Ok (VList ys))%res.
Proof.
  intros l. cbn [json_data]. f_equal.
Qed.

Lemma json_data_dict : forall d,
  json_data (VDict d) = (ys <- json_items d ;; Ok (VDict ys))%res.
Proof.
  intros d. cbn [json_data]. f_equal.
Qed.

Lemma json_data_serializable : forall v out,
  json_data v = Ok out -> json_serializable out = true.
Proof.
  induction v using pyval_nested_ind; intros out Hj;
    try (cbn in Hj; inversion Hj; reflexivity); try discriminate.
  - rewrite json_data_list in Hj.
    destruct (json_list l) as [ys|] eqn:E; [|discriminate]. cbn in Hj. inversion Hj; subst.
    cbn [json_serializable]. clear Hj. revert ys E.
    induction H as [|x l Hx _ IH]; intros ys E.
    + cbn in E. inversion E. reflexivity.
    + cbn [json_list] in E. destruct (json_data x) as [y|] eqn:Ey; [|discriminate].
      destruct (json_list l) as [ys'|] eqn:El; [|discriminate].
      cbn in E. inversion E; subst. cbn [forallb]. rewrite (Hx _ eq_refl). cbn. eauto.
  - rewrite json_data_dict in Hj.
    destruct (json_items d) as [ys|] eqn:E; [|discriminate]. cbn in Hj. inversion Hj; subst.
    cbn [json_serializable]. clear Hj. revert ys E.
    induction H as [|[k x] d Hx _ IH]; intros ys E.
    + cbn in E. inversion E. reflexivity.
    + cbn [json_items] in E. cbn [snd] in Hx.
      destruct (json_data x) as [y|] eqn:Ey; [|discriminate].
      destruct (json_items d) as [ys'|] eqn:El; [|discriminate].
      cbn in E. inversion E; subst. cbn [forallb snd]. rewrite (Hx _ eq_refl). cbn. eauto.
  - cbn [json_data] in Hj. eauto.
Qed.

Lemma json_data_plain : forall v, json_serializable v = true -> json_data v = Ok v.
Proof.
  induction v using pyval_nested_ind; intros Hs; try reflexivity; try discriminate.
  - rewrite json_data_list. cbn [json_serializable] in Hs.
    assert (E : json_list l = Ok l).
    { induction H as [|x l Hx _ IH]; [reflexivity|].
      cbn [forallb] in Hs. apply andb_true_iff in Hs as [Hs1 Hs2].
      cbn [json_list]. rewrite (Hx Hs1), (IH Hs2). reflexivity. }
    now rewrite E.
  - rewrite json_data_dict. cbn [json_serializable] in Hs.
    assert (E : json_items d = Ok d).
    { induction H as [|[k x] d Hx _ IH]; [reflexivity|].
      cbn [forallb snd] in Hs. apply andb_true_iff in Hs as [Hs1 Hs2]. cbn [snd] in Hx.
      cbn [json_items]. rewrite (Hx Hs1), (IH Hs2). reflexivity. }
    now rewrite E.
Qed.

Lemma json_items_get : forall d ys c child,
  json_items d = Ok ys ->
  dict_get c d = Some child ->
  exists child', json_data child = Ok child' /\ dict_get c ys = Some child'.
Proof.
  induction d as [|[k x] d IH]; intros ys c child E Hg; [discriminate|].
  cbn [json_items] in E.
  destruct (json_data x) as [y|] eqn:Ey; [|discriminate].
  destruct (json_items d) as [ys'|] eqn:El; [|discriminate].
  cbn in E. inversion E; subst. cbn [dict_get] in *.
  destruct (String.eqb c k); [inversion Hg; subst; eauto | eauto].
Qed.

(** X23.  What [dumps(CONFIG.raw, cls=AttrEncoder)] writes, when it does not
    raise, holds no cell and nothing else the JSON encoder refuses; and at
    every path where the tree holds a cell, the dump holds the cell's value,
    encoded the same way: the value itself when it is plain JSON data, which
    is what [get] returns for that path. *)
Theorem json_data_strips_provenance : forall root out,
  json_data root = Ok out ->
  json_serializable out = true /\
  (forall cs x sty src,
      addresses root cs (VAttr x sty src) ->
      exists y, json_data x = Ok y /\ addresses out cs y /\
                (json_serializable x = true -> y = x)).
Proof.
  intros root out Hj. split; [eapply json_data_serializable; eauto|].
  intros cs x sty src Ha. revert out Hj.
  remember (VAttr x sty src) as node eqn:En.
  induction Ha as [root | d c child cs node Hget Ha IH]; intros out Hj.
  - subst root. cbn [json_data] in Hj. exists out. repeat split; auto.
    + constructor.
    + intros Hs. rewrite (json_data_plain _ Hs) in Hj. congruence.
  - rewrite json_data_dict in Hj.
    destruct (json_items d) as [ys|] eqn:E; [|discriminate]. cbn in Hj. inversion Hj; subst out.
    destruct (json_items_get _ _ _ _ E Hget) as (child' & Ec & Hg').
    destruct (IH En child' Ec) as (y & Ey & Hy & Hplain).
    exists y. repeat split; auto. econstructor; eauto.
Qed.

Lemma json_data_strips_provenance_witness :
  json_serializable
    (VDict [("redis", VDict [("host", VStr "redis"); ("broker_url", VStr "redis://r/1")]);
            ("debug", VBool true); ("workers", VNone)]) = true /\
  (forall cs x sty src,
      addresses (config tree_with_redis) cs (VAttr x sty src) ->
      exists y,
        json_data x = Ok y /\
        addresses
          (VDict [("redis", VDict [("host", VStr "redis"); ("broker_url", VStr "redis://r/1")]);
                  ("debug", VBool true); ("workers", VNone)]) cs y /\
        (json_serializable x = true -> y = x)).
Proof.
  apply (json_data_strips_provenance (config tree_with_redis)).
  reflexivity.
Defined.

(** ** The construction *)

(** X24.  Keyword arguments are merged last, after every file and the
    environment: when the merges of [__init__] return normally, each leaf of
    the keyword arguments is in the tree as resolved, whatever files and
    variables said about that path. *)
Theorem load_sources_kwargs_win : forall W kw st0 st cs v dflt,
  load_sources W kw st0 = (Ok tt, st) ->
  unique_keys kw = true ->
  leaf_of kw cs = Some v ->
  exists stored,
    fst (resolve W v []) = Ok stored /\
    get_path_walk (config st) cs dflt = Ok stored.
Proof.
  intros W kw st0 st cs v dflt H Hu Hleaf. unfold load_sources, bind in H.
  destruct (load_search_paths W (SEARCH_PATHS W) st0) as [[[]|e] st1]; [|discriminate].
  destruct (update_from_env W st1) as [[[]|e] st2]; [|discriminate].
  unfold update_config in H.
  destruct (update W (config st2) kw (logs st2)) as [[r root'] lg'] eqn:Eu.
  inversion H; subst. cbn [config]. eapply update_leaf; eauto.
Qed.

Lemma load_sources_kwargs_win_witness :
  exists stored,
    fst (resolve world_with_env (VInt 8) []) = Ok stored /\
    get_path_walk
      (config (snd (load_sources world_with_env (VDict [("web", VDict [("workers", VInt 8)])])
                      tree_with_geoip)))
      ["web"; "workers"] VNone
    = Ok stored.
Proof.
  apply (load_sources_kwargs_win world_with_env (VDict [("web", VDict [("workers", VInt 8)])])
           tree_with_geoip); reflexivity.
Defined.

Lemma load_env_files_none : forall W files st,
  (forall f, In f files -> kind_of W f <> IsFile) ->
  load_env_files W files st = (Ok tt, st).
Proof.
  induction files as [|f files IH]; intros st H; [reflexivity|].
  cbn [load_env_files]. unfold bind.
  assert (Hf : kind_of W f <> IsFile) by (apply H; now left).
  destruct (kind_of W f); try congruence; cbn [ret];
    apply IH; intros g Hg; apply H; now right.
Qed.

Lemma load_search_paths_nothing : forall W paths st,
  (forall p, In p paths ->
     kind_of W (absolute W p) = Missing \/
     (kind_of W (absolute W p) = IsDir /\
      forall name,
        In name [ENVIRONMENT W ++ ".yml"; ENVIRONMENT W ++ ".env.yml";
                 ENVIRONMENT W ++ ".yaml"; ENVIRONMENT W ++ ".env.yaml"] ->
        kind_of W (path_join W (absolute W p) name) <> IsFile)) ->
  load_search_paths W paths st = (Ok tt, st).
Proof.
  induction paths as [|p paths IH]; intros st H; [reflexivity|].
  cbn [load_search_paths]. unfold bind.
  assert (Hrest : load_search_paths W paths st = (Ok tt, st))
    by (apply IH; intros q Hq; apply H; now right).
  destruct (H p (or_introl eq_refl)) as [-> | [-> Hfiles]].
  - cbn [ret]. exact Hrest.
  - rewrite load_env_files_none; [exact Hrest|].
    intros f Hf. apply in_map_iff in Hf as (name & <- & Hname). now apply Hfiles.
Qed.

(** X25.  On a host where no search path is a file, no directory among them
    holds a file for the environment ([<env>.yml], [<env>.env.yml],
    [<env>.yaml], [<env>.env.yaml]) and no variable has the prefix,
    constructing the loader comes down to merging the keyword arguments into
    an empty tree and running the deprecation check: nothing is read and
    nothing else is logged. *)
Theorem ConfigLoader_init_bare_host : forall W kw,
  (forall p, In p (SEARCH_PATHS W) ->
     kind_of W (absolute W p) = Missing \/
     (kind_of W (absolute W p) = IsDir /\
      forall name,
        In name [ENVIRONMENT W ++ ".yml"; ENVIRONMENT W ++ ".env.yml";
                 ENVIRONMENT W ++ ".yaml"; ENVIRONMENT W ++ ".env.yaml"] ->
        kind_of W (path_join W (absolute W p) name) <> IsFile)) ->
  (forall kv, In kv (environ W) -> prefixed kv = false) ->
  ConfigLoader_init W kw
  = (update_config W kw ;; check_deprecations W)%M (mkState (VDict []) []).
Proof.
  intros W kw Hpaths Henv. unfold ConfigLoader_init, load_sources, bind.
  rewrite load_search_paths_nothing by exact Hpaths.
  unfold update_from_env. rewrite ingest_env_unprefixed by exact Henv. reflexivity.
Qed.

Lemma ConfigLoader_init_bare_host_witness :
  ConfigLoader_init world_with_base_dir local_yml
  = (update_config world_with_base_dir local_yml ;; check_deprecations world_with_base_dir)%M
      (mkState (VDict []) []).
Proof.
  apply (ConfigLoader_init_bare_host world_with_base_dir local_yml).
  - intros p Hp. cbn in Hp.
    destruct Hp as [<- | [<- | [<- | []]]].
    + left. reflexivity.
    + left. reflexivity.
    + right. split; [reflexivity|].
      intros name Hname. cbn in Hname.
      destruct Hname as [<- | [<- | [<- | [<- | []]]]]; discriminate.
  - intros kv Hkv. cbn in Hkv. destruct Hkv as [<- | []]. reflexivity.
Defined.

(** ** More on popping and merging *)

Lemma pop_of_addressed : forall root parts x,
  addresses root parts x ->
  parts <> [] ->
  exists root', pop_deprecated_key root parts = Ok (x, root').
Proof.
  induction 1 as [root | d c child cs node Hget Ha IH]; intros Hne; [congruence|].
  destruct cs as [|c2 cs].
  - inversion Ha; subst. cbn. rewrite Hget. eauto.
  - rewrite pop_deprecated_key_cons. cbn [py_getitem rbind]. rewrite Hget. cbn [rbind].
    destruct IH as [child' ->]; [discriminate|].
    cbn [rbind snd fst store_back]. unfold dict_mem. rewrite Hget.
    cbn [py_getitem]. rewrite dict_get_set_same. cbn [rbind].
    destruct (negb (truthy child')); [|eauto].
    cbn [py_pop]. rewrite dict_get_set_same. cbn. eauto.
Qed.

(** X26.  [_pop_deprecated_key] returns exactly when the path addresses a
    node through mappings, and what it returns is that node; afterwards the
    path is absent from the object it was popped from. *)
Theorem pop_deprecated_key_returns_addressed : forall root parts x,
  parts <> [] ->
  ((exists root', pop_deprecated_key root parts = Ok (x, root')) <-> addresses root parts x)
  /\
  (forall root' dflt,
      pop_deprecated_key root parts = Ok (x, root') ->
      get_path_walk root' parts dflt = Ok dflt).
Proof.
  intros root parts x Hne. split; [split|].
  - intros [root' H].
    destruct (pop_dict_shape _ _ _ _ H) as (d & d' & -> & ->).
    destruct (is_dict x) eqn:Ex.
    + apply get_addresses with (dflt := VNone);
        [eapply pop_value; eauto | intros ->; discriminate].
    + apply get_addresses with (dflt := VDict []);
        [eapply pop_value; eauto | intros ->; discriminate].
  - intros Ha. now apply pop_of_addressed.
  - intros root' dflt H. eapply pop_absent; eauto.
Qed.

Lemma pop_deprecated_key_returns_addressed_witness :
  ((exists root',
       pop_deprecated_key (config tree_with_redis) ["redis"; "host"] =
       Ok (VAttr (VStr "redis") URI (Some "redis"), root')) <->
   addresses (config tree_with_redis) ["redis"; "host"]
     (VAttr (VStr "redis") URI (Some "redis")))
  /\
  (forall root' dflt,
      pop_deprecated_key (config tree_with_redis) ["redis"; "host"] =
      Ok (VAttr (VStr "redis") URI (Some "redis"), root') ->
      get_path_walk root' ["redis"; "host"] dflt = Ok dflt).
Proof.
  apply (pop_deprecated_key_returns_addressed (config tree_with_redis) ["redis"; "host"]
           (VAttr (VStr "redis") URI (Some "redis"))).
  discriminate.
Defined.




(** ** The script *)

(** X28.  The two ways of running the script agree: when the run without
    argument prints the dump, then for every dotted path at which the tree
    holds a cell with a plain JSON value, the run with that path prints the
    string form of the very value the dump shows at the path. *)
Theorem main_modes_agree : forall W prog st out path x sty src,
  main W [prog] st = Ok (inl out) ->
  addresses (config st) (dot_parts path) (VAttr x sty src) ->
  json_serializable x = true ->
  main W [prog; path] st = Ok (inr (py_str W x)) /\
  addresses out (dot_parts path) x.
Proof.
  intros W prog st out path x sty src Hdump Ha Hx. cbn [main] in *.
  destruct (json_data (config st)) as [data|] eqn:Ej; [|discriminate].
  cbn in Hdump. inversion Hdump; subst data. split.
  - rewrite get_dot by reflexivity.
    rewrite (addresses_get_path_walk _ _ _ _ Ha). reflexivity.
  - clear Hdump. revert out Ej. remember (VAttr x sty src) as node eqn:En.
    remember (dot_parts path) as cs eqn:Ecs. clear Ecs.
    induction Ha as [root | d c child cs node Hget Ha IH]; intros out Ej.
    + subst root. cbn [json_data] in Ej. rewrite (json_data_plain _ Hx) in Ej.
      inversion Ej. constructor.
    + rewrite json_data_dict in Ej.
      destruct (json_items d) as [ys|] eqn:E; [|discriminate].
      cbn in Ej. inversion Ej; subst out.
      destruct (json_items_get _ _ _ _ E Hget) as (child' & Ec & Hg').
      econstructor; eauto.
Qed.

Lemma main_modes_agree_witness :
  main bare_world ["config.py"; "redis.host"] tree_with_redis
  = Ok (inr (py_str bare_world (VStr "redis"))) /\
  addresses
    (VDict [("redis", VDict [("host", VStr "redis"); ("broker_url", VStr "redis://r/1")]);
            ("debug", VBool true); ("workers", VNone)])
    (dot_parts "redis.host") (VStr "redis").
Proof.
  apply (main_modes_agree bare_world "config.py" tree_with_redis _ "redis.host"
           (VStr "redis") URI (Some "redis")).
  - reflexivity.
  - vm_compute. eapply addresses_step; [reflexivity|].
    eapply addresses_step; [reflexivity | apply addresses_here].
  - reflexivity.
Defined.
